(** * Echo.io game server: a shallow embedding of [server.js]

    The server keeps three insertion-ordered maps ([players], [bots],
    [bullets]), two id counters and a set of pending respawn timers.  It is
    driven by socket events, by a 100 ms interval (the tick) and by timers.

    Modelling conventions.
    - JavaScript numbers that hold coordinates, angles and speeds are exact
      rationals or NaN ([number]); rounding of doubles is not modelled.  A
      field of a message received from a client is what [ToNumber] makes of
      it: a rational, NaN, Infinity or -Infinity ([Received.t]).
      Timestamps, health, scores and counters are integers ([Z]).
    - [Math.random], [Date.now] and the transcendental functions of [Math]
      are an environment [Env]: the k-th call of [Math.random] (of
      [Date.now]) returns the k-th value of a stream, and the world counts
      the calls made so far.
    - Objects are mutated in place in the source.  Every entity and bullet
      is reachable through the map that stores it, so an object reference is
      a map together with a key, and a field assignment is an update of the
      stored value.
    - [io.emit], [socket.emit] and [socket.broadcast.emit] append to the log
      [sent] of the world. *)

From Stdlib Require Import ZArith QArith Qround Qabs List String Bool Lia.
From Stdlib Require Import Sorted Permutation.
From Stdlib Require Import DecimalString DecimalNat.
Import ListNotations.

Set Implicit Arguments.

(** ** JavaScript numbers *)

(** Comparison, maximum and minimum of two rationals. *)
Module Rat.
Definition ltb (a b : Q) : bool := negb (Qle_bool b a).
Definition max (a b : Q) : Q := if Qle_bool a b then b else a.
Definition min (a b : Q) : Q := if Qle_bool a b then a else b.
End Rat.

(** A number as the server holds it: a rational, or NaN. *)
Inductive number : Type :=
| num (q : Q)
| NaN.

Coercion num : Q >-> number.

(** Arithmetic gives NaN as soon as an operand is NaN; a comparison with
    NaN is false.  (The one division of the server is by a constant that is
    not 0.) *)
Module Number.
Definition lift1 (f : Q -> Q) (a : number) : number :=
  match a with
  | num p => num (f p)
  | NaN => NaN
  end.

Definition lift2 (f : Q -> Q -> Q) (a b : number) : number :=
  match a, b with
  | num p, num q => num (f p q)
  | _, _ => NaN
  end.

Definition add : number -> number -> number := lift2 Qplus.
Definition sub : number -> number -> number := lift2 Qminus.
Definition mul : number -> number -> number := lift2 Qmult.
Definition div : number -> number -> number := lift2 Qdiv.
Definition opp : number -> number := lift1 Qopp.

Definition lt (a b : number) : Prop :=
  match a, b with
  | num p, num q => (p < q)%Q
  | _, _ => False
  end.

Definition le (a b : number) : Prop :=
  match a, b with
  | num p, num q => (p <= q)%Q
  | _, _ => False
  end.

(** Two numbers of the same value. *)
Definition eq (a b : number) : Prop :=
  match a, b with
  | num p, num q => (p == q)%Q
  | _, _ => False
  end.

(** [a] is not NaN. *)
Definition isNumber (a : number) : Prop := exists q, a = num q.

(** [a || b]: 0 and NaN are falsy. *)
Definition or (a b : number) : number :=
  match a with
  | num p => if Qeq_bool p 0 then b else a
  | NaN => b
  end.
End Number.

Declare Scope num_scope.
Delimit Scope num_scope with num.
Bind Scope num_scope with number.
Infix "+" := Number.add : num_scope.
Infix "-" := Number.sub : num_scope.
Infix "*" := Number.mul : num_scope.
Infix "/" := Number.div : num_scope.
Notation "- a" := (Number.opp a) : num_scope.
Infix "<" := Number.lt : num_scope.
Infix "<=" := Number.le : num_scope.
Infix "==" := Number.eq (at level 70, no associativity) : num_scope.
Notation "a <= b <= c" := (Number.le a b /\ Number.le b c) : num_scope.

(** What [ToNumber] makes of a field of a message received from a client:
    a missing field, or one that is not numeric, arrives as NaN. *)
Module Received.
Inductive t : Type :=
| finite (q : Q)
| nan
| infinity
| negInfinity.

(** The argument as [Math.cos] and [Math.sin] take it: they give NaN for
    Infinity and -Infinity as they do for NaN. *)
Definition angle (v : t) : number :=
  match v with
  | finite q => num q
  | _ => NaN
  end.
End Received.

Coercion Received.finite : Q >-> Received.t.
Bind Scope Q_scope with Received.t.

Module Math.
(** [Math.PI], the double nearest to pi, as a rational. *)
Definition PI : Q := 884279719003555 # 281474976710656.

(** [a < b] on numbers. *)
Definition ltb (a b : number) : bool :=
  match a, b with
  | num p, num q => Rat.ltb p q
  | _, _ => false
  end.

Definition max : number -> number -> number := Number.lift2 Rat.max.
Definition min : number -> number -> number := Number.lift2 Rat.min.
Definition floor (a : Q) : Z := Qfloor a.

(** [Math.max(lo, Math.min(hi, v))] for a received [v]: NaN stays NaN,
    Infinity is cut to [hi] and -Infinity to [lo]. *)
Definition clamp (lo hi : Q) (v : Received.t) : number :=
  match v with
  | Received.finite q => max lo (min hi q)
  | Received.nan => NaN
  | Received.infinity => max lo hi
  | Received.negInfinity => num lo
  end.
End Math.

(** [`${n}`] for a counter [n]. *)
Definition decimal (n : nat) : string := NilEmpty.string_of_uint (Nat.to_uint n).

(** ** JavaScript [Map]: keys in insertion order *)

Module Map.
Definition t (V : Type) : Type := list (string * V).

Section Ops.
Variable V : Type.

Fixpoint get (k : string) (m : t V) : option V :=
  match m with
  | [] => None
  | (k', v) :: m' => if String.eqb k' k then Some v else get k m'
  end.

Definition has (k : string) (m : t V) : bool :=
  match get k m with Some _ => true | None => false end.

(** [m.set(k, v)]: an existing key keeps its place. *)
Fixpoint set (k : string) (v : V) (m : t V) : t V :=
  match m with
  | [] => [(k, v)]
  | (k', v') :: m' =>
      if String.eqb k' k then (k', v) :: m' else (k', v') :: set k v m'
  end.

Fixpoint delete (k : string) (m : t V) : t V :=
  match m with
  | [] => []
  | (k', v') :: m' =>
      if String.eqb k' k then m' else (k', v') :: delete k m'
  end.

(** Assignment to fields of the object stored under [k]. *)
Fixpoint mutate (k : string) (f : V -> V) (m : t V) : t V :=
  match m with
  | [] => []
  | (k', v') :: m' =>
      if String.eqb k' k then (k', f v') :: m' else (k', v') :: mutate k f m'
  end.

Definition keys (m : t V) : list string := List.map fst m.
Definition values (m : t V) : list V := List.map snd m.
Definition size (m : t V) : Z := Z.of_nat (List.length m).
End Ops.
End Map.

(** ** Configuration *)

Module gameConfig.
Definition worldWidth : Q := 2000.
Definition worldHeight : Q := 2000.
Definition playerSpeed : Q := 3.
Definition pingCooldown : Z := 1000.
Definition pingDuration : Z := 2000.
Definition maxPingRadius : Q := 300.
Definition minBots : Z := 5.
Definition maxBots : Z := 10.
Definition botSpeed : Q := 2.
Definition botPingChance : Q := 0.02.
Definition botDirectionChangeChance : Q := 0.02.
Definition botDetectionRange : Q := 400.
Definition botShootRange : Q := 300.
Definition botAccuracy : Q := 0.15.
Definition botAggressiveness : Q := 0.8.
Definition maxHealth : Z := 100.
Definition bulletDamage : Z := 10.
Definition bulletSpeed : Q := 10.
Definition bulletLifetime : Z := 2000.
Definition shootCooldown : Z := 200.
Definition respawnTime : Z := 3000.
End gameConfig.

(** ** Entities (players and bots) and bullets *)

(** The colour string [`hsl(${h}, 70%, 50%)`] is represented by its hue. *)
Definition Color : Type := Q.

Module Entity.
(** The fields [direction], [targetDirection] and [speed] exist on bots
    only; on a player they are never read and are kept at 0. *)
Record t : Type := mk {
  id : string;
  name : string;
  x : number;
  y : number;
  color : Color;
  lastPing : Z;
  alive : bool;
  joinTime : Z;
  score : Z;
  kills : Z;
  deaths : Z;
  health : Z;
  maxHealth : Z;
  lastShoot : Z;
  isBot : bool;
  direction : number;
  targetDirection : number;
  speed : number
}.

Definition set_name (v : string) (e : t) : t :=
  mk (id e) v (x e) (y e) (color e) (lastPing e) (alive e) (joinTime e) (score e) (kills e)
     (deaths e) (health e) (maxHealth e) (lastShoot e) (isBot e) (direction e) (targetDirection e) (speed e).
Definition set_x (v : number) (e : t) : t :=
  mk (id e) (name e) v (y e) (color e) (lastPing e) (alive e) (joinTime e) (score e) (kills e)
     (deaths e) (health e) (maxHealth e) (lastShoot e) (isBot e) (direction e) (targetDirection e) (speed e).
Definition set_y (v : number) (e : t) : t :=
  mk (id e) (name e) (x e) v (color e) (lastPing e) (alive e) (joinTime e) (score e) (kills e)
     (deaths e) (health e) (maxHealth e) (lastShoot e) (isBot e) (direction e) (targetDirection e) (speed e).
Definition set_lastPing (v : Z) (e : t) : t :=
  mk (id e) (name e) (x e) (y e) (color e) v (alive e) (joinTime e) (score e) (kills e)
     (deaths e) (health e) (maxHealth e) (lastShoot e) (isBot e) (direction e) (targetDirection e) (speed e).
Definition set_alive (v : bool) (e : t) : t :=
  mk (id e) (name e) (x e) (y e) (color e) (lastPing e) v (joinTime e) (score e) (kills e)
     (deaths e) (health e) (maxHealth e) (lastShoot e) (isBot e) (direction e) (targetDirection e) (speed e).
Definition set_score (v : Z) (e : t) : t :=
  mk (id e) (name e) (x e) (y e) (color e) (lastPing e) (alive e) (joinTime e) v (kills e)
     (deaths e) (health e) (maxHealth e) (lastShoot e) (isBot e) (direction e) (targetDirection e) (speed e).
Definition set_kills (v : Z) (e : t) : t :=
  mk (id e) (name e) (x e) (y e) (color e) (lastPing e) (alive e) (joinTime e) (score e) v
     (deaths e) (health e) (maxHealth e) (lastShoot e) (isBot e) (direction e) (targetDirection e) (speed e).
Definition set_deaths (v : Z) (e : t) : t :=
  mk (id e) (name e) (x e) (y e) (color e) (lastPing e) (alive e) (joinTime e) (score e) (kills e)
     v (health e) (maxHealth e) (lastShoot e) (isBot e) (direction e) (targetDirection e) (speed e).
Definition set_health (v : Z) (e : t) : t :=
  mk (id e) (name e) (x e) (y e) (color e) (lastPing e) (alive e) (joinTime e) (score e) (kills e)
     (deaths e) v (maxHealth e) (lastShoot e) (isBot e) (direction e) (targetDirection e) (speed e).
Definition set_lastShoot (v : Z) (e : t) : t :=
  mk (id e) (name e) (x e) (y e) (color e) (lastPing e) (alive e) (joinTime e) (score e) (kills e)
     (deaths e) (health e) (maxHealth e) v (isBot e) (direction e) (targetDirection e) (speed e).
Definition set_direction (v : number) (e : t) : t :=
  mk (id e) (name e) (x e) (y e) (color e) (lastPing e) (alive e) (joinTime e) (score e) (kills e)
     (deaths e) (health e) (maxHealth e) (lastShoot e) (isBot e) v (targetDirection e) (speed e).
Definition set_targetDirection (v : number) (e : t) : t :=
  mk (id e) (name e) (x e) (y e) (color e) (lastPing e) (alive e) (joinTime e) (score e) (kills e)
     (deaths e) (health e) (maxHealth e) (lastShoot e) (isBot e) (direction e) v (speed e).
Definition set_speed (v : number) (e : t) : t :=
  mk (id e) (name e) (x e) (y e) (color e) (lastPing e) (alive e) (joinTime e) (score e) (kills e)
     (deaths e) (health e) (maxHealth e) (lastShoot e) (isBot e) (direction e) (targetDirection e) v.
End Entity.

Module Bullet.
Record t : Type := mk {
  id : string;
  ownerId : string;
  ownerName : string;
  x : number;
  y : number;
  vx : number;
  vy : number;
  damage : Z;
  color : Color;
  createdAt : Z
}.

Definition set_x (v : number) (b : t) : t :=
  mk (id b) (ownerId b) (ownerName b) v (y b) (vx b) (vy b) (damage b) (color b) (createdAt b).
Definition set_y (v : number) (b : t) : t :=
  mk (id b) (ownerId b) (ownerName b) (x b) v (vx b) (vy b) (damage b) (color b) (createdAt b).
End Bullet.

(** ** Messages *)

(** The [kd] field of a leaderboard row: [kills] when [deaths = 0], else the
    string [(kills / deaths).toFixed(2)], kept as the pair it is printed from. *)
Inductive Kd : Type :=
| kd_kills (kills : Z)
| kd_toFixed2 (kills deaths : Z).

Record LeaderboardRow : Type := {
  row_id : string;
  row_name : string;
  row_score : Z;
  row_kills : Z;
  row_deaths : Z;
  row_kd : Kd;
  row_isBot : bool;
  row_alive : bool
}.

Module Event.
(** One constructor per event name the server emits; the [gameConfig]
    member of [gameSetup] is the constant configuration and is left out. *)
Inductive t : Type :=
| playerJoined (entity : Entity.t)
| playerLeft (id : string) (finalScore : Z)
| playerMoved (id : string) (x y : number)
| pingEmitted (playerId : string) (x y : number) (timestamp : Z) (color : Color) (maxRadius : Q)
| bulletFired (bullet : Bullet.t)
| bulletRemoved (bulletId : string)
| playerHit (playerId : string) (damage health : Z) (shooterId : string)
| playerDied (id eliminatedBy eliminatorName : string) (finalScore kills deaths : Z)
| playerRespawned (id : string) (x y : number) (health : Z)
| pingCooldown (remaining : Z)
| playerNameUpdated (id name : string)
| chatMessage (playerId : string) (playerColor : Color) (message : string) (timestamp : Z)
| gameSetup (playerId : string) (player : Entity.t) (existingPlayers : list Entity.t)
| gameState (players : list Entity.t) (bullets : list Bullet.t)
            (leaderboard : list LeaderboardRow) (timestamp : Z).
End Event.

(** Who receives an emitted event. *)
Inductive Audience : Type :=
| io_emit                                  (* every session *)
| socket_emit (socket_id : string)         (* the session itself *)
| socket_broadcast_emit (socket_id : string). (* every session but this one *)

(** The two callbacks the server hands to [setTimeout]. *)
Inductive Callback : Type :=
| respawn_target (id : string)             (* () => respawnPlayer(target.id) *)
| respawn_if_connected (id : string).      (* () => if (players.has(id)) respawnPlayer(id) *)

Record Timer : Type := setTimeout { callback : Callback; delay : Z }.

(** ** The state of the server *)

Record World : Type := mkWorld {
  players : Map.t Entity.t;
  bots : Map.t Entity.t;
  bullets : Map.t Bullet.t;
  bulletIdCounter : nat;
  botIdCounter : nat;
  timers : list Timer;
  sent : list (Audience * Event.t);
  randomCalls : nat;
  clockCalls : nat
}.

Definition with_players (f : Map.t Entity.t -> Map.t Entity.t) (w : World) : World :=
  mkWorld (f (players w)) (bots w) (bullets w) (bulletIdCounter w) (botIdCounter w)
          (timers w) (sent w) (randomCalls w) (clockCalls w).
Definition with_bots (f : Map.t Entity.t -> Map.t Entity.t) (w : World) : World :=
  mkWorld (players w) (f (bots w)) (bullets w) (bulletIdCounter w) (botIdCounter w)
          (timers w) (sent w) (randomCalls w) (clockCalls w).
Definition with_bullets (f : Map.t Bullet.t -> Map.t Bullet.t) (w : World) : World :=
  mkWorld (players w) (bots w) (f (bullets w)) (bulletIdCounter w) (botIdCounter w)
          (timers w) (sent w) (randomCalls w) (clockCalls w).
Definition with_bulletIdCounter (n : nat) (w : World) : World :=
  mkWorld (players w) (bots w) (bullets w) n (botIdCounter w)
          (timers w) (sent w) (randomCalls w) (clockCalls w).
Definition with_botIdCounter (n : nat) (w : World) : World :=
  mkWorld (players w) (bots w) (bullets w) (bulletIdCounter w) n
          (timers w) (sent w) (randomCalls w) (clockCalls w).
Definition with_timers (f : list Timer -> list Timer) (w : World) : World :=
  mkWorld (players w) (bots w) (bullets w) (bulletIdCounter w) (botIdCounter w)
          (f (timers w)) (sent w) (randomCalls w) (clockCalls w).
Definition with_sent (f : list (Audience * Event.t) -> list (Audience * Event.t)) (w : World) : World :=
  mkWorld (players w) (bots w) (bullets w) (bulletIdCounter w) (botIdCounter w)
          (timers w) (f (sent w)) (randomCalls w) (clockCalls w).
Definition with_randomCalls (n : nat) (w : World) : World :=
  mkWorld (players w) (bots w) (bullets w) (bulletIdCounter w) (botIdCounter w)
          (timers w) (sent w) n (clockCalls w).
Definition with_clockCalls (n : nat) (w : World) : World :=
  mkWorld (players w) (bots w) (bullets w) (bulletIdCounter w) (botIdCounter w)
          (timers w) (sent w) (randomCalls w) n.

(** The server at start-up: empty maps, counters at 0. *)
Definition initialWorld : World := mkWorld [] [] [] 0 0 [] [] 0 0.

(** ** The environment *)

Record Env : Type := {
  random_stream : nat -> Q;   (* successive results of Math.random() *)
  clock_stream : nat -> Z;    (* successive results of Date.now() *)
  Math_cos : Q -> Q;
  Math_sin : Q -> Q;
  Math_sqrt : Q -> Q;
  Math_atan2 : Q -> Q -> Q
}.

(** ** A state monad over the world *)

Definition M (A : Type) : Type := World -> A * World.

Definition ret (A : Type) (a : A) : M A := fun w => (a, w).

Definition bind (A B : Type) (m : M A) (k : A -> M B) : M B :=
  fun w => let r := m w in k (fst r) (snd r).

Definition exec (A : Type) (m : M A) (w : World) : World := snd (m w).

Declare Scope monad_scope.
Delimit Scope monad_scope with monad.
Notation "x <- m ;; k" := (bind m (fun x => k))
  (at level 61, m at next level, right associativity) : monad_scope.
Notation "m ;; k" := (bind m (fun _ => k))
  (at level 61, right associativity) : monad_scope.
Local Open Scope monad_scope.

Definition skip : M unit := ret tt.

Fixpoint forEach (A : Type) (l : list A) (f : A -> M unit) : M unit :=
  match l with
  | [] => skip
  | a :: l' => f a ;; forEach l' f
  end.

(** [for (let i = 0; i < n; i++) body] with a body that ignores [i]. *)
Fixpoint times (n : nat) (body : M unit) : M unit :=
  match n with
  | O => skip
  | S n' => body ;; times n' body
  end.

Definition get_world : M World := fun w => (w, w).
Definition modify_world (f : World -> World) : M unit := fun w => (tt, f w).

Definition emit (to : Audience) (e : Event.t) : M unit :=
  modify_world (with_sent (fun l => l ++ [(to, e)])).

Definition set_timeout (c : Callback) (ms : Z) : M unit :=
  modify_world (with_timers (fun l => l ++ [setTimeout c ms])).

(** ** The server *)

Section Server.

Variable env : Env.

Local Open Scope Q_scope.
Local Open Scope string_scope.

(** *** Environment calls and object references *)

Definition Math_random : M Q :=
  fun w => (random_stream env (randomCalls w), with_randomCalls (S (randomCalls w)) w).

Definition Date_now : M Z :=
  fun w => (clock_stream env (clockCalls w), with_clockCalls (S (clockCalls w)) w).

(** [Math.cos], [Math.sin], [Math.sqrt] and [Math.atan2] on numbers: NaN
    for a NaN argument.  ([Math.sqrt] is only applied to sums of squares.) *)
Definition cos : number -> number := Number.lift1 (Math_cos env).
Definition sin : number -> number := Number.lift1 (Math_sin env).
Definition sqrt : number -> number := Number.lift1 (Math_sqrt env).
Definition atan2 : number -> number -> number := Number.lift2 (Math_atan2 env).

(** A reference to an entity object: the map that holds it and its key. *)
Inductive Ref : Type :=
| inPlayers (key : string)
| inBots (key : string).

Definition deref (r : Ref) : M (option Entity.t) :=
  fun w => (match r with
            | inPlayers k => Map.get k (players w)
            | inBots k => Map.get k (bots w)
            end, w).

Definition mutate (r : Ref) (f : Entity.t -> Entity.t) : M unit :=
  modify_world (match r with
                | inPlayers k => with_players (Map.mutate k f)
                | inBots k => with_bots (Map.mutate k f)
                end).

(** [obj.field = v] on the object behind [r]; the result is the caller's
    view of the object after the assignment. *)
Definition assign (r : Ref) (f : Entity.t -> Entity.t) (obj : Entity.t) : M Entity.t :=
  mutate r f ;; ret (f obj).

(** [players.get(id) || bots.get(id)] *)
Definition lookup (id : string) : M (option Ref) :=
  fun w => (match Map.get id (players w) with
            | Some _ => Some (inPlayers id)
            | None => match Map.get id (bots w) with
                      | Some _ => Some (inBots id)
                      | None => None
                      end
            end, w).

(** [Math.floor((t - joinTime) / 1000)] *)
Definition secondsSinceJoin (t : Z) (e : Entity.t) : Z :=
  ((t - Entity.joinTime e) / 1000)%Z.

(** *** Bots *)

Definition botNames : list string :=
  ["Shadow"; "Ghost"; "Phantom"; "Specter"; "Wraith"; "Echo"; "Pulse"; "Whisper"; "Stealth"; "Hunter"].

(** [`${a[i]}`]: an index outside the array prints as "undefined". *)
Definition element (a : list string) (i : Z) : string :=
  if (i <? 0)%Z then "undefined" else nth (Z.to_nat i) a "undefined".

Definition createBot : M Entity.t :=
  n <- (fun w => (botIdCounter w, with_botIdCounter (S (botIdCounter w)) w)) ;;
  let botId := "bot_" ++ decimal n in
  r <- Math_random ;;
  let botName := "[BOT] " ++ element botNames (Math.floor (r * inject_Z (Z.of_nat (List.length botNames)))) in
  rx <- Math_random ;;
  ry <- Math_random ;;
  rc <- Math_random ;;
  t <- Date_now ;;
  rd <- Math_random ;;
  rt <- Math_random ;;
  let bot := {|
    Entity.id := botId;
    Entity.name := botName;
    Entity.x := (rx * gameConfig.worldWidth)%Q;
    Entity.y := (ry * gameConfig.worldHeight)%Q;
    Entity.color := rc * 360;
    Entity.lastPing := 0;
    Entity.alive := true;
    Entity.joinTime := t;
    Entity.score := 0;
    Entity.kills := 0;
    Entity.deaths := 0;
    Entity.health := gameConfig.maxHealth;
    Entity.maxHealth := gameConfig.maxHealth;
    Entity.lastShoot := 0;
    Entity.isBot := true;
    Entity.direction := (rd * Math.PI * 2)%Q;
    Entity.targetDirection := (rt * Math.PI * 2)%Q;
    Entity.speed := gameConfig.botSpeed
  |} in
  modify_world (with_bots (Map.set botId bot)) ;;
  emit io_emit (Event.playerJoined bot) ;;
  ret bot.

Definition removeBot (botId : string) : M unit :=
  bot <- deref (inBots botId) ;;
  match bot with
  | Some bot =>
      modify_world (with_bots (Map.delete botId)) ;;
      emit io_emit (Event.playerLeft botId (Entity.score bot))
  | None => skip
  end.

(** "Create bullet": the same statements in [updateBots] and in the
    [shoot] handler. *)
Definition createBullet (owner : Entity.t) (angle : number) (now : Z) : M unit :=
  n <- (fun w => (bulletIdCounter w, with_bulletIdCounter (S (bulletIdCounter w)) w)) ;;
  let bulletId := "bullet_" ++ decimal n in
  let bullet := {|
    Bullet.id := bulletId;
    Bullet.ownerId := Entity.id owner;
    Bullet.ownerName := Entity.name owner;
    Bullet.x := Entity.x owner;
    Bullet.y := Entity.y owner;
    Bullet.vx := cos angle * gameConfig.bulletSpeed;
    Bullet.vy := sin angle * gameConfig.bulletSpeed;
    Bullet.damage := gameConfig.bulletDamage;
    Bullet.color := Entity.color owner;
    Bullet.createdAt := now
  |} in
  modify_world (with_bullets (Map.set bulletId bullet)) ;;
  emit io_emit (Event.bulletFired bullet).

(** One step of the two perception loops of [updateBots]: [acc] is
    [(nearestEnemy, nearestDistance)], [None] standing for
    [(null, Infinity)]. *)
Definition nearer (bot : Entity.t) (among_bots : bool)
           (acc : option (Entity.t * number)) (other : Entity.t) : option (Entity.t * number) :=
  if (among_bots && String.eqb (Entity.id other) (Entity.id bot)) || negb (Entity.alive other)
  then acc
  else
    let dx := (Entity.x other - Entity.x bot)%num in
    let dy := (Entity.y other - Entity.y bot)%num in
    let distance := sqrt (dx * dx + dy * dy) in
    if (match acc with None => true | Some (_, nearestDistance) => Math.ltb distance nearestDistance end)
       && Math.ltb distance gameConfig.botDetectionRange
    then Some (other, distance)
    else acc.

Definition nearestEnemy (bot : Entity.t) (w : World) : option (Entity.t * number) :=
  fold_left (nearer bot true) (Map.values (bots w))
            (fold_left (nearer bot false) (Map.values (players w)) None).

(** "Bounce off walls": the two [if] statements on the projected position
    [(newX, newY)]; the result is [(direction, targetDirection, newX, newY)]. *)
Definition bounceOffWalls (direction targetDirection newX newY : number)
  : number * number * number * number :=
  let '(direction, targetDirection, newX) :=
    if Math.ltb newX 50 || Math.ltb (gameConfig.worldWidth - 50)%Q newX
    then ((Math.PI - direction)%num, (Math.PI - direction)%num,
          Math.max 50 (Math.min (gameConfig.worldWidth - 50)%Q newX))
    else (direction, targetDirection, newX) in
  let '(direction, targetDirection, newY) :=
    if Math.ltb newY 50 || Math.ltb (gameConfig.worldHeight - 50)%Q newY
    then ((- direction)%num, (- direction)%num,
          Math.max 50 (Math.min (gameConfig.worldHeight - 50)%Q newY))
    else (direction, targetDirection, newY) in
  (direction, targetDirection, newX, newY).

(** [bot.speed || gameConfig.botSpeed] *)
Definition currentSpeed (bot : Entity.t) : number :=
  Number.or (Entity.speed bot) gameConfig.botSpeed.

(** The heading after "Smooth direction change". *)
Definition smoothed (bot : Entity.t) : number :=
  (Entity.direction bot + (Entity.targetDirection bot - Entity.direction bot) * 0.1)%num.

(** The projected position [(newX, newY)] of "Move bot". *)
Definition projected (bot : Entity.t) : number * number :=
  ((Entity.x bot + cos (smoothed bot) * currentSpeed bot)%num,
   (Entity.y bot + sin (smoothed bot) * currentSpeed bot)%num).

(** "Smooth direction change", "Move bot" and "Bounce off walls": the
    assignments to [direction], [targetDirection], [x] and [y]. *)
Definition moveBot (bot : Entity.t) : Entity.t :=
  let '(newX, newY) := projected bot in
  let '(direction, targetDirection, newX, newY) :=
    bounceOffWalls (smoothed bot) (Entity.targetDirection bot) newX newY in
  Entity.set_y newY (Entity.set_x newX
    (Entity.set_targetDirection targetDirection (Entity.set_direction direction bot))).

(** The branch "If enemy found, pursue and shoot" of [updateBots]. *)
Definition pursue (now : Z) (self : Ref) (enemy : Entity.t) (nearestDistance : number)
           (bot : Entity.t) : M Entity.t :=
  let angleToEnemy :=
    atan2 (Entity.y enemy - Entity.y bot) (Entity.x enemy - Entity.x bot) in
  r <- Math_random ;;
  bot <- (if Math.ltb r gameConfig.botAggressiveness then
            assign self (fun b => Entity.set_speed (gameConfig.botSpeed * 1.5)%Q
                                   (Entity.set_targetDirection angleToEnemy b)) bot
          else if Math.ltb nearestDistance 150 then
            assign self (fun b => Entity.set_speed gameConfig.botSpeed
                                   (Entity.set_targetDirection (angleToEnemy + Math.PI) b)) bot
          else
            r' <- Math_random ;;
            assign self (fun b => Entity.set_speed gameConfig.botSpeed
                                   (Entity.set_targetDirection (angleToEnemy + ((r' - 0.5) * 0.5)%Q) b)) bot) ;;
  if Math.ltb nearestDistance gameConfig.botShootRange
     && (gameConfig.shootCooldown <? now - Entity.lastShoot bot)%Z
  then
    bot <- assign self (Entity.set_lastShoot now) bot ;;
    let distanceFactor := (nearestDistance / gameConfig.botShootRange)%num in
    let accuracy := (gameConfig.botAccuracy * (1 + distanceFactor))%num in
    r'' <- Math_random ;;
    let shootAngle := (angleToEnemy + (r'' - 0.5)%Q * accuracy)%num in
    createBullet bot shootAngle now ;;
    ret bot
  else ret bot.

(** The branch "No enemy nearby, wander randomly" of [updateBots]. *)
Definition wander (self : Ref) (bot : Entity.t) : M Entity.t :=
  bot <- assign self (Entity.set_speed gameConfig.botSpeed) bot ;;
  r <- Math_random ;;
  if Math.ltb r gameConfig.botDirectionChangeChance then
    r' <- Math_random ;;
    assign self (Entity.set_targetDirection (r' * Math.PI * 2)%Q) bot
  else ret bot.

(** The body of [bots.forEach(bot => ...)] in [updateBots]. *)
Definition updateBot (now : Z) (botId : string) : M unit :=
  found <- deref (inBots botId) ;;
  match found with
  | None => skip
  | Some bot =>
    if negb (Entity.alive bot) then skip else
    let self := inBots botId in
    t <- Date_now ;;
    bot <- assign self (Entity.set_score (secondsSinceJoin t bot + Entity.kills bot * 100)%Z) bot ;;
    w <- get_world ;;
    let nearest := nearestEnemy bot w in
    bot <- match nearest with
           | Some (enemy, nearestDistance) =>
             if Math.ltb nearestDistance gameConfig.botDetectionRange
             then pursue now self enemy nearestDistance bot
             else wander self bot
           | None => wander self bot
           end ;;
    bot <- assign self moveBot bot ;;
    emit io_emit (Event.playerMoved (Entity.id bot) (Entity.x bot) (Entity.y bot)) ;;
    r <- Math_random ;;
    if Math.ltb r (gameConfig.botPingChance * 2)
       && (gameConfig.pingCooldown <? now - Entity.lastPing bot)%Z
    then
      if match nearest with
         | None => true
         | Some (_, nearestDistance) => Math.ltb 200 nearestDistance
         end
      then
        bot <- assign self (Entity.set_lastPing now) bot ;;
        emit io_emit (Event.pingEmitted (Entity.id bot) (Entity.x bot) (Entity.y bot) now
                                        (Entity.color bot) gameConfig.maxPingRadius)
      else skip
    else skip
  end.

Definition updateBots : M unit :=
  now <- Date_now ;;
  w <- get_world ;;
  forEach (Map.keys (bots w)) (updateBot now).

Definition manageBotPopulation : M unit :=
  w <- get_world ;;
  let totalPlayers := (Map.size (players w) + Map.size (bots w))%Z in
  (if (totalPlayers <? gameConfig.minBots)%Z then
     let botsToAdd := (gameConfig.minBots - totalPlayers)%Z in
     times (Z.to_nat botsToAdd) (createBot ;; skip)
   else skip) ;;
  w <- get_world ;;
  if (0 <? Map.size (bots w))%Z && (gameConfig.maxBots <? totalPlayers)%Z then
    let botsToRemove := Z.min (Map.size (bots w)) (totalPlayers - gameConfig.maxBots) in
    let botIds := Map.keys (bots w) in
    forEach (firstn (Z.to_nat botsToRemove) botIds) removeBot
  else skip.

(** *** Respawn and combat *)

Definition respawnPlayer (playerId : string) : M unit :=
  player <- deref (inPlayers playerId) ;;
  match player with
  | Some player =>
      rx <- Math_random ;;
      ry <- Math_random ;;
      player <- assign (inPlayers playerId)
                  (fun p => Entity.set_lastPing 0 (Entity.set_lastShoot 0 (Entity.set_alive true
                              (Entity.set_health gameConfig.maxHealth
                                 (Entity.set_y (ry * gameConfig.worldHeight)%Q
                                    (Entity.set_x (rx * gameConfig.worldWidth)%Q p))))))
                  player ;;
      emit io_emit (Event.playerRespawned playerId (Entity.x player) (Entity.y player)
                                          (Entity.health player))
  | None => skip
  end.

(** "Give kill credit": [kills++] and [score += 100] on the object
    [players.get(id) || bots.get(id)], when there is one. *)
Definition giveKillCredit (id : string) : M (option Ref) :=
  shooter <- lookup id ;;
  match shooter with
  | Some shooter =>
      mutate shooter (fun s => Entity.set_score (Entity.score s + 100)
                                 (Entity.set_kills (Entity.kills s + 1) s)) ;;
      ret (Some shooter)
  | None => ret None
  end.

(** [target.health -= bullet.damage] *)
Definition applyDamage (bullet : Bullet.t) (target : Entity.t) : Entity.t :=
  Entity.set_health (Entity.health target - Bullet.damage bullet) target.

(** [target.alive = false; target.deaths++; target.health = 0] *)
Definition markDead (target : Entity.t) : Entity.t :=
  Entity.set_health 0 (Entity.set_deaths (Entity.deaths target + 1)
                         (Entity.set_alive false target)).

(** "Respawn bot immediately with new position" *)
Definition reviveBot (rx ry : Q) (target : Entity.t) : Entity.t :=
  Entity.set_alive true (Entity.set_health gameConfig.maxHealth
    (Entity.set_y (ry * gameConfig.worldHeight)%Q
       (Entity.set_x (rx * gameConfig.worldWidth)%Q target))).

(** "Check if target died": the statements under [if (target.health <= 0)]. *)
Definition targetDied (bullet : Bullet.t) (self : Ref) (target : Entity.t) : M unit :=
  mutate self markDead ;;
  giveKillCredit (Bullet.ownerId bullet) ;;
  current <- deref self ;;
  let target := match current with Some t => t | None => target end in
  emit io_emit (Event.playerDied (Entity.id target) (Bullet.ownerId bullet) (Bullet.ownerName bullet)
                                 (Entity.score target) (Entity.kills target) (Entity.deaths target)) ;;
  if negb (Entity.isBot target) then
    set_timeout (respawn_target (Entity.id target)) gameConfig.respawnTime
  else
    rx <- Math_random ;;
    ry <- Math_random ;;
    mutate self (reviveBot rx ry).

(** The body of [allTargets.forEach(target => ...)] in [updateBullets].
    [bullet] is the object the enclosing callback holds: it stays in use
    after [bullets.delete(bulletId)]. *)
Definition checkCollision (bulletId : string) (bullet : Bullet.t) (self : Ref) : M unit :=
  found <- deref self ;;
  match found with
  | None => skip
  | Some target =>
    if String.eqb (Entity.id target) (Bullet.ownerId bullet) || negb (Entity.alive target)
    then skip
    else
      let dx := (Entity.x target - Bullet.x bullet)%num in
      let dy := (Entity.y target - Bullet.y bullet)%num in
      let distance := sqrt (dx * dx + dy * dy) in
      if Math.ltb distance 15 then
        target <- assign self (applyDamage bullet) target ;;
        emit io_emit (Event.playerHit (Entity.id target) (Bullet.damage bullet)
                                      (Entity.health target) (Bullet.ownerId bullet)) ;;
        modify_world (with_bullets (Map.delete bulletId)) ;;
        emit io_emit (Event.bulletRemoved bulletId) ;;
        if (Entity.health target <=? 0)%Z then targetDied bullet self target else skip
      else skip
  end.

(** The body of [bullets.forEach((bullet, bulletId) => ...)]. *)
Definition updateBullet (now : Z) (bulletId : string) : M unit :=
  w <- get_world ;;
  match Map.get bulletId (bullets w) with
  | None => skip
  | Some bullet =>
    let bullet := Bullet.set_y (Bullet.y bullet + Bullet.vy bullet)
                    (Bullet.set_x (Bullet.x bullet + Bullet.vx bullet) bullet) in
    modify_world (with_bullets (Map.mutate bulletId
      (fun b => Bullet.set_y (Bullet.y b + Bullet.vy b) (Bullet.set_x (Bullet.x b + Bullet.vx b) b)))) ;;
    if (gameConfig.bulletLifetime <? now - Bullet.createdAt bullet)%Z
       || Math.ltb (Bullet.x bullet) 0 || Math.ltb gameConfig.worldWidth (Bullet.x bullet)
       || Math.ltb (Bullet.y bullet) 0 || Math.ltb gameConfig.worldHeight (Bullet.y bullet)
    then
      modify_world (with_bullets (Map.delete bulletId)) ;;
      emit io_emit (Event.bulletRemoved bulletId)
    else
      w <- get_world ;;
      let allTargets := (List.map inPlayers (Map.keys (players w))
                         ++ List.map inBots (Map.keys (bots w)))%list in
      forEach allTargets (checkCollision bulletId bullet)
  end.

Definition updateBullets : M unit :=
  now <- Date_now ;;
  w <- get_world ;;
  forEach (Map.keys (bullets w)) (updateBullet now).

(** *** Leaderboard *)

(** [sort((a, b) => b.score - a.score)] is stable: an element goes before
    the first one whose score is not larger. *)
Fixpoint insertByScore (a : Entity.t) (l : list Entity.t) : list Entity.t :=
  match l with
  | [] => [a]
  | b :: l' => if (Entity.score b <=? Entity.score a)%Z then a :: l else b :: insertByScore a l'
  end.

Definition sortByScore (l : list Entity.t) : list Entity.t :=
  fold_right insertByScore [] l.

Definition leaderboardRow (player : Entity.t) : LeaderboardRow := {|
  row_id := Entity.id player;
  row_name := Entity.name player;
  row_score := Entity.score player;
  row_kills := Entity.kills player;
  row_deaths := Entity.deaths player;
  row_kd := if (Entity.deaths player =? 0)%Z then kd_kills (Entity.kills player)
            else kd_toFixed2 (Entity.kills player) (Entity.deaths player);
  row_isBot := Entity.isBot player;
  row_alive := Entity.alive player
|}.

Definition getLeaderboard (w : World) : list LeaderboardRow :=
  let allPlayers := (Map.values (players w) ++ Map.values (bots w))%list in
  List.map leaderboardRow (firstn 10 (sortByScore allPlayers)).

(** *** Socket handlers *)

Definition on_connection (socket_id : string) : M unit :=
  rx <- Math_random ;;
  ry <- Math_random ;;
  rc <- Math_random ;;
  t <- Date_now ;;
  let newPlayer := {|
    Entity.id := socket_id;
    Entity.name := "Player";
    Entity.x := (rx * gameConfig.worldWidth)%Q;
    Entity.y := (ry * gameConfig.worldHeight)%Q;
    Entity.color := rc * 360;
    Entity.lastPing := 0;
    Entity.alive := true;
    Entity.joinTime := t;
    Entity.score := 0;
    Entity.kills := 0;
    Entity.deaths := 0;
    Entity.health := gameConfig.maxHealth;
    Entity.maxHealth := gameConfig.maxHealth;
    Entity.lastShoot := 0;
    Entity.isBot := false;
    Entity.direction := 0;
    Entity.targetDirection := 0;
    Entity.speed := 0
  |} in
  modify_world (with_players (Map.set socket_id newPlayer)) ;;
  w <- get_world ;;
  let allPlayers := (Map.values (players w) ++ Map.values (bots w))%list in
  emit (socket_emit socket_id) (Event.gameSetup socket_id newPlayer allPlayers) ;;
  emit (socket_broadcast_emit socket_id) (Event.playerJoined newPlayer).

Definition on_playerMove (socket_id : string) (x y : Received.t) : M unit :=
  player <- deref (inPlayers socket_id) ;;
  match player with
  | None => skip
  | Some player =>
    if negb (Entity.alive player) then skip else
    player <- assign (inPlayers socket_id)
                (fun p => Entity.set_y (Math.clamp 0 gameConfig.worldHeight y)
                            (Entity.set_x (Math.clamp 0 gameConfig.worldWidth x) p))
                player ;;
    emit (socket_broadcast_emit socket_id)
         (Event.playerMoved socket_id (Entity.x player) (Entity.y player))
  end.

Definition on_emitPing (socket_id : string) : M unit :=
  player <- deref (inPlayers socket_id) ;;
  match player with
  | None => skip
  | Some player =>
    if negb (Entity.alive player) then skip else
    now <- Date_now ;;
    if (now - Entity.lastPing player <? gameConfig.pingCooldown)%Z then
      emit (socket_emit socket_id)
           (Event.pingCooldown (gameConfig.pingCooldown - (now - Entity.lastPing player))%Z)
    else
      player <- assign (inPlayers socket_id) (Entity.set_lastPing now) player ;;
      emit io_emit (Event.pingEmitted socket_id (Entity.x player) (Entity.y player) now
                                      (Entity.color player) gameConfig.maxPingRadius) ;;
      t <- Date_now ;;
      mutate (inPlayers socket_id) (Entity.set_score (secondsSinceJoin t player))
  end.

Definition on_shoot (socket_id : string) (angle : Received.t) : M unit :=
  player <- deref (inPlayers socket_id) ;;
  match player with
  | None => skip
  | Some player =>
    if negb (Entity.alive player) then skip else
    now <- Date_now ;;
    if (now - Entity.lastShoot player <? gameConfig.shootCooldown)%Z then skip
    else
      player <- assign (inPlayers socket_id) (Entity.set_lastShoot now) player ;;
      createBullet player (Received.angle angle) now
  end.

Definition on_playerEliminated (socket_id eliminatorId : string) : M unit :=
  player <- deref (inPlayers socket_id) ;;
  match player with
  | None => skip
  | Some player =>
    mutate (inPlayers socket_id)
           (fun p => Entity.set_deaths (Entity.deaths p + 1) (Entity.set_alive false p)) ;;
    eliminator <- giveKillCredit eliminatorId ;;
    eliminatorObject <- match eliminator with
                        | Some eliminator => deref eliminator
                        | None => ret None
                        end ;;
    current <- deref (inPlayers socket_id) ;;
    let player := match current with Some p => p | None => player end in
    emit io_emit (Event.playerDied socket_id eliminatorId
                    (match eliminatorObject with Some e => Entity.name e | None => "Unknown" end)
                    (Entity.score player) (Entity.kills player) (Entity.deaths player)) ;;
    set_timeout (respawn_if_connected socket_id) gameConfig.respawnTime
  end.

Definition on_disconnect (socket_id : string) : M unit :=
  player <- deref (inPlayers socket_id) ;;
  match player with
  | None => skip
  | Some player =>
    t <- Date_now ;;
    player <- assign (inPlayers socket_id) (Entity.set_score (secondsSinceJoin t player)) player ;;
    emit (socket_broadcast_emit socket_id) (Event.playerLeft socket_id (Entity.score player)) ;;
    modify_world (with_players (Map.delete socket_id)) ;;
    manageBotPopulation
  end.

Definition on_setPlayerName (socket_id name : string) : M unit :=
  player <- deref (inPlayers socket_id) ;;
  match player with
  | None => skip
  | Some player =>
    (* name || 'Anonymous' *)
    player <- assign (inPlayers socket_id)
                (Entity.set_name (if String.eqb name "" then "Anonymous" else name)) player ;;
    emit io_emit (Event.playerNameUpdated socket_id (Entity.name player))
  end.

Definition on_chatMessage (socket_id message : string) : M unit :=
  player <- deref (inPlayers socket_id) ;;
  match player with
  | None => skip
  | Some player =>
    t <- Date_now ;;
    emit io_emit (Event.chatMessage socket_id (Entity.color player) message t)
  end.

(** *** Timers and the tick *)

Definition runCallback (c : Callback) : M unit :=
  match c with
  | respawn_target id => respawnPlayer id
  | respawn_if_connected id =>
      w <- get_world ;;
      if Map.has id (players w) then respawnPlayer id else skip
  end.

(** "Update scores for all alive players", for the entities of one map. *)
Definition updateScore (self : Ref) : M unit :=
  found <- deref self ;;
  match found with
  | None => skip
  | Some player =>
    if Entity.alive player then
      t <- Date_now ;;
      mutate self (Entity.set_score (secondsSinceJoin t player + Entity.kills player * 100)%Z)
    else skip
  end.

(** The callback of [setInterval(..., 100)]. *)
Definition tick : M unit :=
  updateBots ;;
  updateBullets ;;
  manageBotPopulation ;;
  w <- get_world ;;
  forEach (List.map inPlayers (Map.keys (players w))) updateScore ;;
  w <- get_world ;;
  forEach (List.map inBots (Map.keys (bots w))) updateScore ;;
  w <- get_world ;;
  let allPlayers := (Map.values (players w) ++ Map.values (bots w))%list in
  let activeBullets := Map.values (bullets w) in
  if (0 <? Z.of_nat (List.length allPlayers))%Z then
    t <- Date_now ;;
    emit io_emit (Event.gameState allPlayers activeBullets (getLeaderboard w) t)
  else skip.

(** *** Everything that can happen to the server *)

Inductive Input : Type :=
| listening                                        (* the http.listen callback *)
| connection (socket_id : string)
| playerMove (socket_id : string) (x y : Received.t)
| emitPing (socket_id : string)
| shoot (socket_id : string) (angle : Received.t)
| playerEliminated (socket_id eliminatorId : string)
| disconnect (socket_id : string)
| setPlayerName (socket_id name : string)
| chatMessage (socket_id message : string)
| interval                                         (* one tick *)
| timeout (n : nat).                               (* the n-th pending timer fires *)

Definition fireTimer (n : nat) : M unit :=
  w <- get_world ;;
  match nth_error (timers w) n with
  | None => skip
  | Some timer =>
      modify_world (with_timers (fun l => (firstn n l ++ skipn (S n) l)%list)) ;;
      runCallback (callback timer)
  end.

Definition handle (i : Input) : M unit :=
  match i with
  | listening => manageBotPopulation
  | connection socket_id => on_connection socket_id
  | playerMove socket_id x y => on_playerMove socket_id x y
  | emitPing socket_id => on_emitPing socket_id
  | shoot socket_id angle => on_shoot socket_id angle
  | playerEliminated socket_id eliminatorId => on_playerEliminated socket_id eliminatorId
  | disconnect socket_id => on_disconnect socket_id
  | setPlayerName socket_id name => on_setPlayerName socket_id name
  | chatMessage socket_id message => on_chatMessage socket_id message
  | interval => tick
  | timeout n => fireTimer n
  end.

(** The world after a history of inputs, oldest first. *)
Definition run (history : list Input) (w : World) : World :=
  fold_left (fun w i => exec (handle i) w) history w.

End Server.

(** ** An environment to run the server in

    The properties below hold for every environment.  To run histories on
    concrete inputs the environment [Sample.env] is used: a clock that
    advances 7 ms per reading, a fixed cycle of random numbers, and
    fixed-point approximations of the [Math] functions (exact at the
    arguments that matter for the examples: [sqrt 0 = 0], [sqrt 225 = 15],
    [cos 0 = 1], [sin 0 = 0]). *)

Module Sample.
Local Open Scope Q_scope.

(** Rounding down to a multiple of 2^-52. *)
Definition fix52 (a : Q) : Q := Qred (Qfloor (a * inject_Z (2 ^ 52)) # 2 ^ 52).

Definition sqrt (a : Q) : Q :=
  Qred (inject_Z (Z.sqrt (Qfloor (a * inject_Z (2 ^ 104)))) / inject_Z (2 ^ 52)).

Definition cos (a : Q) : Q :=
  let a := fix52 a in fix52 (1 - a * a / 2 + a * a * a * a / 24).

Definition sin (a : Q) : Q :=
  let a := fix52 a in fix52 (a - a * a * a / 6 + a * a * a * a * a / 120).

Definition atan (z : Q) : Q := z / (1 + 0.28 * z * z).

Definition atan2 (y x : Q) : Q :=
  let y := fix52 y in
  let x := fix52 x in
  fix52 (if Qeq_bool x 0 && Qeq_bool y 0 then 0
         else if Qle_bool (Qabs y) (Qabs x) then
           (if Rat.ltb x 0
            then (if Rat.ltb y 0 then atan (y / x) - Math.PI else atan (y / x) + Math.PI)
            else atan (y / x))
         else (if Rat.ltb y 0 then - (Math.PI / 2) - atan (x / y)
               else Math.PI / 2 - atan (x / y))).

Definition env : Env := {|
  random_stream := fun n => inject_Z (Z.of_nat (Nat.modulo (7 * n + 3) 10)) / 10;
  clock_stream := fun n => (1700000000000 + 7 * Z.of_nat n)%Z;
  Math_cos := cos;
  Math_sin := sin;
  Math_sqrt := sqrt;
  Math_atan2 := atan2
|}.
End Sample.

(** * Concrete histories

    Inputs on which the server is run below, in [Sample.env]. *)

Section Histories.
Local Open Scope Z_scope.
Local Open Scope string_scope.

(** A player reports its own elimination while at full health. *)
Definition selfReport : list Input :=
  [connection "A"; playerEliminated "A" "B"].

(** Eleven players connect to a server that holds its five initial bots. *)
Definition crowd : list Input :=
  (listening :: List.map connection ["p1"; "p2"; "p3"; "p4"; "p5"; "p6"; "p7"; "p8"; "p9"; "p10"; "p11"])%list.

(** One player, just connected. *)
Definition alone : list Input := [connection "A"].

(** A player that has just pinged. *)
Definition pinged : list Input := [connection "A"; emitPing "A"].

(** Two players; "B" reports that "A" eliminated it, so "A" has one kill. *)
Definition killer : list Input :=
  [connection "A"; connection "B"; playerEliminated "B" "A"].

(** "A" stands at (100, 100), "B" and "C" both at (110, 100); "A" shoots at
    angle 0, so that its bullet is at (110, 100) after the next update. *)
Definition overlap : list Input :=
  [connection "A"; connection "B"; connection "C";
   playerMove "A" 100 100; playerMove "B" 110 100; playerMove "C" 110 100;
   shoot "A" 0].

(** Seven players connect to a server that holds its five initial bots. *)
Definition busy : list Input :=
  (listening :: List.map connection ["p1"; "p2"; "p3"; "p4"; "p5"; "p6"; "p7"])%list.

(** "A" has one kill; a tick recomputes the scores. *)
Definition scored : list Input := (killer ++ [interval])%list.

(** A bot at (10, 10) that heads, and aims, at 1 radian. *)
Definition cornerBot : Entity.t := {|
  Entity.id := "bot_0";
  Entity.name := "[BOT] Echo";
  Entity.x := 10%Q;
  Entity.y := 10%Q;
  Entity.color := 180%Q;
  Entity.lastPing := 0;
  Entity.alive := true;
  Entity.joinTime := 1700000000000;
  Entity.score := 0;
  Entity.kills := 0;
  Entity.deaths := 0;
  Entity.health := 100;
  Entity.maxHealth := 100;
  Entity.lastShoot := 0;
  Entity.isBot := true;
  Entity.direction := 1%Q;
  Entity.targetDirection := 1%Q;
  Entity.speed := 2%Q
|}.

(** A bullet of "A" that has reached the position of [target]. *)
Definition aimedAt (target : Entity.t) (damage : Z) : Bullet.t := {|
  Bullet.id := "bullet_0";
  Bullet.ownerId := "A";
  Bullet.ownerName := "Player";
  Bullet.x := Entity.x target;
  Bullet.y := Entity.y target;
  Bullet.vx := 10%Q;
  Bullet.vy := 0%Q;
  Bullet.damage := damage;
  Bullet.color := 180%Q;
  Bullet.createdAt := 1700000000000
|}.

(** A server with its five initial bots and one player. *)
Definition hunted : list Input := [listening; connection "A"].

(** Sixteen entities, of which "p11" has a kill to its name. *)
Definition ranked : list Input := (crowd ++ [playerEliminated "p1" "p11"])%list.

(** A player alone in the world has fired at an angle that is not a number. *)
Definition firedBlind : list Input := [connection "A"; shoot "A" Received.nan].

(** "A" sends a move whose [x] is not a number. *)
Definition lostField : list Input := [connection "A"; playerMove "A" Received.nan 100].

(** "A" reports its elimination twice, so that two respawn timers are
    pending; it pings after the first has fired, and again after the
    second. *)
Definition twoTimers : list Input :=
  [connection "A"; playerEliminated "A" "B"; playerEliminated "A" "B";
   timeout 0; emitPing "A"; timeout 0; emitPing "A"].

(** "A" pings with one kill to its name, and is then credited another. *)
Definition creditedAfterPing : list Input :=
  (killer ++ [emitPing "A"; playerEliminated "B" "A"])%list.

End Histories.

(** * Vocabulary of the properties *)

Section Vocabulary.
Local Open Scope Z_scope.

(** [m] keeps the property [I] of the world. *)
Definition preserves (I : World -> Prop) (A : Type) (m : M A) : Prop :=
  forall w, I w -> I (snd (m w)).

(** The part of the world the invariants below speak about. *)
Definition core (w : World) :=
  (players w, bots w, bullets w, botIdCounter w).

Definition coreOnly (I : World -> Prop) : Prop :=
  forall w w', core w = core w' -> I w -> I w'.

(** A player: health within [0, maxHealth], and dead when health is 0. *)
Definition player_ok (e : Entity.t) : Prop :=
  Entity.isBot e = false /\
  Entity.maxHealth e = gameConfig.maxHealth /\
  0 <= Entity.health e <= gameConfig.maxHealth /\
  (Entity.health e = 0 -> Entity.alive e = false).

(** A bot between two inputs: alive, with health within [1, maxHealth]. *)
Definition bot_ok (e : Entity.t) : Prop :=
  Entity.isBot e = true /\
  Entity.maxHealth e = gameConfig.maxHealth /\
  Entity.alive e = true /\
  0 < Entity.health e <= gameConfig.maxHealth.

Definition bullet_ok (b : Bullet.t) : Prop := 0 <= Bullet.damage b.

(** A key [`bot_${n}`] handed out by a counter that has reached [counter]. *)
Definition bot_key (counter : nat) (k : string) : Prop :=
  exists n, (n < counter)%nat /\ k = ("bot_" ++ decimal n)%string.

Record Inv (w : World) : Prop := {
  inv_playerIds : NoDup (Map.keys (players w));
  inv_players : Forall player_ok (Map.values (players w));
  inv_bots : Forall bot_ok (Map.values (bots w));
  inv_bullets : Forall bullet_ok (Map.values (bullets w));
  inv_botIds : Forall (bot_key (botIdCounter w)) (Map.keys (bots w))
}.

(** A field assignment that keeps the vitals of players and of bots. *)
Definition harmless (f : Entity.t -> Entity.t) : Prop :=
  (forall e, player_ok e -> player_ok (f e)) /\ (forall e, bot_ok e -> bot_ok (f e)).

(** What stays true of a bot while it is dead. *)
Definition bot_kind (e : Entity.t) : Prop :=
  Entity.isBot e = true /\ Entity.maxHealth e = gameConfig.maxHealth.

(** Every bot is fine, except that the first one stored under [key] is only
    known to be a bot. *)
Fixpoint ok_except (key : string) (m : Map.t Entity.t) : Prop :=
  match m with
  | [] => True
  | (k, v) :: m' =>
      if String.eqb k key
      then bot_kind v /\ Forall bot_ok (Map.values m')
      else bot_ok v /\ ok_except key m'
  end.

(** The world while a bot that was just shot dead waits, within the same
    callback, to be revived. *)
Record Inv_dying (key : string) (w : World) : Prop := {
  dying_playerIds : NoDup (Map.keys (players w));
  dying_players : Forall player_ok (Map.values (players w));
  dying_bots : ok_except key (bots w);
  dying_bullets : Forall bullet_ok (Map.values (bullets w));
  dying_botIds : Forall (bot_key (botIdCounter w)) (Map.keys (bots w))
}.

(** After the Population Manager has run: with at most [maxBots] humans
    the head count is within [minBots, maxBots]; with more humans than
    that no bot is left. *)
Definition populationBounded (w : World) : Prop :=
  let humanCount := Map.size (players w) in
  let botCount := Map.size (bots w) in
  (humanCount <= gameConfig.maxBots ->
   gameConfig.minBots <= humanCount + botCount <= gameConfig.maxBots) /\
  (gameConfig.maxBots < humanCount -> botCount = 0).

Definition census (w : World) : nat * nat :=
  (List.length (players w), List.length (bots w)).

Definition hasCensus (c : nat * nat) (w : World) : Prop := census w = c.

(** Every player that is dead in [w0] is still there and dead in [w], with
    the health it had. *)
Definition dormant (w0 w : World) : Prop :=
  forall id p,
    Map.get id (players w0) = Some p -> Entity.alive p = false ->
    exists p',
      Map.get id (players w) = Some p' /\
      Entity.alive p' = false /\ Entity.health p' = Entity.health p.

(** An assignment that leaves a dead entity dead, with its health. *)
Definition quiet (f : Entity.t -> Entity.t) : Prop :=
  forall e, Entity.alive e = false ->
            Entity.alive (f e) = false /\ Entity.health (f e) = Entity.health e.

(** The player stored under [k] in [w0], if any, is alive. *)
Definition livingAt (w0 : World) (k : string) : Prop :=
  forall p0, Map.get k (players w0) = Some p0 -> Entity.alive p0 = true.

(** A dead player [p] one input later: untouched, or alive again with full
    health. *)
Definition deadOrRespawned (p p' : Entity.t) : Prop :=
  (Entity.alive p' = false /\ Entity.health p' = Entity.health p) \/
  (Entity.alive p' = true /\ Entity.health p' = Entity.maxHealth p').

Definition afterwards (w' : World) (id : string) (p : Entity.t) : Prop :=
  match Map.get id (players w') with
  | Some p' => deadOrRespawned p p'
  | None => True
  end.

(** A timer that will respawn the player [id] is pending. *)
Definition pendingRespawn (id : string) (ts : list Timer) : Prop :=
  exists t, In t ts /\ (callback t = respawn_target id \/ callback t = respawn_if_connected id).

(** Players are stored under their [id], and every dead player has a
    respawn pending; the player [x], if given, is excepted: it has just been
    marked dead and its timer is not set yet. *)
Record Pend (x : option string) (w : World) : Prop := {
  pend_nodup : NoDup (Map.keys (players w));
  pend_ids : forall id p, Map.get id (players w) = Some p -> Entity.id p = id;
  pend_timers :
    forall id p, Map.get id (players w) = Some p -> Entity.alive p = false ->
                 x = Some id \/ pendingRespawn id (timers w)
}.

(** An assignment that changes no [id] and kills nobody. *)
Definition tame (f : Entity.t -> Entity.t) : Prop :=
  forall e, Entity.id (f e) = Entity.id e /\
            (Entity.alive (f e) = false -> Entity.alive e = false).

(** [m] takes a world with [P] to a world with [Q]. *)
Definition leads (P Q : World -> Prop) (A : Type) (m : M A) : Prop :=
  forall w, P w -> Q (snd (m w)).

Definition entities (w : World) : list Entity.t :=
  (Map.values (players w) ++ Map.values (bots w))%list.

(** Health within [0, maxHealth]; an entity with health 0 is dead; a bot is
    never left dead. *)
Definition vitals_ok (e : Entity.t) : Prop :=
  0 <= Entity.health e <= Entity.maxHealth e /\
  (Entity.health e = 0 -> Entity.alive e = false) /\
  (Entity.isBot e = true -> Entity.alive e = true).

(** The session a client intent comes from. *)
Definition sender (i : Input) : option string :=
  match i with
  | playerMove socket_id _ _ => Some socket_id
  | emitPing socket_id => Some socket_id
  | shoot socket_id _ => Some socket_id
  | setPlayerName socket_id _ => Some socket_id
  | chatMessage socket_id _ => Some socket_id
  | playerEliminated socket_id _ => Some socket_id
  | _ => None
  end.

(** The intents whose handler tests [player.alive]. *)
Definition needsLivingSender (i : Input) : bool :=
  match i with
  | playerMove _ _ _ | emitPing _ | shoot _ _ => true
  | _ => false
  end.

(** The log [sent] has grown from [l]. *)
Definition sentExtends (l : list (Audience * Event.t)) (w : World) : Prop :=
  exists rest, sent w = (l ++ rest)%list.

(** The projected coordinate [v] is within 50 units of an edge of a world
    that is [size] wide. *)
Definition nearEdge (size : Q) (v : number) : bool :=
  Math.ltb v 50%Q || Math.ltb (size - 50)%Q v.

(** What [Math.max(0, Math.min(size, v))] has to be for a received [v]:
    [v] itself when it lies within [0, size], the bound it is beyond
    otherwise, and NaN when [v] is NaN. *)
Definition clamped (size : Q) (v : Received.t) (stored : number) : Prop :=
  match v with
  | Received.finite q =>
      ((q < 0)%Q -> (stored == 0%Q)%num) /\
      ((0 <= q <= size)%Q -> (stored == q)%num) /\
      ((size < q)%Q -> (stored == size)%num)
  | Received.nan => stored = NaN
  | Received.infinity => (stored == size)%num
  | Received.negInfinity => (stored == 0%Q)%num
  end.

(** A stored coordinate, sent back to the server as it is. *)
Definition resent (v : number) : Received.t :=
  match v with
  | num q => Received.finite q
  | NaN => Received.nan
  end.

(** [humanCount + botCount] *)
Definition headCount (w : World) : Z := Map.size (players w) + Map.size (bots w).

(** [a] is listed before [b] by [sort((a, b) => b.score - a.score)]. *)
Definition byScore (a b : Entity.t) : Prop := Entity.score b <= Entity.score a.

(** The same order on leaderboard rows. *)
Definition outranks (r r' : LeaderboardRow) : Prop := row_score r' <= row_score r.

(** The margin of 50 units inside the walls. *)
Definition insideMargin (e : Entity.t) : Prop :=
  (50%Q <= Entity.x e <= (gameConfig.worldWidth - 50)%Q)%num /\
  (50%Q <= Entity.y e <= (gameConfig.worldHeight - 50)%Q)%num.

(** The position and the headings of [e] are numbers: none is NaN. *)
Definition numeric (e : Entity.t) : Prop :=
  Number.isNumber (Entity.x e) /\ Number.isNumber (Entity.y e) /\
  Number.isNumber (Entity.direction e) /\ Number.isNumber (Entity.targetDirection e).

(** The position and the headings of every bot are numbers. *)
Definition Numeric (w : World) : Prop := Forall numeric (Map.values (bots w)).

(** [m] keeps the property [I] of the world, and its result has [R]. *)
Definition yields (I : World -> Prop) (A : Type) (R : A -> Prop) (m : M A) : Prop :=
  forall w, I w -> I (snd (m w)) /\ R (fst (m w)).

(** The distance [updateBots] computes from [bot] to [other]. *)
Definition distanceFrom (env : Env) (bot other : Entity.t) : number :=
  let dx := (Entity.x other - Entity.x bot)%num in
  let dy := (Entity.y other - Entity.y bot)%num in
  sqrt env (dx * dx + dy * dy)%num.

(** The entities a bot looks at: the living players and the other living
    bots. *)
Definition visibleTo (bot : Entity.t) (w : World) (other : Entity.t) : Prop :=
  Entity.alive other = true /\
  (In other (Map.values (players w)) \/
   (In other (Map.values (bots w)) /\ Entity.id other <> Entity.id bot)).

(** [other] is at least [d] away from [bot], or its distance is NaN. *)
Definition atLeast (env : Env) (d : number) (bot other : Entity.t) : Prop :=
  distanceFrom env bot other = NaN \/ (d <= distanceFrom env bot other)%num.

(** What the perception loops of [updateBots] hold in
    [(nearestEnemy, nearestDistance)] once they have looked at the entities
    [seen]: the nearest of them within the detection range, if there is
    one. *)
Definition nearestAmong (env : Env) (bot : Entity.t) (seen : Entity.t -> Prop)
           (acc : option (Entity.t * number)) : Prop :=
  match acc with
  | Some (enemy, d) =>
      seen enemy /\ d = distanceFrom env bot enemy /\
      (d < gameConfig.botDetectionRange)%num /\
      (forall other, seen other -> atLeast env d bot other)
  | None =>
      forall other, seen other -> atLeast env gameConfig.botDetectionRange bot other
  end.

(** The entities a perception loop does not skip. *)
Definition eligible (among_bots : bool) (bot other : Entity.t) : Prop :=
  Entity.alive other = true /\ (among_bots = true -> Entity.id other <> Entity.id bot).

(** The clock has been read at least [c0] times. *)
Definition clockFrom (c0 : nat) (w : World) : Prop := (c0 <= clockCalls w)%nat.

(** The score of [e] is the one computed from the [n]-th reading of the
    clock: [Math.floor((now - joinTime) / 1000) + kills * 100]. *)
Definition scoredAt (env : Env) (n : nat) (e : Entity.t) : Prop :=
  Entity.score e = secondsSinceJoin (clock_stream env n) e + Entity.kills e * 100.

(** The entity behind [r], if it is alive, carries a score computed from a
    reading of the clock taken after the first [c0]. *)
Definition recomputedSince (env : Env) (c0 : nat) (r : Ref) (w : World) : Prop :=
  clockFrom c0 w /\
  forall e, fst (deref r w) = Some e -> Entity.alive e = true ->
            exists n, (c0 <= n < clockCalls w)%nat /\ scoredAt env n e.

(** A key [`bullet_${n}`] handed out by a counter that has reached
    [counter]. *)
Definition bullet_key (counter : nat) (k : string) : Prop :=
  exists n, (n < counter)%nat /\ k = ("bullet_" ++ decimal n)%string.

(** Bots and bullets are stored under their own [id], once each, and the
    bullet ids come from the counter. *)
Record Ids (w : World) : Prop := {
  ids_bots_nodup : NoDup (Map.keys (bots w));
  ids_bullets_nodup : NoDup (Map.keys (bullets w));
  ids_bots : forall k b, Map.get k (bots w) = Some b -> Entity.id b = k;
  ids_bullets : forall k b, Map.get k (bullets w) = Some b -> Bullet.id b = k;
  ids_bullets_fresh : Forall (bullet_key (bulletIdCounter w)) (Map.keys (bullets w))
}.

(** The distance [updateBullets] computes from [bullet] to [target]. *)
Definition distanceToBullet (env : Env) (bullet : Bullet.t) (target : Entity.t) : number :=
  let dx := (Entity.x target - Bullet.x bullet)%num in
  let dy := (Entity.y target - Bullet.y bullet)%num in
  sqrt env (dx * dx + dy * dy)%num.

(** [shooter.kills++; shooter.score += 100] *)
Definition credited (shooter : Entity.t) : Entity.t :=
  Entity.set_score (Entity.score shooter + 100)
    (Entity.set_kills (Entity.kills shooter + 1) shooter).

(** [bullet.x += bullet.vx; bullet.y += bullet.vy] *)
Definition advanced (b : Bullet.t) : Bullet.t :=
  Bullet.set_y (Bullet.y b + Bullet.vy b)%num (Bullet.set_x (Bullet.x b + Bullet.vx b)%num b).

(** The test "Remove old bullets" of [updateBullets]. *)
Definition expired (now : Z) (b : Bullet.t) : bool :=
  (gameConfig.bulletLifetime <? now - Bullet.createdAt b)
  || Math.ltb (Bullet.x b) 0%Q || Math.ltb gameConfig.worldWidth (Bullet.x b)
  || Math.ltb (Bullet.y b) 0%Q || Math.ltb gameConfig.worldHeight (Bullet.y b).

(** The coordinate [v] is not outside a world that is [size] wide: it lies
    within [0, size], or it is NaN. *)
Definition notOutside (size : Q) (v : number) : Prop :=
  v = NaN \/ (0%Q <= v <= size)%num.

(** A bullet that is not too old and is not outside the world. *)
Definition inFlight (now : Z) (b : Bullet.t) : Prop :=
  now - Bullet.createdAt b <= gameConfig.bulletLifetime /\
  notOutside gameConfig.worldWidth (Bullet.x b) /\
  notOutside gameConfig.worldHeight (Bullet.y b).

(** The bullets are [m], possibly without the one stored under [k]. *)
Definition bulletsAmong (m : Map.t Bullet.t) (k : string) (w : World) : Prop :=
  bullets w = m \/ bullets w = Map.delete k m.

(** The bullets of [w] while [updateBullets] has the keys [todo] still to
    visit: a bullet under one of these keys is as it was in [w0]; any other
    bullet has advanced, and is in flight. *)
Definition bulletsVisited (now : Z) (w0 : World) (todo : list string) (w : World) : Prop :=
  forall k b',
    Map.get k (bullets w) = Some b' ->
    (In k todo /\ Map.get k (bullets w0) = Some b') \/
    (~ In k todo /\ exists b, Map.get k (bullets w0) = Some b /\ b' = advanced b /\ inFlight now b').

(** The bot stored under [k] is [v]. *)
Definition botAt (k : string) (v : option Entity.t) (w : World) : Prop :=
  Map.get k (bots w) = v.

(** The bot stored under [k], if any, is inside the margin, unless its
    position or a heading is NaN. *)
Definition botInside (k : string) (w : World) : Prop :=
  forall b, Map.get k (bots w) = Some b -> numeric b -> insideMargin b.

(** The bots are stored under the keys [ks]. *)
Definition botKeys (ks : list string) (w : World) : Prop := Map.keys (bots w) = ks.

(** [player.alive = false; player.deaths++] *)
Definition eliminated (player : Entity.t) : Entity.t :=
  Entity.set_deaths (Entity.deaths player + 1) (Entity.set_alive false player).

(** [eliminator ? eliminator.name : 'Unknown'] *)
Definition eliminatorName (eliminatorId : string) (w : World) : string :=
  match fst (lookup eliminatorId w) with
  | Some eliminator =>
      match fst (deref eliminator w) with
      | Some e => Entity.name e
      | None => "Unknown"
      end
  | None => "Unknown"
  end.

(** The player stored under [id], if any, has [P]. *)
Definition playerHas (id : string) (P : Entity.t -> Prop) (w : World) : Prop :=
  forall p, Map.get id (players w) = Some p -> P p.

(** [P] survives whatever the server does to an entity when it is hit,
    dies, is credited a kill, is revived, reports its elimination, moves,
    shoots or is renamed. *)
Record stable (P : Entity.t -> Prop) : Prop := {
  stable_damage : forall bullet e, P e -> P (Entity.set_health (Entity.health e - Bullet.damage bullet) e);
  stable_dead :
    forall e, P e -> P (Entity.set_health 0 (Entity.set_deaths (Entity.deaths e + 1)
                                                (Entity.set_alive false e)));
  stable_credit : forall e, P e -> P (credited e);
  stable_revive :
    forall x y e, P e -> P (Entity.set_alive true (Entity.set_health gameConfig.maxHealth
                                                     (Entity.set_y y (Entity.set_x x e))));
  stable_eliminated : forall e, P e -> P (eliminated e);
  stable_move : forall x y e, P e -> P (Entity.set_y y (Entity.set_x x e));
  stable_lastShoot : forall t e, P e -> P (Entity.set_lastShoot t e);
  stable_name : forall n e, P e -> P (Entity.set_name n e)
}.

(** The times at which the server has emitted a ping of [id], oldest first. *)
Definition pingTimes (id : string) (w : World) : list Z :=
  flat_map (fun m => match snd m with
                     | Event.pingEmitted playerId _ _ timestamp _ _ =>
                         if String.eqb playerId id then [timestamp] else []
                     | _ => []
                     end) (sent w).

(** The cooldown notices the server has sent. *)
Definition cooldownNotices (w : World) : list (Audience * Event.t) :=
  filter (fun m => match snd m with Event.pingCooldown _ => true | _ => false end) (sent w).

(** The time the player [id] has last pinged is as stamped in [lastPing]
    until [i] arrives in [w], and [i] may change that: a ping, a new
    connection or the disconnection of [id], or a timer that respawns it. *)
Definition disturbs (id : string) (w : World) (i : Input) : Prop :=
  match i with
  | emitPing socket_id | connection socket_id | disconnect socket_id => socket_id = id
  | timeout n =>
      match nth_error (timers w) n with
      | Some timer => callback timer = respawn_target id \/ callback timer = respawn_if_connected id
      | None => False
      end
  | _ => False
  end.

(** None of the inputs [l], arriving one after the other from [w] on,
    disturbs the player [id]. *)
Fixpoint undisturbed (env : Env) (id : string) (w : World) (l : list Input) : Prop :=
  match l with
  | [] => True
  | i :: l' => ~ disturbs id w i /\ undisturbed env id (exec (handle env i) w) l'
  end.

(** The inputs that assign the score of the player [id] anew: a tick, a
    ping, a new connection or the disconnection of [id]. *)
Definition rescores (id : string) (i : Input) : Prop :=
  match i with
  | interval => True
  | emitPing socket_id | connection socket_id | disconnect socket_id => socket_id = id
  | _ => False
  end.

(** The part of the tick that comes before "Update scores for all alive
    players". *)
Definition beforeRecomputation (env : Env) : M unit :=
  (updateBots env ;; updateBullets env ;; manageBotPopulation env)%monad.

(** The rest of the tick: "Update scores for all alive players" and the
    broadcast of the game state. *)
Definition recomputation (env : Env) : M unit :=
  (w <- get_world ;;
   forEach (List.map inPlayers (Map.keys (players w))) (updateScore env) ;;
   w <- get_world ;;
   forEach (List.map inBots (Map.keys (bots w))) (updateScore env) ;;
   w <- get_world ;;
   let allPlayers := (Map.values (players w) ++ Map.values (bots w))%list in
   let activeBullets := Map.values (bullets w) in
   if (0 <? Z.of_nat (List.length allPlayers))%Z then
     t <- Date_now env ;;
     emit io_emit (Event.gameState allPlayers activeBullets (getLeaderboard w) t)
   else skip)%monad.

(** The position and the headings of an entity. *)
Definition course (e : Entity.t) : number * number * number * number :=
  (Entity.x e, Entity.y e, Entity.direction e, Entity.targetDirection e).

(** A bot is stored under [k], and it has [P]. *)
Definition botIs (k : string) (P : Entity.t -> Prop) (w : World) : Prop :=
  exists b, Map.get k (bots w) = Some b /\ P b.

(** The bot stored under [k], if any, has [P]. *)
Definition botHas (k : string) (P : Entity.t -> Prop) (w : World) : Prop :=
  forall b, Map.get k (bots w) = Some b -> P b.

(** [b] stands and heads as [bot] does, and has died as often. *)
Definition standsAs (bot b : Entity.t) : Prop :=
  Entity.x b = Entity.x bot /\ Entity.y b = Entity.y bot /\
  Entity.direction b = Entity.direction bot /\ Entity.deaths b = Entity.deaths bot.

(** The speeds a bot chooses between: [botSpeed], and [botSpeed * 1.5] in
    pursuit. *)
Definition chosenSpeed (b : Entity.t) : Prop :=
  Entity.speed b = gameConfig.botSpeed \/
  Entity.speed b = (gameConfig.botSpeed * 1.5)%Q.

(** [b] is on the course [c] of a bot that had died [deaths] times, or it
    has died since. *)
Definition keptOrKilled (c : number * number * number * number) (deaths : Z)
           (b : Entity.t) : Prop :=
  deaths <= Entity.deaths b /\ (course b = c \/ deaths < Entity.deaths b).

(** The bot [b] has moved as [moveBot] moves a bot [decided] that stood and
    headed as [bot] did, at a speed of its choice. *)
Definition movedFrom (env : Env) (bot b : Entity.t) : Prop :=
  exists decided,
    standsAs bot decided /\ chosenSpeed decided /\
    course b = course (moveBot env decided) /\ Entity.deaths b = Entity.deaths bot.

(** The bots are stored once each, the key [k] has been handed out by the
    bot counter, and the bot under [k], if any, has [P]. *)
Definition settled (k : string) (P : Entity.t -> Prop) (w : World) : Prop :=
  NoDup (Map.keys (bots w)) /\ bot_key (botIdCounter w) k /\ botHas k P w.

End Vocabulary.

(** * Properties *)

(** ** Numbers *)

Lemma ltb_lt (a b : Q) : Rat.ltb a b = true <-> (a < b)%Q.
Proof.
  unfold Rat.ltb. rewrite negb_true_iff. split; intro H.
  - apply Qnot_le_lt. intro L. apply Qle_bool_iff in L. congruence.
  - destruct (Qle_bool b a) eqn:E; trivial.
    apply Qle_bool_iff in E. exfalso. exact (Qlt_not_le _ _ H E).
Qed.

Lemma ltb_ge (a b : Q) : Rat.ltb a b = false <-> (b <= a)%Q.
Proof.
  unfold Rat.ltb. rewrite negb_false_iff. apply Qle_bool_iff.
Qed.

(** [a < b] on numbers. *)
Lemma Math_ltb_lt (a b : number) : Math.ltb a b = true <-> (a < b)%num.
Proof.
  destruct a as [p|], b as [q|]; simpl; try (split; [discriminate | tauto]).
  apply ltb_lt.
Qed.

(** When [a < b] is false, one of them is NaN or [b <= a]. *)
Lemma Math_ltb_ge (a b : number) :
  Math.ltb a b = false <-> a = NaN \/ b = NaN \/ (b <= a)%num.
Proof.
  destruct a as [p|], b as [q|]; simpl; try (split; [tauto | reflexivity]).
  rewrite ltb_ge. split; [tauto|]. intros [H|[H|H]]; [discriminate | discriminate | exact H].
Qed.

(** [max lo (min hi v)] lies between [lo] and [hi]. *)
Lemma clamp_bounds (lo hi v : Q) :
  (lo <= hi)%Q -> (lo <= Rat.max lo (Rat.min hi v) <= hi)%Q.
Proof.
  intro L. unfold Rat.max, Rat.min.
  destruct (Qle_bool hi v) eqn:E1.
  - destruct (Qle_bool lo hi) eqn:E2.
    + split; [exact L | apply Qle_refl].
    + split; [apply Qle_refl | exact L].
  - assert (v < hi)%Q as V.
    { apply Qnot_le_lt. intro A. apply Qle_bool_iff in A. congruence. }
    destruct (Qle_bool lo v) eqn:E2.
    + apply Qle_bool_iff in E2. split; [exact E2 | apply Qlt_le_weak; exact V].
    + split; [apply Qle_refl | exact L].
Qed.

(** Clamping a clamped value returns it unchanged. *)
Lemma clamp_idempotent (lo hi v : Q) :
  (lo < hi)%Q ->
  Rat.max lo (Rat.min hi (Rat.max lo (Rat.min hi v))) = Rat.max lo (Rat.min hi v).
Proof.
  intro L.
  assert (Qle_bool lo hi = true) as Llh by (apply Qle_bool_iff, Qlt_le_weak; exact L).
  assert (Qle_bool hi lo = false) as Lhl.
  { apply ltb_lt in L. unfold Rat.ltb in L. apply negb_true_iff in L. exact L. }
  assert (Qle_bool lo lo = true) as Lll by (apply Qle_bool_iff; apply Qle_refl).
  assert (Qle_bool hi hi = true) as Lhh by (apply Qle_bool_iff; apply Qle_refl).
  unfold Rat.max, Rat.min.
  destruct (Qle_bool hi v) eqn:E1.
  - rewrite Llh, Lhh, Llh. reflexivity.
  - destruct (Qle_bool lo v) eqn:E2.
    + rewrite E1, E2. reflexivity.
    + rewrite Lhl, Lll. reflexivity.
Qed.

Lemma Qle_bool_false (a b : Q) : Qle_bool a b = false <-> (b < a)%Q.
Proof.
  rewrite <- ltb_lt. unfold Rat.ltb. rewrite negb_true_iff. tauto.
Qed.

(** The clamp of a received value that is not NaN lies between the bounds. *)
Lemma Math_clamp_bounds (lo hi : Q) (v : Received.t) :
  (lo <= hi)%Q -> v <> Received.nan -> (lo <= Math.clamp lo hi v <= hi)%num.
Proof.
  intros L N. destruct v as [q| | |]; simpl.
  - apply clamp_bounds. exact L.
  - congruence.
  - unfold Rat.max. destruct (Qle_bool lo hi) eqn:E.
    + split; [exact L | apply Qle_refl].
    + apply Qle_bool_iff in L. congruence.
  - split; [apply Qle_refl | exact L].
Qed.

(** The clamp is the value itself inside the bounds, and the bound it is
    beyond otherwise. *)
Lemma Math_clamp_clamped (size : Q) (v : Received.t) :
  (0 < size)%Q -> clamped size v (Math.clamp 0 size v).
Proof.
  intro S.
  assert (Qle_bool 0 size = true) as S1 by (apply Qle_bool_iff, Qlt_le_weak, S).
  destruct v as [q| | |]; simpl; unfold Rat.max, Rat.min; try rewrite S1; simpl;
    try reflexivity.
  split; [| split].
  - intro L.
    assert (Qle_bool size q = false) as E1.
    { apply Qle_bool_false. apply Qlt_trans with 0%Q; trivial. }
    assert (Qle_bool 0 q = false) as E2 by (apply Qle_bool_false; exact L).
    rewrite E1, E2. reflexivity.
  - intros [L1 L2].
    assert (Qle_bool 0 q = true) as E2 by (apply Qle_bool_iff; exact L1).
    destruct (Qle_bool size q) eqn:E1.
    + rewrite S1. simpl. apply Qle_bool_iff in E1. apply Qle_antisym; trivial.
    + rewrite E2. reflexivity.
  - intro L.
    assert (Qle_bool size q = true) as E1 by (apply Qle_bool_iff, Qlt_le_weak, L).
    rewrite E1, S1. reflexivity.
Qed.

(** Clamping a stored coordinate returns it unchanged. *)
Lemma Math_clamp_idempotent (lo hi : Q) (v : Received.t) :
  (lo < hi)%Q ->
  Math.clamp lo hi (resent (Math.clamp lo hi v)) = Math.clamp lo hi v.
Proof.
  intro L.
  assert (Qle_bool lo hi = true) as Llh by (apply Qle_bool_iff, Qlt_le_weak; exact L).
  assert (Qle_bool hi lo = false) as Lhl by (apply Qle_bool_false; exact L).
  assert (Qle_bool lo lo = true) as Lll by (apply Qle_bool_iff; apply Qle_refl).
  assert (Qle_bool hi hi = true) as Lhh by (apply Qle_bool_iff; apply Qle_refl).
  destruct v as [q| | |]; simpl.
  - rewrite clamp_idempotent by exact L. reflexivity.
  - reflexivity.
  - unfold Rat.max, Rat.min. rewrite Llh, Lhh, Llh. reflexivity.
  - unfold Rat.max, Rat.min. rewrite Lhl, Lll. reflexivity.
Qed.

Lemma lt_isNumber (a b : number) : (a < b)%num -> Number.isNumber a /\ Number.isNumber b.
Proof.
  destruct a as [p|], b as [q|]; simpl; try tauto. intros _. split; eexists; reflexivity.
Qed.

Lemma lt_le_trans (a b c : number) : (a < b)%num -> (b <= c)%num -> (a <= c)%num.
Proof.
  destruct a as [p|], b as [q|], c as [r|]; simpl; try tauto.
  intros H1 H2. apply Qlt_le_weak. eapply Qlt_le_trans; eauto.
Qed.

Lemma le_refl (a : number) : Number.isNumber a -> (a <= a)%num.
Proof. intros [q ->]. simpl. apply Qle_refl. Qed.

(** Numbers stay numbers under arithmetic. *)
Lemma lift1_isNumber (f : Q -> Q) (a : number) :
  Number.isNumber (Number.lift1 f a) <-> Number.isNumber a.
Proof.
  destruct a as [p|]; simpl; split; intros [q E]; try discriminate; eexists; reflexivity.
Qed.

Lemma lift2_isNumber (f : Q -> Q -> Q) (a b : number) :
  Number.isNumber (Number.lift2 f a b) <-> Number.isNumber a /\ Number.isNumber b.
Proof.
  destruct a as [p|], b as [q|]; simpl; split;
    try (intros [r E]; discriminate);
    try (intros [[r E] [r' E']]; discriminate).
  - intros _. split; eexists; reflexivity.
  - intros _. eexists; reflexivity.
Qed.

(** A coordinate clamped into the margin lies within it, unless it is NaN. *)
Lemma nearEdge_clamped (lo hi : Q) (v : number) :
  (lo <= hi)%Q -> v <> NaN -> (lo <= Math.max lo (Math.min hi v) <= hi)%num.
Proof.
  intros L N. destruct v as [q|]; [|congruence]. simpl. apply clamp_bounds. exact L.
Qed.

(** Counters print to different strings. *)
Lemma decimal_inj (n m : nat) : decimal n = decimal m -> n = m.
Proof.
  unfold decimal. intro H.
  assert (Some (Nat.to_uint n) = Some (Nat.to_uint m)) as E.
  { rewrite <- (NilEmpty.usu (Nat.to_uint n)), <- (NilEmpty.usu (Nat.to_uint m)), H. reflexivity. }
  injection E as E.
  rewrite <- (Unsigned.of_to n), <- (Unsigned.of_to m), E. reflexivity.
Qed.

(** ** Maps *)

Module MapFacts.
Section Facts.
Variable V : Type.
Implicit Types (m : Map.t V) (k : string) (f : V -> V) (P : V -> Prop).

Lemma get_mutate_same k f m :
Map.get k (Map.mutate k f m) = option_map f (Map.get k m).
Proof.
induction m as [|[k' v] m IH]; simpl; trivial.
destruct (String.eqb k' k) eqn:E; simpl; rewrite E; trivial.
Qed.

Lemma get_mutate_other k k' f m :
k' <> k -> Map.get k (Map.mutate k' f m) = Map.get k m.
Proof.
intro N. induction m as [|[k0 v] m IH]; simpl; trivial.
destruct (String.eqb k0 k') eqn:E; simpl.
- apply String.eqb_eq in E. subst k0.
  apply String.eqb_neq in N. rewrite N. reflexivity.
- destruct (String.eqb k0 k) eqn:E'; trivial.
Qed.

Lemma keys_mutate k f m : Map.keys (Map.mutate k f m) = Map.keys m.
Proof.
unfold Map.keys. induction m as [|[k' v] m IH]; simpl; trivial.
destruct (String.eqb k' k); simpl; congruence.
Qed.

Lemma length_mutate k f m : List.length (Map.mutate k f m) = List.length m.
Proof.
induction m as [|[k' v] m IH]; simpl; trivial.
destruct (String.eqb k' k); simpl; congruence.
Qed.

Lemma mutate_mutate k f g m :
Map.mutate k g (Map.mutate k f m) = Map.mutate k (fun v => g (f v)) m.
Proof.
induction m as [|[k' v] m IH]; simpl; trivial.
destruct (String.eqb k' k) eqn:E; simpl; rewrite E; congruence.
Qed.

Lemma get_In k v m : Map.get k m = Some v -> In v (Map.values m).
Proof.
unfold Map.values. induction m as [|[k' v'] m IH]; simpl; [discriminate|].
destruct (String.eqb k' k); intro H.
- left. congruence.
- right. auto.
Qed.

Lemma get_Forall P k v m :
Forall P (Map.values m) -> Map.get k m = Some v -> P v.
Proof.
intros A G. rewrite Forall_forall in A. apply A. eapply get_In; eauto.
Qed.

Lemma get_keys k m : Map.get k m = None <-> ~ In k (Map.keys m).
Proof.
unfold Map.keys. induction m as [|[k' v'] m IH]; simpl.
- tauto.
- destruct (String.eqb k' k) eqn:E.
  + apply String.eqb_eq in E. split; [discriminate | tauto].
  + apply String.eqb_neq in E. tauto.
Qed.

(** A mutation that is justified at the object it reaches. *)
Lemma Forall_mutate_get P k f m :
Forall P (Map.values m) ->
(forall v, Map.get k m = Some v -> P (f v)) ->
Forall P (Map.values (Map.mutate k f m)).
Proof.
unfold Map.values. induction m as [|[k' v'] m IH]; simpl; intros A H; trivial.
inversion A; subst.
destruct (String.eqb k' k) eqn:E; simpl; constructor; auto.
Qed.

Lemma Forall_mutate P k f m :
(forall v, P v -> P (f v)) ->
Forall P (Map.values m) -> Forall P (Map.values (Map.mutate k f m)).
Proof.
intros H A. apply Forall_mutate_get; trivial.
intros v G. apply H. eapply get_Forall; eauto.
Qed.

Lemma Forall_delete P k m :
Forall P (Map.values m) -> Forall P (Map.values (Map.delete k m)).
Proof.
unfold Map.values. induction m as [|[k' v'] m IH]; simpl; intros A; trivial.
inversion A; subst.
destruct (String.eqb k' k); simpl; auto.
Qed.

Lemma Forall_set P k v m :
P v -> Forall P (Map.values m) -> Forall P (Map.values (Map.set k v m)).
Proof.
unfold Map.values. intro Pv. induction m as [|[k' v'] m IH]; simpl; intros A.
- constructor; trivial.
- inversion A; subst.
  destruct (String.eqb k' k); simpl; constructor; auto.
Qed.

Lemma Forall_keys_delete (K : string -> Prop) k m :
Forall K (Map.keys m) -> Forall K (Map.keys (Map.delete k m)).
Proof.
unfold Map.keys. induction m as [|[k' v'] m IH]; simpl; intros A; trivial.
inversion A; subst.
destruct (String.eqb k' k); simpl; auto.
Qed.

Lemma Forall_keys_set (K : string -> Prop) k v m :
K k -> Forall K (Map.keys m) -> Forall K (Map.keys (Map.set k v m)).
Proof.
unfold Map.keys. intro Kk. induction m as [|[k' v'] m IH]; simpl; intros A.
- constructor; trivial.
- inversion A; subst.
  destruct (String.eqb k' k); simpl; constructor; auto.
Qed.

Lemma length_set_fresh k v m :
~ In k (Map.keys m) -> List.length (Map.set k v m) = S (List.length m).
Proof.
unfold Map.keys. induction m as [|[k' v'] m IH]; simpl; intro N; trivial.
destruct (String.eqb k' k) eqn:E.
- apply String.eqb_eq in E. tauto.
- simpl. rewrite IH; tauto.
Qed.

Lemma delete_absent k m : Map.get k m = None -> Map.delete k m = m.
Proof.
induction m as [|[k' v'] m IH]; simpl; trivial.
destruct (String.eqb k' k); [discriminate|].
intro G. rewrite IH; trivial.
Qed.

(** Deleting the first [n] keys, oldest first, removes [n] entries. *)
Lemma length_delete_firstn n m :
(n <= List.length m)%nat ->
List.length (fold_left (fun m k => Map.delete k m) (firstn n (Map.keys m)) m)
= (List.length m - n)%nat.
Proof.
unfold Map.keys. revert n. induction m as [|[k' v'] m IH]; intros n L.
- simpl in *. destruct n; simpl; trivial.
- destruct n as [|n]; simpl; trivial.
  rewrite String.eqb_refl. apply IH. simpl in L. lia.
Qed.

Lemma In_keys_set k k' v m :
  In k' (Map.keys (Map.set k v m)) -> k' = k \/ In k' (Map.keys m).
Proof.
  unfold Map.keys. induction m as [|[k0 v0] m IH]; simpl.
  - intros [<- | []]. left. reflexivity.
  - destruct (String.eqb k0 k); simpl; intuition.
Qed.

Lemma In_keys_delete k k' m :
  In k' (Map.keys (Map.delete k m)) -> In k' (Map.keys m).
Proof.
  unfold Map.keys. induction m as [|[k0 v0] m IH]; simpl; trivial.
  destruct (String.eqb k0 k); simpl; tauto.
Qed.

Lemma NoDup_keys_set k v m :
  NoDup (Map.keys m) -> NoDup (Map.keys (Map.set k v m)).
Proof.
  induction m as [|[k0 v0] m IH]; simpl; intro N.
  - constructor; [simpl; tauto | constructor].
  - inversion N as [|? ? Hn Hm]; subst.
    destruct (String.eqb k0 k) eqn:E; simpl; constructor; auto.
    intro I. apply In_keys_set in I. destruct I as [-> | I]; [|tauto].
    rewrite String.eqb_refl in E. discriminate.
Qed.

Lemma NoDup_keys_delete k m :
  NoDup (Map.keys m) -> NoDup (Map.keys (Map.delete k m)).
Proof.
  induction m as [|[k0 v0] m IH]; simpl; intro N; trivial.
  inversion N as [|? ? Hn Hm]; subst.
  destruct (String.eqb k0 k); simpl; trivial.
  constructor; auto. intro I. apply In_keys_delete in I. tauto.
Qed.

Lemma get_set_same k v m : Map.get k (Map.set k v m) = Some v.
Proof.
  induction m as [|[k0 v0] m IH]; simpl.
  - rewrite String.eqb_refl. reflexivity.
  - destruct (String.eqb k0 k) eqn:E; simpl; rewrite E; trivial.
Qed.

Lemma get_set_other k k' v m :
  k' <> k -> Map.get k (Map.set k' v m) = Map.get k m.
Proof.
  intro N. assert (String.eqb k' k = false) as N' by (apply String.eqb_neq; exact N).
  induction m as [|[k0 v0] m IH]; simpl.
  - rewrite N'. reflexivity.
  - destruct (String.eqb k0 k') eqn:E; simpl.
    + apply String.eqb_eq in E. subst k0. rewrite N'. reflexivity.
    + destruct (String.eqb k0 k); trivial.
Qed.

Lemma get_delete_other k k' m :
  k' <> k -> Map.get k (Map.delete k' m) = Map.get k m.
Proof.
  intro N. assert (String.eqb k' k = false) as N' by (apply String.eqb_neq; exact N).
  induction m as [|[k0 v0] m IH]; simpl; trivial.
  destruct (String.eqb k0 k') eqn:E; simpl.
  - apply String.eqb_eq in E. subst k0. rewrite N'. reflexivity.
  - destruct (String.eqb k0 k); trivial.
Qed.

(** A new key goes to the end. *)
Lemma set_fresh k v m : Map.get k m = None -> Map.set k v m = (m ++ [(k, v)])%list.
Proof.
  induction m as [|[k0 v0] m IH]; simpl; trivial.
  destruct (String.eqb k0 k); [discriminate|].
  intro G. rewrite IH; trivial.
Qed.

Lemma mutate_absent k f m : Map.get k m = None -> Map.mutate k f m = m.
Proof.
  induction m as [|[k0 v0] m IH]; simpl; trivial.
  destruct (String.eqb k0 k); [discriminate|].
  intro G. rewrite IH; trivial.
Qed.

Lemma delete_mutate k f m : Map.delete k (Map.mutate k f m) = Map.delete k m.
Proof.
  induction m as [|[k0 v0] m IH]; simpl; trivial.
  destruct (String.eqb k0 k) eqn:E; simpl; rewrite E; congruence.
Qed.

(** With distinct keys, a deleted key is gone. *)
Lemma get_delete_same k m :
  NoDup (Map.keys m) -> Map.get k (Map.delete k m) = None.
Proof.
  induction m as [|[k0 v0] m IH]; simpl; intro N; trivial.
  inversion N as [|? ? Hn Hm]; subst.
  destruct (String.eqb k0 k) eqn:E; simpl.
  - apply String.eqb_eq in E. subst k0. apply get_keys. exact Hn.
  - rewrite E. auto.
Qed.
End Facts.
End MapFacts.

(** ** Invariants of monadic code *)

Lemma preserves_ret (I : World -> Prop) (A : Type) (a : A) : preserves I (ret a).
Proof. intros w H. exact H. Qed.

Lemma preserves_bind (I : World -> Prop) (A B : Type) (m : M A) (k : A -> M B) :
  preserves I m -> (forall a, preserves I (k a)) -> preserves I (bind m k).
Proof.
  intros Hm Hk w H. unfold bind. cbv zeta. apply Hk, Hm, H.
Qed.

Lemma preserves_forEach (I : World -> Prop) (A : Type) (l : list A) (f : A -> M unit) :
  (forall a, preserves I (f a)) -> preserves I (forEach l f).
Proof.
  intro Hf. induction l as [|a l IH]; simpl.
  - apply preserves_ret.
  - apply preserves_bind; auto.
Qed.

Lemma preserves_times (I : World -> Prop) (n : nat) (body : M unit) :
  preserves I body -> preserves I (times n body).
Proof.
  intro Hb. induction n as [|n IH]; simpl.
  - apply preserves_ret.
  - apply preserves_bind; auto.
Qed.

Lemma preserves_get_world (I : World -> Prop) : preserves I get_world.
Proof. intros w H. exact H. Qed.

Lemma preserves_core (I : World -> Prop) (A : Type) (m : M A) :
  coreOnly I -> (forall w, core w = core (snd (m w))) -> preserves I m.
Proof. intros HI Hm w H. exact (HI _ _ (Hm w) H). Qed.

Lemma core_emit to e w : core w = core (snd (emit to e w)).
Proof. reflexivity. Qed.

Lemma core_set_timeout c ms w : core w = core (snd (set_timeout c ms w)).
Proof. reflexivity. Qed.

(** Symbolic execution of monadic code whose steps keep an invariant: the
    structure is taken apart here, the leaves are closed with the hint
    database [pres]. *)
Create HintDb pres.

Ltac pres_step :=
  lazymatch goal with
  | |- preserves _ (bind _ _) => apply preserves_bind; [| intro]
  | |- preserves _ (ret _) => apply preserves_ret
  | |- preserves _ skip => apply preserves_ret
  | |- preserves _ get_world => apply preserves_get_world
  | |- preserves _ (forEach _ _) => apply preserves_forEach; intro
  | |- preserves _ (times _ _) => apply preserves_times
  | |- preserves _ (match ?x with _ => _ end) => destruct x
  | |- preserves _ (let _ := _ in _) => cbv zeta
  end.

Ltac pres := repeat pres_step; auto with pres.

(** ** The vitals invariant *)

Local Open Scope Z_scope.

Lemma Inv_coreOnly : coreOnly Inv.
Proof.
  intros w w' E [H0 H1 H2 H3 H4]. unfold core in E. injection E as E1 E2 E3 E4.
  constructor; congruence.
Qed.

Lemma Inv_initialWorld : Inv initialWorld.
Proof. constructor; simpl; constructor. Qed.

Section ServerFacts.
Variable env : Env.

Lemma core_Math_random w : core w = core (snd (Math_random env w)).
Proof. reflexivity. Qed.

Lemma core_Date_now w : core w = core (snd (Date_now env w)).
Proof. reflexivity. Qed.

Lemma core_deref r w : core w = core (snd (deref r w)).
Proof. reflexivity. Qed.

Lemma core_lookup id w : core w = core (snd (lookup id w)).
Proof. reflexivity. Qed.

(** *** Steps that keep [Inv] *)

Lemma Inv_Math_random : preserves Inv (Math_random env).
Proof. apply preserves_core; [exact Inv_coreOnly | exact core_Math_random]. Qed.

Lemma Inv_Date_now : preserves Inv (Date_now env).
Proof. apply preserves_core; [exact Inv_coreOnly | exact core_Date_now]. Qed.

Lemma Inv_deref r : preserves Inv (deref r).
Proof. apply preserves_core; [exact Inv_coreOnly | exact (core_deref r)]. Qed.

Lemma Inv_lookup id : preserves Inv (lookup id).
Proof. apply preserves_core; [exact Inv_coreOnly | exact (core_lookup id)]. Qed.

Lemma Inv_emit to e : preserves Inv (emit to e).
Proof. apply preserves_core; [exact Inv_coreOnly | exact (core_emit to e)]. Qed.

Lemma Inv_set_timeout c ms : preserves Inv (set_timeout c ms).
Proof. apply preserves_core; [exact Inv_coreOnly | exact (core_set_timeout c ms)]. Qed.

Lemma Inv_mutate_player k f :
  (forall e, player_ok e -> player_ok (f e)) -> preserves Inv (mutate (inPlayers k) f).
Proof.
  intros Hf w [H0 H1 H2 H3 H4]. constructor; simpl; trivial.
  - rewrite MapFacts.keys_mutate. trivial.
  - apply MapFacts.Forall_mutate; trivial.
Qed.

Lemma Inv_mutate_bot k f :
  (forall e, bot_ok e -> bot_ok (f e)) -> preserves Inv (mutate (inBots k) f).
Proof.
  intros Hf w [H0 H1 H2 H3 H4]. constructor; simpl; trivial.
  - apply MapFacts.Forall_mutate; trivial.
  - rewrite MapFacts.keys_mutate. trivial.
Qed.

Lemma Inv_mutate r f : harmless f -> preserves Inv (mutate r f).
Proof.
  intros [Hp Hb]. destruct r; [apply Inv_mutate_player | apply Inv_mutate_bot]; trivial.
Qed.

Lemma Inv_assign r f obj : harmless f -> preserves Inv (assign r f obj).
Proof.
  intro H. unfold assign. apply preserves_bind; [apply Inv_mutate; exact H|].
  intro. apply preserves_ret.
Qed.

Lemma Inv_bullets_delete k :
  preserves Inv (modify_world (with_bullets (Map.delete k))).
Proof.
  intros w [H0 H1 H2 H3 H4]. constructor; simpl; trivial.
  apply MapFacts.Forall_delete; trivial.
Qed.

Lemma Inv_bullets_mutate k f :
  (forall b, bullet_ok b -> bullet_ok (f b)) ->
  preserves Inv (modify_world (with_bullets (Map.mutate k f))).
Proof.
  intros Hf w [H0 H1 H2 H3 H4]. constructor; simpl; trivial.
  apply MapFacts.Forall_mutate; trivial.
Qed.

Lemma Inv_players_delete k :
  preserves Inv (modify_world (with_players (Map.delete k))).
Proof.
  intros w [H0 H1 H2 H3 H4]. constructor; simpl; trivial.
  - apply MapFacts.NoDup_keys_delete; trivial.
  - apply MapFacts.Forall_delete; trivial.
Qed.

Lemma Inv_players_set k v :
  player_ok v -> preserves Inv (modify_world (with_players (Map.set k v))).
Proof.
  intros Hv w [H0 H1 H2 H3 H4]. constructor; simpl; trivial.
  - apply MapFacts.NoDup_keys_set; trivial.
  - apply MapFacts.Forall_set; trivial.
Qed.

Lemma Inv_bots_delete k :
  preserves Inv (modify_world (with_bots (Map.delete k))).
Proof.
  intros w [H0 H1 H2 H3 H4]. constructor; simpl; trivial.
  - apply MapFacts.Forall_delete; trivial.
  - apply MapFacts.Forall_keys_delete; trivial.
Qed.

Lemma bot_key_mono (c c' : nat) k : (c <= c')%nat -> bot_key c k -> bot_key c' k.
Proof. intros L (n & Hn & E). exists n. split; [lia | exact E]. Qed.

Lemma Inv_createBot : preserves Inv (createBot env).
Proof.
  intros w [H0 H1 H2 H3 H4]. constructor; simpl; trivial.
  - apply MapFacts.Forall_set; trivial.
    unfold bot_ok, gameConfig.maxHealth. simpl. repeat split; lia.
  - apply MapFacts.Forall_keys_set.
    + exists (botIdCounter w). split; [lia | reflexivity].
    + eapply Forall_impl; [| exact H4]. intro k. apply bot_key_mono. lia.
Qed.

Lemma Inv_createBullet owner angle now : preserves Inv (createBullet env owner angle now).
Proof.
  intros w [H0 H1 H2 H3 H4]. constructor; simpl; trivial.
  apply MapFacts.Forall_set; trivial.
  unfold bullet_ok, gameConfig.bulletDamage. simpl. lia.
Qed.

Ltac harmless_tac :=
  split; intros ? H;
  first [ exact H
        | unfold player_ok, bot_ok, gameConfig.maxHealth in *; simpl in *;
          intuition (try lia; try congruence) ].

Hint Resolve Inv_Math_random Inv_Date_now Inv_deref Inv_lookup Inv_emit Inv_set_timeout
  Inv_bullets_delete Inv_players_delete Inv_bots_delete Inv_createBot Inv_createBullet : pres.
Hint Extern 1 (preserves Inv (mutate _ _)) => (apply Inv_mutate; harmless_tac) : pres.
Hint Extern 1 (preserves Inv (assign _ _ _)) => (apply Inv_assign; harmless_tac) : pres.

Lemma moveBot_vitals bot :
  Entity.isBot (moveBot env bot) = Entity.isBot bot /\
  Entity.maxHealth (moveBot env bot) = Entity.maxHealth bot /\
  Entity.alive (moveBot env bot) = Entity.alive bot /\
  Entity.health (moveBot env bot) = Entity.health bot.
Proof.
  unfold moveBot. destruct (projected env bot) as [newX newY].
  destruct (bounceOffWalls _ _ _ _) as [[[d t] nx] ny]. simpl. auto.
Qed.

Lemma moveBot_harmless : harmless (moveBot env).
Proof.
  split; intros e H; destruct (moveBot_vitals e) as (E1 & E2 & E3 & E4);
    unfold player_ok, bot_ok in *; rewrite E1, E2, E3, E4; exact H.
Qed.

Lemma Inv_removeBot botId : preserves Inv (removeBot botId).
Proof. unfold removeBot. pres. Qed.

Lemma Inv_manageBotPopulation : preserves Inv (manageBotPopulation env).
Proof. unfold manageBotPopulation. pres. apply Inv_removeBot. Qed.

Lemma Inv_respawnPlayer playerId : preserves Inv (respawnPlayer env playerId).
Proof. unfold respawnPlayer. pres. Qed.

Lemma Inv_wander self bot : preserves Inv (wander env self bot).
Proof. unfold wander. pres. Qed.

Lemma Inv_pursue now self enemy nearestDistance bot :
  preserves Inv (pursue env now self enemy nearestDistance bot).
Proof. unfold pursue. pres. Qed.

Lemma Inv_updateBot now botId : preserves Inv (updateBot env now botId).
Proof.
  unfold updateBot. pres;
    try apply Inv_pursue; try apply Inv_wander;
    try (apply Inv_assign; exact moveBot_harmless).
Qed.

Lemma Inv_updateBots : preserves Inv (updateBots env).
Proof. unfold updateBots. pres. apply Inv_updateBot. Qed.

(** *** A bullet hit *)

Lemma ok_except_break key f m :
  (forall v, bot_ok v -> bot_kind (f v)) ->
  Forall bot_ok (Map.values m) -> ok_except key (Map.mutate key f m).
Proof.
  intros Hf. unfold Map.values. induction m as [|[k v] m IH]; simpl; intro A; trivial.
  inversion A as [|? ? Hv Hm]; subst.
  destruct (String.eqb k key) eqn:E; simpl; rewrite E; split; auto.
Qed.

Lemma ok_except_restore key f m :
  (forall v, bot_kind v -> bot_ok (f v)) ->
  ok_except key m -> Forall bot_ok (Map.values (Map.mutate key f m)).
Proof.
  intros Hf. unfold Map.values. induction m as [|[k v] m IH]; simpl; intro A; trivial.
  destruct (String.eqb k key) eqn:E; simpl; destruct A as [Hv Hm]; constructor; auto.
Qed.

Lemma ok_except_mutate key k' g m :
  (forall v, bot_kind v -> bot_kind (g v)) ->
  (forall v, bot_ok v -> bot_ok (g v)) ->
  ok_except key m -> ok_except key (Map.mutate k' g m).
Proof.
  intros Hi Hg. induction m as [|[k v] m IH]; simpl; intro A; trivial.
  destruct (String.eqb k key) eqn:E; destruct A as [Hv Hm];
    destruct (String.eqb k k') eqn:E'; simpl; rewrite E; split; auto.
  apply MapFacts.Forall_mutate; trivial.
Qed.

Lemma ok_except_get key v m :
  ok_except key m -> Map.get key m = Some v -> bot_kind v.
Proof.
  induction m as [|[k v'] m IH]; simpl; [discriminate|].
  destruct (String.eqb k key); intros [Hv Hm] G.
  - injection G as <-. exact Hv.
  - auto.
Qed.

Lemma Inv_dying_coreOnly key : coreOnly (Inv_dying key).
Proof.
  intros w w' E [H0 H1 H2 H3 H4]. unfold core in E. injection E as E1 E2 E3 E4.
  constructor; congruence.
Qed.

Lemma Inv_dying_giveKillCredit key id : preserves (Inv_dying key) (giveKillCredit id).
Proof.
  unfold giveKillCredit. pres.
  - apply preserves_core; [apply Inv_dying_coreOnly | exact (core_lookup id)].
  - intros w [H0 H1 H2 H3 H4]. destruct r; constructor; simpl; trivial.
    + rewrite MapFacts.keys_mutate. trivial.
    + apply MapFacts.Forall_mutate; trivial.
    + apply ok_except_mutate; trivial.
    + rewrite MapFacts.keys_mutate. trivial.
Qed.

Lemma Inv_giveKillCredit id : preserves Inv (giveKillCredit id).
Proof. unfold giveKillCredit. pres. Qed.

Hint Resolve Inv_giveKillCredit : pres.

Lemma applyDamage_survivor bullet target :
  bullet_ok bullet -> Entity.alive target = true ->
  (Entity.health (applyDamage bullet target) <=? 0) = false ->
  (player_ok target -> player_ok (applyDamage bullet target)) /\
  (bot_ok target -> bot_ok (applyDamage bullet target)).
Proof.
  unfold bullet_ok, player_ok, bot_ok, applyDamage. simpl.
  intros Hb Ha Hd. apply Z.leb_gt in Hd. split; intros H; intuition lia.
Qed.

Lemma reviveBot_harmless rx ry : harmless (reviveBot rx ry).
Proof.
  split; intros e H; unfold reviveBot, player_ok, bot_ok, gameConfig.maxHealth in *; simpl;
    intuition (try lia; try congruence).
Qed.

Hint Extern 1 (preserves Inv (mutate _ (reviveBot _ _))) =>
  (apply Inv_mutate; apply reviveBot_harmless) : pres.

Lemma markDead_after_damage bullet e : player_ok e -> player_ok (markDead (applyDamage bullet e)).
Proof.
  intros (H1 & H2 & _). unfold player_ok, gameConfig.maxHealth in *. simpl. intuition lia.
Qed.

Lemma Inv_checkCollision bulletId bullet self :
  bullet_ok bullet -> preserves Inv (checkCollision env bulletId bullet self).
Proof.
  intros Hb w HI. unfold checkCollision.
  unfold bind at 1. cbv zeta.
  destruct self as [key|key]; cbn [deref fst snd].
  - (* the target is a player *)
    destruct (Map.get key (players w)) as [target|] eqn:G; [|exact HI].
    destruct (_ || _) eqn:C; [exact HI|].
    apply orb_false_iff in C. destruct C as [_ Ha]. apply negb_false_iff in Ha.
    destruct (Math.ltb _ _); [|exact HI].
    assert (player_ok target) as Ht by (eapply MapFacts.get_Forall; [apply HI | exact G]).
    cbv [bind assign mutate modify_world emit ret]. cbn [fst snd].
    destruct HI as [H0 H1 H2 H3 H4].
    destruct (Entity.health (applyDamage bullet target) <=? 0) eqn:D.
    + unfold targetDied. unfold bind at 1. cbv beta zeta.
      match goal with
      | |- Inv (snd (?m ?w')) =>
          let H := fresh in assert (preserves Inv m) as H; [ pres | apply H ]
      end.
      constructor; simpl; trivial.
      * rewrite !MapFacts.keys_mutate. trivial.
      * rewrite MapFacts.mutate_mutate. apply MapFacts.Forall_mutate; trivial.
        intros e He. apply markDead_after_damage. exact He.
      * apply MapFacts.Forall_delete; trivial.
    + constructor; simpl; trivial.
      * rewrite MapFacts.keys_mutate. trivial.
      * apply MapFacts.Forall_mutate_get; trivial.
        intros v Gv. rewrite G in Gv. injection Gv as <-.
        apply applyDamage_survivor; trivial.
      * apply MapFacts.Forall_delete; trivial.
  - (* the target is a bot *)
    destruct (Map.get key (bots w)) as [target|] eqn:G; [|exact HI].
    destruct (_ || _) eqn:C; [exact HI|].
    apply orb_false_iff in C. destruct C as [_ Ha]. apply negb_false_iff in Ha.
    destruct (Math.ltb _ _); [|exact HI].
    assert (bot_ok target) as Ht by (eapply MapFacts.get_Forall; [apply HI | exact G]).
    cbv [bind assign mutate modify_world emit ret]. cbn [fst snd].
    destruct HI as [H0 H1 H2 H3 H4].
    destruct (Entity.health (applyDamage bullet target) <=? 0) eqn:D.
    + unfold targetDied. unfold bind at 1. cbv beta zeta.
      match goal with
      | |- Inv (snd (_ (snd (mutate _ _ ?w1)))) =>
          assert (Inv_dying key (snd (mutate (inBots key) markDead w1))) as Hd
      end.
      { constructor; simpl; trivial.
        - rewrite MapFacts.mutate_mutate. apply ok_except_break; trivial.
          intros v (Hv1 & Hv2 & _). split; assumption.
        - apply MapFacts.Forall_delete; trivial.
        - rewrite !MapFacts.keys_mutate. trivial. }
      match type of Hd with Inv_dying _ ?w2 => generalize dependent w2 end.
      intros w2 Hd. unfold bind at 1. cbv beta zeta.
      apply (Inv_dying_giveKillCredit (Bullet.ownerId bullet)) in Hd.
      match type of Hd with Inv_dying _ ?w3 => generalize dependent w3 end.
      intros w3 Hd.
      unfold bind at 1. cbv beta zeta. cbn [deref fst snd].
      assert (Entity.isBot (match Map.get key (bots w3) with
                            | Some t => t
                            | None => applyDamage bullet target
                            end) = true) as Hbot.
      { destruct (Map.get key (bots w3)) eqn:G3.
        - eapply ok_except_get; [apply Hd | exact G3].
        - apply Ht. }
      rewrite Hbot. cbn [negb].
      cbv [bind emit Math_random mutate modify_world]. cbn [fst snd].
      destruct Hd as [D0 D1 D2 D3 D4]. constructor; simpl; trivial.
      * apply ok_except_restore; trivial.
        intros v [Hv1 Hv2]. unfold reviveBot, bot_ok, gameConfig.maxHealth in *. simpl.
        repeat split; trivial; lia.
      * rewrite MapFacts.keys_mutate. trivial.
    + constructor; simpl; trivial.
      * apply MapFacts.Forall_mutate_get; trivial.
        intros v Gv. rewrite G in Gv. injection Gv as <-.
        apply applyDamage_survivor; trivial.
      * apply MapFacts.Forall_delete; trivial.
      * rewrite MapFacts.keys_mutate. trivial.
Qed.

Lemma Inv_updateBullet now bulletId : preserves Inv (updateBullet env now bulletId).
Proof.
  intros w HI. unfold updateBullet. unfold bind at 1. cbv beta zeta. cbn [get_world fst snd].
  destruct (Map.get bulletId (bullets w)) as [bullet|] eqn:G; [|exact HI].
  assert (bullet_ok bullet) as Hb by (eapply MapFacts.get_Forall; [apply HI | exact G]).
  match goal with
  | |- Inv (snd (?m w)) => assert (preserves Inv m) as Hm; [ | apply Hm; exact HI ]
  end.
  pres.
  - apply Inv_bullets_mutate. intros b Hb'. exact Hb'.
  - apply Inv_checkCollision. exact Hb.
Qed.

Lemma Inv_updateBullets : preserves Inv (updateBullets env).
Proof. unfold updateBullets. pres. apply Inv_updateBullet. Qed.

Lemma Inv_updateScore self : preserves Inv (updateScore env self).
Proof. unfold updateScore. pres. Qed.

Lemma Inv_tick : preserves Inv (tick env).
Proof.
  unfold tick. pres;
    auto using Inv_updateBots, Inv_updateBullets, Inv_manageBotPopulation, Inv_updateScore.
Qed.

Lemma Inv_on_connection socket_id : preserves Inv (on_connection env socket_id).
Proof.
  unfold on_connection. pres. apply Inv_players_set.
  unfold player_ok, gameConfig.maxHealth. simpl. repeat split; try lia.
Qed.

Lemma Inv_on_playerMove socket_id x y : preserves Inv (on_playerMove socket_id x y).
Proof. unfold on_playerMove. pres. Qed.

Lemma Inv_on_emitPing socket_id : preserves Inv (on_emitPing env socket_id).
Proof. unfold on_emitPing. pres. Qed.

Lemma Inv_on_shoot socket_id angle : preserves Inv (on_shoot env socket_id angle).
Proof. unfold on_shoot. pres. Qed.

Lemma Inv_on_playerEliminated socket_id eliminatorId :
  preserves Inv (on_playerEliminated socket_id eliminatorId).
Proof.
  unfold on_playerEliminated. pres.
  apply Inv_mutate_player. unfold player_ok. simpl. intuition.
Qed.

Lemma Inv_on_disconnect socket_id : preserves Inv (on_disconnect env socket_id).
Proof. unfold on_disconnect. pres. apply Inv_manageBotPopulation. Qed.

Lemma Inv_on_setPlayerName socket_id name : preserves Inv (on_setPlayerName socket_id name).
Proof. unfold on_setPlayerName. pres. Qed.

Lemma Inv_on_chatMessage socket_id message : preserves Inv (on_chatMessage env socket_id message).
Proof. unfold on_chatMessage. pres. Qed.

Lemma Inv_fireTimer n : preserves Inv (fireTimer env n).
Proof.
  unfold fireTimer, runCallback. pres; try apply Inv_respawnPlayer.
  apply preserves_core; [exact Inv_coreOnly | reflexivity].
Qed.

Lemma Inv_handle i : preserves Inv (handle env i).
Proof.
  destruct i; simpl;
    auto using Inv_manageBotPopulation, Inv_on_connection, Inv_on_playerMove, Inv_on_emitPing,
      Inv_on_shoot, Inv_on_playerEliminated, Inv_on_disconnect, Inv_on_setPlayerName,
      Inv_on_chatMessage, Inv_tick, Inv_fireTimer.
Qed.

(** Every world the server can reach satisfies the invariant. *)
Lemma Inv_run history w : Inv w -> Inv (run env history w).
Proof.
  unfold run. revert w. induction history as [|i history IH]; simpl; intros w H; trivial.
  apply IH. apply Inv_handle. exact H.
Qed.

(** *** The population of the world *)

Lemma exec_bind (A B : Type) (m : M A) (k : A -> M B) w :
  exec (bind m k) w = exec (k (fst (m w))) (exec m w).
Proof. reflexivity. Qed.

Lemma populationBounded_census w w' :
  census w = census w' -> populationBounded w -> populationBounded w'.
Proof.
  unfold census, populationBounded, Map.size. intro E. injection E as E1 E2.
  rewrite E1, E2. trivial.
Qed.

Lemma bot_key_fresh c k : bot_key c k -> k <> ("bot_" ++ decimal c)%string.
Proof.
  intros (n & Hn & ->) E. simpl in E. injection E as E. apply decimal_inj in E. lia.
Qed.

Lemma createBot_census w :
  Inv w ->
  census (exec (createBot env) w) = (fst (census w), S (snd (census w))).
Proof.
  intros [H0 H1 H2 H3 H4]. unfold census, exec. simpl. f_equal.
  apply MapFacts.length_set_fresh. intro I.
  rewrite Forall_forall in H4. exact (bot_key_fresh (H4 _ I) eq_refl).
Qed.

Lemma spawn_census n w :
  Inv w ->
  census (exec (times n (createBot env ;; skip)) w) = (fst (census w), (snd (census w) + n)%nat).
Proof.
  revert w. induction n as [|n IH]; intros w HI.
  - unfold census, exec. simpl. rewrite Nat.add_0_r. reflexivity.
  - simpl times. rewrite exec_bind.
    change (exec (createBot env;; skip) w) with (exec (createBot env) w).
    rewrite IH by (apply Inv_createBot; exact HI).
    rewrite createBot_census by exact HI. simpl. rewrite Nat.add_succ_r. reflexivity.
Qed.

Lemma removeBot_effect botId w :
  players (exec (removeBot botId) w) = players w /\
  bots (exec (removeBot botId) w) = Map.delete botId (bots w).
Proof.
  unfold removeBot, exec, bind, deref. simpl.
  destruct (Map.get botId (bots w)) eqn:G; simpl; split; trivial.
  symmetry. apply MapFacts.delete_absent. exact G.
Qed.

Lemma removeBots_effect ks w :
  players (exec (forEach ks removeBot) w) = players w /\
  bots (exec (forEach ks removeBot) w) = fold_left (fun m k => Map.delete k m) ks (bots w).
Proof.
  revert w. induction ks as [|k ks IH]; intro w; simpl.
  - split; reflexivity.
  - rewrite exec_bind. destruct (IH (exec (removeBot k) w)) as [E1 E2].
    destruct (removeBot_effect k w) as [F1 F2].
    rewrite E1, E2, F1, F2. split; reflexivity.
Qed.

Lemma manageBotPopulation_bounded w :
  Inv w -> populationBounded (exec (manageBotPopulation env) w).
Proof.
  intro HI. unfold manageBotPopulation.
  rewrite exec_bind. cbn [get_world fst]. change (exec get_world w) with w.
  rewrite exec_bind.
  set (total := Map.size (players w) + Map.size (bots w)).
  destruct (total <? gameConfig.minBots) eqn:Lo.
  - apply Z.ltb_lt in Lo.
    pose proof (spawn_census (Z.to_nat (gameConfig.minBots - total)) HI) as C1.
    set (w1 := exec (times _ _) w) in *.
    rewrite exec_bind. cbn [get_world fst]. change (exec get_world w1) with w1.
    assert ((gameConfig.maxBots <? total) = false) as Hi.
    { apply Z.ltb_ge. unfold gameConfig.maxBots, gameConfig.minBots in *. lia. }
    rewrite Hi, andb_false_r. change (exec skip w1) with w1.
    pose proof (f_equal fst C1) as E1. pose proof (f_equal snd C1) as E2.
    cbn [fst snd census] in E1, E2. clear C1.
    unfold populationBounded. cbv zeta. unfold Map.size at 1 2 3 4 5. rewrite E1, E2.
    unfold total, Map.size, gameConfig.maxBots, gameConfig.minBots in *.
    split; intros; lia.
  - apply Z.ltb_ge in Lo. change (exec skip w) with w.
    rewrite exec_bind. cbn [get_world fst]. change (exec get_world w) with w.
    destruct ((0 <? Map.size (bots w)) && (gameConfig.maxBots <? total)) eqn:Rm.
    + apply andb_true_iff in Rm. destruct Rm as [B T].
      apply Z.ltb_lt in B. apply Z.ltb_lt in T.
      match goal with
      | |- populationBounded (exec (forEach ?ks _) _) =>
          destruct (removeBots_effect ks w) as [E1 E2]
      end.
      unfold populationBounded. cbv zeta. rewrite E1, E2.
      unfold total, Map.size, gameConfig.maxBots, gameConfig.minBots in *.
      rewrite MapFacts.length_delete_firstn by lia.
      split; intros; lia.
    + change (exec skip w) with w.
      apply andb_false_iff in Rm.
      unfold populationBounded.
      unfold total, Map.size, gameConfig.maxBots, gameConfig.minBots in *.
      destruct Rm as [B | T]; [apply Z.ltb_ge in B | apply Z.ltb_ge in T]; split; intros; lia.
Qed.

(** Steps that change neither map nor the bot counter keep any invariant
    that speaks about the core only. *)
Ltac frame_tac :=
  apply preserves_core; [ solve [auto with pres] | intro; reflexivity ].

Lemma hasCensus_coreOnly c : coreOnly (hasCensus c).
Proof.
  intros w w' E H. unfold hasCensus, census, core in *. injection E as E1 E2 E3 E4.
  rewrite <- E1, <- E2. exact H.
Qed.

Lemma hasCensus_mutate c r f : preserves (hasCensus c) (mutate r f).
Proof.
  intros w H. unfold hasCensus, census in *.
  destruct r; simpl; rewrite MapFacts.length_mutate; exact H.
Qed.

Hint Resolve hasCensus_coreOnly hasCensus_mutate : pres.
Hint Extern 5 (preserves (hasCensus _) _) => frame_tac : pres.

Lemma hasCensus_updateScore c self : preserves (hasCensus c) (updateScore env self).
Proof. unfold updateScore. pres. Qed.

Lemma tick_bounded w : Inv w -> populationBounded (exec (tick env) w).
Proof.
  intro HI. unfold tick. do 3 rewrite exec_bind.
  set (w2 := exec (updateBullets env) (exec (updateBots env) w)).
  assert (Inv w2) as H2 by (apply Inv_updateBullets, Inv_updateBots, HI).
  set (w3 := exec (manageBotPopulation env) w2).
  assert (populationBounded w3) as H3 by (apply manageBotPopulation_bounded, H2).
  revert H3. apply populationBounded_census. symmetry.
  match goal with
  | |- census (exec ?m w3) = _ => assert (preserves (hasCensus (census w3)) m) as Hm
  end.
  { pres; apply hasCensus_updateScore. }
  apply Hm. reflexivity.
Qed.

Lemma on_disconnect_bounded socket_id w :
  Inv w -> Map.has socket_id (players w) = true ->
  populationBounded (exec (on_disconnect env socket_id) w).
Proof.
  intros HI. unfold Map.has, on_disconnect. rewrite exec_bind. cbn [deref fst].
  change (exec (deref (inPlayers socket_id)) w) with w.
  destruct (Map.get socket_id (players w)) as [player|]; [intros _ | discriminate].
  do 4 rewrite exec_bind.
  apply manageBotPopulation_bounded.
  apply Inv_players_delete, Inv_emit, Inv_assign, Inv_Date_now, HI.
  split; intros ? H; exact H.
Qed.

(** Where the head count can exceed [maxBots]: the connection handler does
    not run the Population Manager. *)
Lemma on_connection_census socket_id w :
  Map.has socket_id (players w) = false ->
  census (exec (on_connection env socket_id) w) = (S (fst (census w)), snd (census w)).
Proof.
  unfold Map.has. intro H. unfold census, exec. simpl. f_equal.
  apply MapFacts.length_set_fresh. apply MapFacts.get_keys.
  destruct (Map.get socket_id (players w)); [discriminate | reflexivity].
Qed.

(** *** Dead players are left alone *)

Lemma dormant_refl w : dormant w w.
Proof. intros id p G D. exists p. auto. Qed.

Lemma dormant_players w0 (A : Type) (m : M A) :
  (forall w, players (snd (m w)) = players w) -> preserves (dormant w0) m.
Proof.
  intros Hm w H id p G D. rewrite Hm. exact (H id p G D).
Qed.

Lemma dormant_mutate_quiet w0 r f : quiet f -> preserves (dormant w0) (mutate r f).
Proof.
  intros Hf w H. destruct r as [k|k]; [|exact H].
  intros id p G D. destruct (H id p G D) as (p' & G' & A' & Hh). simpl.
  destruct (String.eqb_spec k id) as [->|N].
  - exists (f p'). rewrite MapFacts.get_mutate_same, G'. simpl.
    destruct (Hf p' A') as [F1 F2]. repeat split; congruence.
  - exists p'. rewrite MapFacts.get_mutate_other; auto.
Qed.

Lemma dormant_mutate_living w0 k f :
  livingAt w0 k -> preserves (dormant w0) (mutate (inPlayers k) f).
Proof.
  intros L w H id p G D. destruct (H id p G D) as (p' & G' & A' & Hh). simpl.
  destruct (String.eqb_spec k id) as [->|N].
  - rewrite (L p G) in D. discriminate.
  - exists p'. rewrite MapFacts.get_mutate_other; auto.
Qed.

Lemma dormant_living w0 w k target :
  dormant w0 w -> Map.get k (players w) = Some target -> Entity.alive target = true ->
  livingAt w0 k.
Proof.
  intros H G A p0 G0. destruct (Entity.alive p0) eqn:D; trivial.
  destruct (H k p0 G0 D) as (p' & G' & A' & _). congruence.
Qed.

Lemma dormant_assign_quiet w0 r f obj : quiet f -> preserves (dormant w0) (assign r f obj).
Proof.
  intro H. unfold assign. apply preserves_bind; [apply dormant_mutate_quiet; exact H|].
  intro. apply preserves_ret.
Qed.

Lemma dormant_assign_living w0 k f obj :
  livingAt w0 k -> preserves (dormant w0) (assign (inPlayers k) f obj).
Proof.
  intro H. unfold assign. apply preserves_bind; [apply dormant_mutate_living; exact H|].
  intro. apply preserves_ret.
Qed.

Lemma moveBot_quiet : quiet (moveBot env).
Proof.
  intros e D. destruct (moveBot_vitals e) as (_ & _ & E3 & E4). rewrite E3, E4. auto.
Qed.

Ltac quiet_tac := intros ? ?; split; [first [assumption | reflexivity] | reflexivity].

Hint Extern 5 (preserves (dormant _) _) =>
  (apply dormant_players; intro; reflexivity) : pres.
Hint Extern 2 (preserves (dormant _) (mutate _ _)) =>
  (apply dormant_mutate_quiet; quiet_tac) : pres.
Hint Extern 2 (preserves (dormant _) (assign _ _ _)) =>
  (apply dormant_assign_quiet; quiet_tac) : pres.
Hint Resolve dormant_mutate_living dormant_assign_living : pres.

Lemma dormant_createBot w0 : preserves (dormant w0) (createBot env).
Proof. apply dormant_players. reflexivity. Qed.

Lemma dormant_createBullet w0 owner angle now :
  preserves (dormant w0) (createBullet env owner angle now).
Proof. apply dormant_players. reflexivity. Qed.

Hint Resolve dormant_createBot dormant_createBullet : pres.

Lemma dormant_giveKillCredit w0 id : preserves (dormant w0) (giveKillCredit id).
Proof. unfold giveKillCredit. pres. Qed.

Hint Resolve dormant_giveKillCredit : pres.

Lemma dormant_manageBotPopulation w0 : preserves (dormant w0) (manageBotPopulation env).
Proof. unfold manageBotPopulation, removeBot. pres. Qed.

Lemma dormant_updateBot w0 now botId : preserves (dormant w0) (updateBot env now botId).
Proof.
  unfold updateBot, pursue, wander. pres.
  all: try (apply dormant_assign_quiet; exact moveBot_quiet).
Qed.

Lemma dormant_checkCollision w0 bulletId bullet self :
  preserves (dormant w0) (checkCollision env bulletId bullet self).
Proof.
  intros w H. unfold checkCollision. unfold bind at 1. cbv zeta.
  destruct self as [key|key]; cbn [deref fst snd].
  - destruct (Map.get key (players w)) as [target|] eqn:G; [|exact H].
    destruct (_ || _) eqn:C; [exact H|].
    apply orb_false_iff in C. destruct C as [_ Ha]. apply negb_false_iff in Ha.
    assert (livingAt w0 key) as L by (eapply dormant_living; eauto).
    match goal with
    | |- dormant w0 (snd (?m w)) =>
        assert (preserves (dormant w0) m) as Hm; [ | apply Hm; exact H ]
    end.
    unfold targetDied. pres.
  - match goal with
    | |- dormant w0 (snd (?m w)) =>
        assert (preserves (dormant w0) m) as Hm; [ | apply Hm; exact H ]
    end.
    unfold targetDied. pres; apply dormant_players; intro; reflexivity.
Qed.

Lemma dormant_updateBullet w0 now bulletId : preserves (dormant w0) (updateBullet env now bulletId).
Proof. unfold updateBullet. pres. apply dormant_checkCollision. Qed.

Lemma dormant_tick w0 : preserves (dormant w0) (tick env).
Proof.
  unfold tick, updateBots, updateBullets, updateScore. pres;
    auto using dormant_updateBot, dormant_updateBullet, dormant_manageBotPopulation.
Qed.

Lemma dormant_afterwards w w' id p :
  dormant w w' -> Map.get id (players w) = Some p -> Entity.alive p = false ->
  afterwards w' id p.
Proof.
  intros H G D. destruct (H id p G D) as (p' & G' & A' & Hh).
  unfold afterwards. rewrite G'. left. auto.
Qed.

Lemma players_manageBotPopulation w :
  players (exec (manageBotPopulation env) w) = players w.
Proof.
  assert (preserves (fun w' => players w' = players w) (manageBotPopulation env)) as H.
  { unfold manageBotPopulation, removeBot. pres; intros ? H; exact H. }
  apply H. reflexivity.
Qed.

Lemma respawnPlayer_afterwards id' w id p :
  Inv w -> Map.get id (players w) = Some p -> Entity.alive p = false ->
  afterwards (exec (respawnPlayer env id') w) id p.
Proof.
  intros HI G D. unfold afterwards, respawnPlayer, exec, bind. cbn [deref fst snd].
  destruct (Map.get id' (players w)) as [q|] eqn:G'.
  - cbv [assign bind mutate modify_world emit Math_random ret]. cbn [fst snd]. simpl players.
    destruct (String.eqb_spec id' id) as [->|N].
    + rewrite MapFacts.get_mutate_same, G. simpl. right. split; [reflexivity|].
      destruct (MapFacts.get_Forall _ _ (inv_players HI) G) as (_ & Hm & _).
      simpl. congruence.
    + rewrite MapFacts.get_mutate_other, G by exact N. left. auto.
  - simpl. rewrite G. left. auto.
Qed.

(** While a player is dead nothing changes its health or revives it, except
    a respawn (or a new connection under its id), which gives it full
    health. *)
Lemma dead_until_respawn w i id p :
  Inv w -> Map.get id (players w) = Some p -> Entity.alive p = false ->
  afterwards (exec (handle env i) w) id p.
Proof.
  intros HI G D.
  assert (forall m : M unit, preserves (dormant w) m -> afterwards (exec m w) id p) as Hd.
  { intros m Hm. apply (dormant_afterwards (w := w)); trivial. apply Hm, dormant_refl. }
  destruct i; simpl handle.
  - apply Hd, dormant_manageBotPopulation.
  - (* connection *)
    unfold afterwards, on_connection, exec. simpl players.
    destruct (String.eqb_spec socket_id id) as [->|N].
    + rewrite MapFacts.get_set_same. right. split; reflexivity.
    + rewrite MapFacts.get_set_other, G by exact N. left. auto.
  - apply Hd. unfold on_playerMove. pres.
  - apply Hd. unfold on_emitPing. pres.
  - apply Hd. unfold on_shoot. pres.
  - apply Hd. unfold on_playerEliminated. pres.
  - (* disconnect *)
    unfold afterwards, on_disconnect. rewrite exec_bind. cbn [deref fst].
    change (exec (deref (inPlayers socket_id)) w) with w.
    destruct (Map.get socket_id (players w)) as [q|] eqn:G'.
    + do 4 rewrite exec_bind. rewrite players_manageBotPopulation.
      unfold exec. simpl players.
      destruct (String.eqb_spec socket_id id) as [->|N].
      * rewrite MapFacts.get_delete_same; trivial.
        rewrite MapFacts.keys_mutate. apply HI.
      * rewrite MapFacts.get_delete_other, MapFacts.get_mutate_other, G by exact N.
        left. auto.
    + unfold exec. simpl. rewrite G. left. auto.
  - apply Hd. unfold on_setPlayerName. pres.
  - apply Hd. unfold on_chatMessage. pres.
  - apply Hd, dormant_tick.
  - (* a timer fires *)
    unfold fireTimer. rewrite exec_bind. cbn [get_world fst].
    change (exec get_world w) with w.
    destruct (nth_error (timers w) n) as [timer|].
    + rewrite exec_bind.
      match goal with
      | |- afterwards (exec _ ?w1) _ _ =>
          assert (Inv w1) as HI1
            by (apply (Inv_coreOnly (w := w)); [reflexivity | exact HI]);
          assert (Map.get id (players w1) = Some p) as G1 by exact G
      end.
      destruct (callback timer) as [id'|id']; simpl runCallback.
      * apply respawnPlayer_afterwards; trivial.
      * rewrite exec_bind. cbn [get_world fst].
        destruct (Map.has id' _).
        -- apply respawnPlayer_afterwards; trivial.
        -- unfold afterwards, exec. simpl. rewrite G. left. auto.
    + unfold afterwards, exec. simpl. rewrite G. left. auto.
Qed.

(** *** A dead player has a respawn pending *)

Lemma leads_bind (P R Q : World -> Prop) (A B : Type) (m : M A) (k : A -> M B) :
  leads P R m -> (forall a, leads R Q (k a)) -> leads P Q (bind m k).
Proof. intros Hm Hk w H. unfold bind. cbv zeta. apply Hk, Hm, H. Qed.

Lemma leads_preserves (P : World -> Prop) (A : Type) (m : M A) :
  preserves P m -> leads P P m.
Proof. intros H. exact H. Qed.

Lemma Pend_frame x (A : Type) (m : M A) :
  (forall w, players (snd (m w)) = players w /\ timers (snd (m w)) = timers w) ->
  preserves (Pend x) m.
Proof.
  intros Hm w [H1 H2 H3]. destruct (Hm w) as [E1 E2].
  constructor; rewrite ?E1, ?E2; trivial.
Qed.

Lemma Pend_initialWorld : Pend None initialWorld.
Proof. constructor; simpl; [constructor | discriminate | discriminate]. Qed.

Lemma pendingRespawn_app id ts ts' : pendingRespawn id ts -> pendingRespawn id (ts ++ ts').
Proof. intros (t & I & C). exists t. split; [apply in_or_app; left; exact I | exact C]. Qed.

Lemma Pend_set_timeout_any x c ms : preserves (Pend x) (set_timeout c ms).
Proof.
  intros w [H1 H2 H3]. constructor; simpl; trivial.
  intros id p G D. destruct (H3 id p G D) as [E|E]; [left; exact E|].
  right. apply pendingRespawn_app. exact E.
Qed.

Lemma Pend_set_timeout k c ms :
  c = respawn_target k \/ c = respawn_if_connected k ->
  leads (Pend (Some k)) (Pend None) (set_timeout c ms).
Proof.
  intros C w [H1 H2 H3]. constructor; simpl; trivial.
  intros id p G D. right. destruct (H3 id p G D) as [E|E].
  - injection E as <-. exists (setTimeout c ms). split; [|exact C].
    apply in_or_app. right. left. reflexivity.
  - apply pendingRespawn_app. exact E.
Qed.

Lemma Pend_absent k w : Pend (Some k) w -> Map.get k (players w) = None -> Pend None w.
Proof.
  intros [H1 H2 H3] N. constructor; trivial.
  intros id p G D. destruct (H3 id p G D) as [E|E]; [|right; exact E].
  injection E as <-. congruence.
Qed.

Lemma Pend_mutate_tame x r f : tame f -> preserves (Pend x) (mutate r f).
Proof.
  intros Hf w [H1 H2 H3]. destruct r as [k|k]; constructor; simpl; trivial.
  - rewrite MapFacts.keys_mutate. trivial.
  - intros id p. destruct (String.eqb_spec k id) as [->|N].
    + rewrite MapFacts.get_mutate_same. destruct (Map.get id (players w)) eqn:G; [|discriminate].
      simpl. intro E. injection E as <-. destruct (Hf t) as [F _]. rewrite F. auto.
    + rewrite MapFacts.get_mutate_other by exact N. auto.
  - intros id p. destruct (String.eqb_spec k id) as [->|N].
    + rewrite MapFacts.get_mutate_same. destruct (Map.get id (players w)) eqn:G; [|discriminate].
      simpl. intro E. injection E as <-. destruct (Hf t) as [_ F]. intro D. eauto.
    + rewrite MapFacts.get_mutate_other by exact N. eauto.
Qed.

Lemma Pend_assign_tame x r f obj : tame f -> preserves (Pend x) (assign r f obj).
Proof.
  intro H. unfold assign. apply preserves_bind; [apply Pend_mutate_tame; exact H|].
  intro. apply preserves_ret.
Qed.

(** Marking the player [k] dead. *)
Lemma Pend_mutate_kill x k f :
  (forall e, Entity.id (f e) = Entity.id e) ->
  x = None \/ x = Some k ->
  leads (Pend x) (Pend (Some k)) (mutate (inPlayers k) f).
Proof.
  intros Hf Hx w [H1 H2 H3]. constructor; simpl; trivial.
  - rewrite MapFacts.keys_mutate. trivial.
  - intros id p. destruct (String.eqb_spec k id) as [->|N].
    + rewrite MapFacts.get_mutate_same. destruct (Map.get id (players w)) eqn:G; [|discriminate].
      simpl. intro E. injection E as <-. rewrite Hf. auto.
    + rewrite MapFacts.get_mutate_other by exact N. auto.
  - intros id p. destruct (String.eqb_spec k id) as [->|N]; [left; reflexivity|].
    rewrite MapFacts.get_mutate_other by exact N. intros G D.
    destruct (H3 id p G D) as [E|E]; [|right; exact E].
    destruct Hx as [-> | ->]; [discriminate | left; exact E].
Qed.

(** Reviving the player [k]. *)
Lemma Pend_mutate_revive x k f :
  (forall e, Entity.id (f e) = Entity.id e /\ Entity.alive (f e) = true) ->
  x = None \/ x = Some k ->
  leads (Pend x) (Pend None) (mutate (inPlayers k) f).
Proof.
  intros Hf Hx w [H1 H2 H3]. constructor; simpl; trivial.
  - rewrite MapFacts.keys_mutate. trivial.
  - intros id p. destruct (String.eqb_spec k id) as [->|N].
    + rewrite MapFacts.get_mutate_same. destruct (Map.get id (players w)) eqn:G; [|discriminate].
      simpl. intro E. injection E as <-. destruct (Hf t) as [F _]. rewrite F. auto.
    + rewrite MapFacts.get_mutate_other by exact N. auto.
  - intros id p. destruct (String.eqb_spec k id) as [->|N].
    + rewrite MapFacts.get_mutate_same. destruct (Map.get id (players w)) eqn:G; [|discriminate].
      simpl. intro E. injection E as <-. destruct (Hf t) as [_ F]. congruence.
    + rewrite MapFacts.get_mutate_other by exact N. intros G D.
      destruct (H3 id p G D) as [E|E]; [|right; exact E].
      destruct Hx as [-> | ->]; [discriminate | congruence].
Qed.

Lemma Pend_players_set k v :
  Entity.id v = k -> Entity.alive v = true ->
  preserves (Pend None) (modify_world (with_players (Map.set k v))).
Proof.
  intros Hi Ha w [H1 H2 H3]. constructor; simpl.
  - apply MapFacts.NoDup_keys_set. exact H1.
  - intros id p. destruct (String.eqb_spec k id) as [->|N].
    + rewrite MapFacts.get_set_same. intro E. injection E as <-. exact Hi.
    + rewrite MapFacts.get_set_other by exact N. apply H2.
  - intros id p. destruct (String.eqb_spec k id) as [->|N].
    + rewrite MapFacts.get_set_same. intro E. injection E as <-. congruence.
    + rewrite MapFacts.get_set_other by exact N. apply H3.
Qed.

Lemma Pend_players_delete k :
  preserves (Pend None) (modify_world (with_players (Map.delete k))).
Proof.
  intros w [H1 H2 H3]. constructor; simpl.
  - apply MapFacts.NoDup_keys_delete. exact H1.
  - intros id p. destruct (String.eqb_spec k id) as [->|N].
    + rewrite MapFacts.get_delete_same by exact H1. discriminate.
    + rewrite MapFacts.get_delete_other by exact N. apply H2.
  - intros id p. destruct (String.eqb_spec k id) as [->|N].
    + rewrite MapFacts.get_delete_same by exact H1. discriminate.
    + rewrite MapFacts.get_delete_other by exact N. apply H3.
Qed.

Ltac tame_tac :=
  intros ?; split;
  [ reflexivity
  | let H := fresh in intro H; first [exact H | discriminate H] ].

Ltac frame_Pend := apply Pend_frame; intro; split; reflexivity.

Hint Extern 5 (preserves (Pend _) _) => frame_Pend : pres.
Hint Extern 1 (preserves (Pend _) (mutate (inBots _) _)) => frame_Pend : pres.
Hint Extern 1 (preserves (Pend _) (assign (inBots _) _ _)) => frame_Pend : pres.
Hint Extern 2 (preserves (Pend _) (mutate _ _)) =>
  (apply Pend_mutate_tame; tame_tac) : pres.
Hint Extern 2 (preserves (Pend _) (assign _ _ _)) =>
  (apply Pend_assign_tame; tame_tac) : pres.
Hint Resolve Pend_set_timeout_any : pres.

(** One step that keeps [R]. *)
Ltac leads_step I :=
  cbv beta zeta;
  lazymatch goal with
  | |- leads _ _ (bind _ _) =>
      apply (@leads_bind _ I); [ apply leads_preserves; solve [pres] | intro ]
  end.

Lemma Pend_giveKillCredit x id : preserves (Pend x) (giveKillCredit id).
Proof. unfold giveKillCredit. pres. Qed.

Hint Resolve Pend_giveKillCredit : pres.

Lemma Pend_manageBotPopulation x : preserves (Pend x) (manageBotPopulation env).
Proof. unfold manageBotPopulation, removeBot. pres. Qed.

Lemma Pend_updateBot x now botId : preserves (Pend x) (updateBot env now botId).
Proof. unfold updateBot, pursue, wander. pres. Qed.

Lemma Pend_respawnPlayer id : leads (Pend (Some id)) (Pend None) (respawnPlayer env id).
Proof.
  intros w H. unfold respawnPlayer. unfold bind at 1. cbv beta zeta. cbn [deref fst snd].
  destruct (Map.get id (players w)) as [player|] eqn:G.
  - match goal with
    | |- Pend None (snd (?m w)) =>
        assert (leads (Pend (Some id)) (Pend None) m) as Hm; [ | apply Hm; exact H ]
    end.
    do 2 leads_step (Pend (Some id)).
    apply leads_bind with (R := Pend None).
    + unfold assign. apply leads_bind with (R := Pend None).
      * apply Pend_mutate_revive; [intro; split; reflexivity | right; reflexivity].
      * intro. apply leads_preserves, preserves_ret.
    + intro. apply leads_preserves. pres.
  - exact (Pend_absent H G).
Qed.

Lemma Pend_targetDied bullet self target :
  leads (Pend None) (Pend None) (targetDied env bullet self target).
Proof.
  destruct self as [key|key].
  - unfold targetDied.
    apply leads_bind with (R := Pend (Some key));
      [apply Pend_mutate_kill; [intro; reflexivity | left; reflexivity] | intro].
    apply leads_bind with (R := Pend (Some key));
      [apply leads_preserves, Pend_giveKillCredit | intro].
    intros w H. unfold bind at 1. cbv beta zeta. cbn [deref fst snd].
    destruct (Map.get key (players w)) as [t|] eqn:G.
    + assert (Entity.id t = key) as I by (apply H; exact G). rewrite I.
      match goal with
      | |- Pend None (snd (?m w)) =>
          assert (leads (Pend (Some key)) (Pend None) m) as Hm; [ | apply Hm; exact H ]
      end.
      apply leads_bind with (R := Pend (Some key)); [apply leads_preserves; pres | intro].
      destruct (negb (Entity.isBot t)).
      * apply Pend_set_timeout. left. reflexivity.
      * do 2 leads_step (Pend (Some key)).
        apply Pend_mutate_revive; [intro; split; reflexivity | right; reflexivity].
    + apply (fun H => Pend_absent H G) in H.
      match goal with
      | |- Pend None (snd (?m w)) =>
          assert (preserves (Pend None) m) as Hm; [ pres | apply Hm; exact H ]
      end.
  - apply leads_preserves. unfold targetDied. pres.
Qed.

Lemma Pend_checkCollision bulletId bullet self :
  preserves (Pend None) (checkCollision env bulletId bullet self).
Proof.
  unfold checkCollision. pres. apply Pend_targetDied.
Qed.

Lemma Pend_updateBullet now bulletId : preserves (Pend None) (updateBullet env now bulletId).
Proof. unfold updateBullet. pres. apply Pend_checkCollision. Qed.

Lemma Pend_tick : preserves (Pend None) (tick env).
Proof.
  unfold tick, updateBots, updateBullets, updateScore. pres;
    auto using Pend_updateBot, Pend_updateBullet, Pend_manageBotPopulation.
Qed.

Lemma Pend_on_playerEliminated socket_id eliminatorId :
  preserves (Pend None) (on_playerEliminated socket_id eliminatorId).
Proof.
  intros w H. unfold on_playerEliminated. unfold bind at 1. cbv beta zeta. cbn [deref fst snd].
  destruct (Map.get socket_id (players w)) as [player|]; [|exact H].
  match goal with
  | |- Pend None (snd (?m w)) =>
      assert (leads (Pend None) (Pend None) m) as Hm; [ | apply Hm; exact H ]
  end.
  apply leads_bind with (R := Pend (Some socket_id));
    [apply Pend_mutate_kill; [intro; reflexivity | left; reflexivity] | intro].
  repeat leads_step (Pend (Some socket_id)).
  apply Pend_set_timeout. right. reflexivity.
Qed.

Lemma In_remove_nth (A : Type) (l : list A) (n : nat) (a t : A) :
  nth_error l n = Some a -> In t l -> t <> a -> In t (firstn n l ++ skipn (S n) l).
Proof.
  revert n. induction l as [|b l IH]; intros n E I N; [destruct I|].
  destruct n as [|n]; simpl in *.
  - injection E as ->. destruct I as [->|I]; [contradiction | exact I].
  - destruct I as [->|I]; [left; reflexivity | right; eauto].
Qed.

Lemma Pend_fireTimer n : preserves (Pend None) (fireTimer env n).
Proof.
  intros w H. unfold fireTimer. unfold bind at 1. cbv beta zeta. cbn [get_world fst snd].
  destruct (nth_error (timers w) n) as [timer|] eqn:E; [|exact H].
  unfold bind. cbv beta zeta. cbn [modify_world fst snd].
  assert (forall id', (callback timer = respawn_target id' \/
                       callback timer = respawn_if_connected id') ->
                      Pend (Some id')
                        (with_timers (fun l => firstn n l ++ skipn (S n) l)%list w)) as H1.
  { intros id' C'. destruct H as [H1 H2 H3]. constructor; simpl; trivial.
    intros id p G D. destruct (H3 id p G D) as [X | (t & I & C)]; [discriminate|].
    destruct (String.eqb_spec id' id) as [->|N]; [left; reflexivity|].
    right. exists t. split; [|exact C].
    eapply In_remove_nth; eauto. intros ->. apply N.
    destruct C as [C|C]; destruct C' as [C'|C']; congruence. }
  revert H1. generalize (with_timers (fun l => firstn n l ++ skipn (S n) l)%list w).
  intros w1 H1.
  destruct (callback timer) as [id'|id']; simpl runCallback.
  - apply Pend_respawnPlayer. apply H1. left. reflexivity.
  - unfold bind. cbv beta zeta. cbn [get_world fst snd]. unfold Map.has.
    destruct (Map.get id' (players w1)) eqn:G.
    + apply Pend_respawnPlayer. apply H1. right. reflexivity.
    + apply (Pend_absent (k := id')); trivial. apply H1. right. reflexivity.
Qed.

Lemma Pend_handle i : preserves (Pend None) (handle env i).
Proof.
  destruct i; simpl handle.
  - apply Pend_manageBotPopulation.
  - unfold on_connection. pres. apply Pend_players_set; reflexivity.
  - unfold on_playerMove. pres.
  - unfold on_emitPing. pres.
  - unfold on_shoot. pres.
  - apply Pend_on_playerEliminated.
  - unfold on_disconnect. pres.
    + apply Pend_players_delete.
    + apply Pend_manageBotPopulation.
  - unfold on_setPlayerName. pres.
  - unfold on_chatMessage. pres.
  - apply Pend_tick.
  - apply Pend_fireTimer.
Qed.

Lemma Pend_run history w : Pend None w -> Pend None (run env history w).
Proof.
  unfold run. revert w. induction history as [|i history IH]; simpl; intros w H; trivial.
  apply IH. apply Pend_handle. exact H.
Qed.

(** *** What the server leaves of a player *)

Lemma playerHas_mutate id P r f :
  (r = inPlayers id -> forall e, P e -> P (f e)) -> preserves (playerHas id P) (mutate r f).
Proof.
  intros Hf w H p G. destruct r as [k|k]; [|exact (H p G)].
  simpl in G. destruct (string_dec k id) as [->|N].
  - rewrite MapFacts.get_mutate_same in G.
    destruct (Map.get id (players w)) as [p0|] eqn:G0; [|discriminate].
    injection G as <-. apply Hf; [reflexivity|]. apply H. exact G0.
  - rewrite MapFacts.get_mutate_other in G by exact N. exact (H p G).
Qed.

Lemma playerHas_assign id P r f obj :
  (r = inPlayers id -> forall e, P e -> P (f e)) -> preserves (playerHas id P) (assign r f obj).
Proof.
  intro Hf. unfold assign. apply preserves_bind; [apply playerHas_mutate; exact Hf|].
  intro. apply preserves_ret.
Qed.

Lemma playerHas_delete_other id P k :
  k <> id -> preserves (playerHas id P) (modify_world (with_players (Map.delete k))).
Proof.
  intros N w H p G. simpl in G. rewrite MapFacts.get_delete_other in G by exact N. exact (H p G).
Qed.

Lemma playerHas_set_other id P k v :
  k <> id -> preserves (playerHas id P) (modify_world (with_players (Map.set k v))).
Proof.
  intros N w H p G. simpl in G. rewrite MapFacts.get_set_other in G by exact N. exact (H p G).
Qed.

(** A step that does not touch the players. *)
Ltac has_frame := let H := fresh in intros ? H; exact H.

(** An assignment to another player, or one that [P] survives. *)
Ltac has_leaf :=
  let E := fresh in
  let e := fresh in
  let He := fresh in
  intro E;
  first [ congruence
        | intros e He;
          match goal with
          | S : stable _ |- _ =>
              first [ apply (stable_damage S) | apply (stable_dead S) | apply (stable_credit S)
                    | apply (stable_revive S) | apply (stable_eliminated S)
                    | apply (stable_move S) | apply (stable_lastShoot S)
                    | apply (stable_name S) ]; exact He
          end
        | intros e He;
          match goal with
          | K : forall e, _ -> _ |- _ => apply K; exact He
          end ].

Hint Extern 5 (preserves (playerHas _ _) _) => has_frame : pres.
Hint Extern 6 (preserves (playerHas _ _) (mutate _ _)) =>
  (apply playerHas_mutate; has_leaf) : pres.
Hint Extern 6 (preserves (playerHas _ _) (assign _ _ _)) =>
  (apply playerHas_assign; has_leaf) : pres.
Hint Extern 6 (preserves (playerHas _ _) (modify_world (with_players (Map.delete _)))) =>
  (apply playerHas_delete_other; assumption) : pres.
Hint Extern 6 (preserves (playerHas _ _) (modify_world (with_players (Map.set _ _)))) =>
  (apply playerHas_set_other; assumption) : pres.

Section PlayerFrame.
Variable id : string.
Variable P : Entity.t -> Prop.
Hypothesis S : stable P.

Lemma playerHas_removeBot botId : preserves (playerHas id P) (removeBot botId).
Proof. unfold removeBot. pres. Qed.

Lemma playerHas_manageBotPopulation : preserves (playerHas id P) (manageBotPopulation env).
Proof. unfold manageBotPopulation. pres. apply playerHas_removeBot. Qed.

Lemma playerHas_pursue now k enemy nearestDistance bot :
  preserves (playerHas id P) (pursue env now (inBots k) enemy nearestDistance bot).
Proof. unfold pursue. pres. Qed.

Lemma playerHas_wander k bot : preserves (playerHas id P) (wander env (inBots k) bot).
Proof. unfold wander. pres. Qed.

Lemma playerHas_updateBot now botId : preserves (playerHas id P) (updateBot env now botId).
Proof.
  unfold updateBot. pres; try apply playerHas_pursue; try apply playerHas_wander.
Qed.

Lemma playerHas_updateBots : preserves (playerHas id P) (updateBots env).
Proof. unfold updateBots. pres. apply playerHas_updateBot. Qed.

Lemma playerHas_giveKillCredit shooterId : preserves (playerHas id P) (giveKillCredit shooterId).
Proof. unfold giveKillCredit. pres. Qed.

Lemma playerHas_targetDied bullet self target :
  preserves (playerHas id P) (targetDied env bullet self target).
Proof. unfold targetDied. pres. apply playerHas_giveKillCredit. Qed.

Lemma playerHas_checkCollision bulletId bullet self :
  preserves (playerHas id P) (checkCollision env bulletId bullet self).
Proof. unfold checkCollision. pres. apply playerHas_targetDied. Qed.

Lemma playerHas_updateBullet now bulletId :
  preserves (playerHas id P) (updateBullet env now bulletId).
Proof. unfold updateBullet. pres. apply playerHas_checkCollision. Qed.

Lemma playerHas_updateBullets : preserves (playerHas id P) (updateBullets env).
Proof. unfold updateBullets. pres. apply playerHas_updateBullet. Qed.

Lemma playerHas_beforeRecomputation : preserves (playerHas id P) (beforeRecomputation env).
Proof.
  unfold beforeRecomputation. pres;
    auto using playerHas_updateBots, playerHas_updateBullets, playerHas_manageBotPopulation.
Qed.

Lemma playerHas_on_playerMove socket_id x y :
  preserves (playerHas id P) (on_playerMove socket_id x y).
Proof. unfold on_playerMove. pres. Qed.

Lemma playerHas_on_shoot socket_id angle :
  preserves (playerHas id P) (on_shoot env socket_id angle).
Proof. unfold on_shoot. pres. Qed.

Lemma playerHas_on_playerEliminated socket_id eliminatorId :
  preserves (playerHas id P) (on_playerEliminated socket_id eliminatorId).
Proof. unfold on_playerEliminated. pres. apply playerHas_giveKillCredit. Qed.

Lemma playerHas_on_setPlayerName socket_id name :
  preserves (playerHas id P) (on_setPlayerName socket_id name).
Proof. unfold on_setPlayerName. pres. Qed.

Lemma playerHas_on_chatMessage socket_id message :
  preserves (playerHas id P) (on_chatMessage env socket_id message).
Proof. unfold on_chatMessage. pres. Qed.

Lemma playerHas_on_connection socket_id :
  socket_id <> id -> preserves (playerHas id P) (on_connection env socket_id).
Proof. intro N. unfold on_connection. pres. Qed.

Lemma playerHas_on_emitPing socket_id :
  socket_id <> id -> preserves (playerHas id P) (on_emitPing env socket_id).
Proof. intro N. unfold on_emitPing. pres. Qed.

Lemma playerHas_on_disconnect socket_id :
  socket_id <> id -> preserves (playerHas id P) (on_disconnect env socket_id).
Proof. intro N. unfold on_disconnect. pres. apply playerHas_manageBotPopulation. Qed.

(** A respawn of another player, or one that [P] survives. *)
Lemma playerHas_respawnPlayer playerId :
  (playerId = id ->
   forall x y e, P e -> P (Entity.set_lastPing 0 (Entity.set_lastShoot 0 (Entity.set_alive true
                             (Entity.set_health gameConfig.maxHealth
                                (Entity.set_y y (Entity.set_x x e))))))) ->
  preserves (playerHas id P) (respawnPlayer env playerId).
Proof.
  intro K. unfold respawnPlayer. pres.
  apply playerHas_assign. intros E e He. injection E as E. apply K; trivial.
Qed.

Lemma playerHas_fireTimer n w :
  (forall timer, nth_error (timers w) n = Some timer ->
     (callback timer = respawn_target id \/ callback timer = respawn_if_connected id) ->
     forall x y e, P e -> P (Entity.set_lastPing 0 (Entity.set_lastShoot 0 (Entity.set_alive true
                               (Entity.set_health gameConfig.maxHealth
                                  (Entity.set_y y (Entity.set_x x e))))))) ->
  playerHas id P w -> playerHas id P (exec (fireTimer env n) w).
Proof.
  intros K H. unfold fireTimer. rewrite exec_bind. cbn [get_world fst].
  change (exec get_world w) with w.
  destruct (nth_error (timers w) n) as [timer|] eqn:T; [|exact H].
  rewrite exec_bind.
  assert (playerHas id P (exec (modify_world
            (with_timers (fun l => (firstn n l ++ skipn (Datatypes.S n) l)%list))) w)) as H1
      by exact H.
  revert H1. generalize (exec (modify_world
            (with_timers (fun l => (firstn n l ++ skipn (Datatypes.S n) l)%list))) w).
  intros w1 H1. specialize (K timer eq_refl).
  destruct (callback timer) as [s|s]; unfold runCallback.
  - apply playerHas_respawnPlayer; trivial. intros ->. apply K. left. reflexivity.
  - rewrite exec_bind. cbn [get_world fst]. change (exec get_world w1) with w1.
    destruct (Map.has s (players w1)); [|exact H1].
    apply playerHas_respawnPlayer; trivial. intros ->. apply K. right. reflexivity.
Qed.

End PlayerFrame.

(** * The claims *)

(** ** Health and life (C2) *)

Lemma player_ok_vitals e : player_ok e -> vitals_ok e.
Proof.
  intros (H1 & H2 & H3 & H4). unfold vitals_ok. rewrite H2.
  repeat split; try apply H3; trivial. congruence.
Qed.

Lemma bot_ok_vitals e : bot_ok e -> vitals_ok e.
Proof.
  intros (H1 & H2 & H3 & H4). unfold vitals_ok. rewrite H2.
  repeat split; try lia; trivial.
Qed.

Lemma respawnPlayer_effect id player w :
  Map.get id (players w) = Some player ->
  exists respawned,
    Map.get id (players (exec (respawnPlayer env id) w)) = Some respawned /\
    Entity.health respawned = gameConfig.maxHealth /\
    Entity.alive respawned = true.
Proof.
  intro G. unfold respawnPlayer, exec, bind. cbn [deref fst snd]. rewrite G.
  cbv [assign bind mutate modify_world emit Math_random ret]. cbn [fst snd].
  simpl players. rewrite MapFacts.get_mutate_same, G. simpl.
  eexists. split; [reflexivity|]. simpl. split; reflexivity.
Qed.

(** C2, as amended.  After every history of inputs (connections, intents,
    client-reported eliminations, ticks with their hits and deaths, respawn
    timers, disconnections):
    - every entity has its health within [0, maxHealth] and is dead
      whenever its health is 0 (and a bot is never left dead);
    - every dead player has a respawn timer pending;
    - a dead player stays dead, with the health it has, through whatever
      input comes next, unless that input makes it alive with its health
      at maxHealth (a respawn, or a new connection under its id) or
      removes it;
    - a respawn of a connected player sets its health to maxHealth and
      makes it alive.
    The converse of the first item, dead only if health is 0, is not
    claimed: see [eliminated_with_full_health]. *)
Theorem vitals_invariant (history : list Input) :
  let w := run env history initialWorld in
  Forall vitals_ok (entities w) /\
  (forall id player,
      Map.get id (players w) = Some player ->
      Entity.alive player = false ->
      pendingRespawn id (timers w)) /\
  (forall i id player,
      Map.get id (players w) = Some player ->
      Entity.alive player = false ->
      afterwards (exec (handle env i) w) id player) /\
  (forall id player,
      Map.get id (players w) = Some player ->
      exists respawned,
        Map.get id (players (exec (respawnPlayer env id) w)) = Some respawned /\
        Entity.health respawned = Entity.maxHealth respawned /\
        Entity.alive respawned = true).
Proof.
  intro w.
  assert (Inv w) as HI by (apply Inv_run, Inv_initialWorld).
  assert (Pend None w) as HP by (apply Pend_run, Pend_initialWorld).
  split; [| split; [| split]].
  - unfold entities. apply Forall_app. split.
    + eapply Forall_impl; [exact player_ok_vitals | apply HI].
    + eapply Forall_impl; [exact bot_ok_vitals | apply HI].
  - intros id player G D.
    destruct (pend_timers HP id G D) as [X|X]; [discriminate | exact X].
  - intros i id player G D. apply dead_until_respawn; trivial.
  - intros id player G.
    destruct (respawnPlayer_effect id w G) as (r & Gr & Hh & Ha).
    exists r. repeat split; trivial.
    assert (Inv (exec (respawnPlayer env id) w)) as HI' by (apply Inv_respawnPlayer, HI).
    destruct (MapFacts.get_Forall _ _ (inv_players HI') Gr) as (_ & Hm & _).
    congruence.
Qed.

(** ** Population (C4) *)

(** C4, as amended.  After the Population Manager has run, in every
    reachable world (called on its own, at the end of a tick, or by the
    disconnection of a connected player): when at most [maxBots] humans are
    connected, [minBots <= humanCount + botCount <= maxBots]; when more are
    connected, no bot is left and the head count is the human count. *)
Theorem population_after_manager (history : list Input) :
  let w := run env history initialWorld in
  populationBounded (exec (manageBotPopulation env) w) /\
  populationBounded (exec (tick env) w) /\
  (forall socket_id,
      Map.has socket_id (players w) = true ->
      populationBounded (exec (on_disconnect env socket_id) w)).
Proof.
  intro w.
  assert (Inv w) as HI by (apply Inv_run, Inv_initialWorld).
  split; [| split].
  - apply manageBotPopulation_bounded, HI.
  - apply tick_bounded, HI.
  - intros socket_id H. apply on_disconnect_bounded; trivial.
Qed.

(** ** Intents from absent or dead senders (C3) *)

(** C3, as amended.  A client intent changes nothing, and sends nothing,
    when its sender has no entity; move, emitPing and shoot also change and
    send nothing when the sender's entity is dead.  (setPlayerName,
    chatMessage and the elimination report of a dead sender do take effect:
    see [dead_sender_is_heard].) *)
Theorem intents_guarded (w : World) (i : Input) (socket_id : string) :
  sender i = Some socket_id ->
  (Map.get socket_id (players w) = None \/
   (needsLivingSender i = true /\
    exists player, Map.get socket_id (players w) = Some player /\ Entity.alive player = false)) ->
  exec (handle env i) w = w.
Proof.
  intros S H.
  destruct i; simpl in S; try discriminate; injection S as ->; simpl handle;
    unfold on_playerMove, on_emitPing, on_shoot, on_playerEliminated, on_setPlayerName,
      on_chatMessage, exec, bind; cbn [deref fst snd];
    (destruct H as [G | (N & player & G & D)];
     [ rewrite G; reflexivity
     | try discriminate N; rewrite G; cbn [negb]; rewrite D; reflexivity ]).
Qed.

(** ** Movement (C6) *)

Local Open Scope Q_scope.


Local Open Scope Z_scope.

(** ** Ping (C7, C10) *)

Lemma run_cons i between w : run env (i :: between) w = run env between (exec (handle env i) w).
Proof. reflexivity. Qed.

Lemma playerHas_updateScore id (P : Entity.t -> Prop) self :
  (forall t e, P e -> P (Entity.set_score t e)) ->
  preserves (playerHas id P) (updateScore env self).
Proof.
  intro K. unfold updateScore. pres.
Qed.

Lemma lastPing_stable v : stable (fun p => Entity.lastPing p = v).
Proof. constructor; intros; assumption. Qed.

Lemma lastPing_tick id v : preserves (playerHas id (fun p => Entity.lastPing p = v)) (tick env).
Proof.
  pose proof (lastPing_stable v) as S.
  unfold tick. pres;
    auto using playerHas_updateBots, playerHas_updateBullets, playerHas_manageBotPopulation;
    apply playerHas_updateScore; intros; assumption.
Qed.

(** An input that does not disturb a player leaves its [lastPing]. *)
Lemma lastPing_step id v i w :
  ~ disturbs id w i ->
  playerHas id (fun p => Entity.lastPing p = v) w ->
  playerHas id (fun p => Entity.lastPing p = v) (exec (handle env i) w).
Proof.
  intros D H. pose proof (lastPing_stable v) as S.
  destruct i; simpl handle; simpl in D.
  - apply playerHas_manageBotPopulation; trivial.
  - apply playerHas_on_connection; trivial.
  - apply playerHas_on_playerMove; trivial.
  - apply playerHas_on_emitPing; trivial.
  - apply playerHas_on_shoot; trivial.
  - apply playerHas_on_playerEliminated; trivial.
  - apply playerHas_on_disconnect; trivial.
  - apply playerHas_on_setPlayerName; trivial.
  - apply playerHas_on_chatMessage; trivial.
  - apply lastPing_tick; trivial.
  - apply playerHas_fireTimer; trivial.
    intros timer T C. exfalso. apply D. rewrite T. exact C.
Qed.

Lemma lastPing_undisturbed id v between w :
  undisturbed env id w between ->
  playerHas id (fun p => Entity.lastPing p = v) w ->
  playerHas id (fun p => Entity.lastPing p = v) (run env between w).
Proof.
  revert w. induction between as [|i between IH]; intros w U H; [exact H|].
  destruct U as [D U]. rewrite run_cons. apply IH; trivial. apply lastPing_step; trivial.
Qed.

(** C7, as amended.  A ping of a living player that arrives less than
    [pingCooldown] after the time stamped in [lastPing] sends the sender,
    and nobody else, a cooldown notice with
    [remaining = pingCooldown - elapsed], and leaves every player (so also
    [lastPing]) unchanged; any other ping of a living player stamps
    [lastPing] and is emitted to every session.  After the ping, [lastPing]
    holds the time of the player's last ping that was not on cooldown for
    as long as nothing disturbs the player: through every input but a new
    ping of its own, a respawn timer of the player that fires, and a
    connection or a disconnection under its id.  (A respawn, also of a
    living player, and a connection reset [lastPing] to 0: see
    [respawn_clears_cooldown].) *)
Theorem emitPing_cooldown (w : World) (socket_id : string) (player : Entity.t) :
  Map.get socket_id (players w) = Some player ->
  Entity.alive player = true ->
  let now := clock_stream env (clockCalls w) in
  let elapsed := now - Entity.lastPing player in
  let w' := exec (on_emitPing env socket_id) w in
  (if elapsed <? gameConfig.pingCooldown
   then
     sent w' = (sent w ++ [(socket_emit socket_id,
                            Event.pingCooldown (gameConfig.pingCooldown - elapsed))])%list /\
     players w' = players w
   else
     sent w' = (sent w ++ [(io_emit,
                            Event.pingEmitted socket_id (Entity.x player) (Entity.y player) now
                                              (Entity.color player) gameConfig.maxPingRadius)])%list /\
     exists pinged,
       Map.get socket_id (players w') = Some pinged /\ Entity.lastPing pinged = now) /\
  (forall between later,
      undisturbed env socket_id w' between ->
      Map.get socket_id (players (run env between w')) = Some later ->
      Entity.lastPing later
      = (if elapsed <? gameConfig.pingCooldown then Entity.lastPing player else now)).
Proof.
  intros G A now elapsed w'.
  assert (if elapsed <? gameConfig.pingCooldown
          then
            sent w' = (sent w ++ [(socket_emit socket_id,
                                   Event.pingCooldown (gameConfig.pingCooldown - elapsed))])%list /\
            players w' = players w
          else
            sent w' = (sent w ++ [(io_emit,
                                   Event.pingEmitted socket_id (Entity.x player) (Entity.y player) now
                                                     (Entity.color player)
                                                     gameConfig.maxPingRadius)])%list /\
            exists pinged,
              Map.get socket_id (players w') = Some pinged /\ Entity.lastPing pinged = now) as H.
  { unfold w', on_emitPing, exec, bind. cbn [deref fst snd].
    rewrite G, A. cbn [negb Date_now fst snd]. fold now. fold elapsed.
    destruct (elapsed <? gameConfig.pingCooldown).
    - split; reflexivity.
    - cbv [assign bind mutate modify_world emit ret Date_now]. cbn [fst snd].
      split; [reflexivity|]. simpl players.
      rewrite MapFacts.mutate_mutate, MapFacts.get_mutate_same, G. simpl.
      eexists. split; reflexivity. }
  split; [exact H|].
  intros between later U Gl.
  refine (@lastPing_undisturbed socket_id _ between w' U _ later Gl).
  clearbody w'. intros p Gp.
  destruct (elapsed <? gameConfig.pingCooldown).
  - destruct H as [_ H]. rewrite H in Gp. congruence.
  - destruct H as [_ (pinged & Gq & Lq)]. congruence.
Qed.

Lemma bonus_stable c : stable (fun p => Entity.score p - 100 * Entity.kills p = c).
Proof.
  constructor; intros; try assumption.
  unfold credited. cbn [Entity.score Entity.kills Entity.set_score Entity.set_kills]. lia.
Qed.

(** An input that does not assign the score of a player anew leaves
    [score - 100 * kills] as it is. *)
Lemma bonus_step id c i w :
  ~ rescores id i ->
  playerHas id (fun p => Entity.score p - 100 * Entity.kills p = c) w ->
  playerHas id (fun p => Entity.score p - 100 * Entity.kills p = c) (exec (handle env i) w).
Proof.
  intros D H. pose proof (bonus_stable c) as S.
  destruct i; simpl handle; simpl in D.
  - apply playerHas_manageBotPopulation; trivial.
  - apply playerHas_on_connection; trivial.
  - apply playerHas_on_playerMove; trivial.
  - apply playerHas_on_emitPing; trivial.
  - apply playerHas_on_shoot; trivial.
  - apply playerHas_on_playerEliminated; trivial.
  - apply playerHas_on_disconnect; trivial.
  - apply playerHas_on_setPlayerName; trivial.
  - apply playerHas_on_chatMessage; trivial.
  - exfalso. apply D. exact I.
  - apply playerHas_fireTimer; trivial.
Qed.

Lemma bonus_between id c between w :
  Forall (fun i => ~ rescores id i) between ->
  playerHas id (fun p => Entity.score p - 100 * Entity.kills p = c) w ->
  playerHas id (fun p => Entity.score p - 100 * Entity.kills p = c) (run env between w).
Proof.
  revert w. induction between as [|i between IH]; intros w U H; [exact H|].
  inversion U as [|? ? D U']; subst. rewrite run_cons. apply IH; trivial.
  apply bonus_step; trivial.
Qed.

(** C10, as amended.  A ping that is not on cooldown overwrites the
    sender's score with [Math.floor((Date.now() - joinTime) / 1000)],
    whatever its kill count, which it leaves as it is.  From then on, until
    the scores are recomputed in the next tick (or the sender pings again,
    or its id connects or disconnects), the score changes only by the 100
    that come with every kill credited to the sender: through every other
    input, and through the part of the tick before the recomputation, it
    is the floor taken at the ping plus 100 for every kill credited since.
    So the bonuses of the kills made before the ping stay left out; a kill
    credited after the ping is counted: see [bonus_after_ping].  (The tick
    is [beforeRecomputation] followed by [recomputation].) *)
Theorem emitPing_drops_kill_bonus (w : World) (socket_id : string) (player : Entity.t) :
  Map.get socket_id (players w) = Some player ->
  Entity.alive player = true ->
  (clock_stream env (clockCalls w) - Entity.lastPing player <? gameConfig.pingCooldown) = false ->
  let w' := exec (on_emitPing env socket_id) w in
  let floorOfSeconds := secondsSinceJoin (clock_stream env (S (clockCalls w))) player in
  (exists pinged,
      Map.get socket_id (players w') = Some pinged /\
      Entity.score pinged = floorOfSeconds /\
      Entity.kills pinged = Entity.kills player) /\
  (forall between later,
      Forall (fun i => ~ rescores socket_id i) between ->
      let w'' := run env between w' in
      Map.get socket_id (players w'') = Some later \/
      Map.get socket_id (players (exec (beforeRecomputation env) w'')) = Some later ->
      Entity.score later = floorOfSeconds + 100 * (Entity.kills later - Entity.kills player)) /\
  (forall w0, exec (tick env) w0 = exec (recomputation env) (exec (beforeRecomputation env) w0)).
Proof.
  intros G A C w' floorOfSeconds.
  assert (exists pinged,
             Map.get socket_id (players w') = Some pinged /\
             Entity.score pinged = floorOfSeconds /\
             Entity.kills pinged = Entity.kills player) as H.
  { unfold w', on_emitPing, exec, bind. cbn [deref fst snd].
    rewrite G, A. cbn [negb Date_now fst snd]. rewrite C.
    cbv [assign bind mutate modify_world emit ret Date_now]. cbn [fst snd]. simpl players.
    rewrite MapFacts.mutate_mutate, MapFacts.get_mutate_same, G. simpl.
    eexists. split; [reflexivity|]. split; reflexivity. }
  split; [exact H|]. split; [|reflexivity].
  intros between later U w'' Gl.
  set (c := floorOfSeconds - 100 * Entity.kills player).
  assert (playerHas socket_id (fun p => Entity.score p - 100 * Entity.kills p = c) w') as H1.
  { clearbody w'. destruct H as (pinged & Gp & Sp & Kp). intros p Gq.
    assert (p = pinged) as -> by congruence. unfold c. lia. }
  apply bonus_between with (between := between) in H1; [|exact U]. fold w'' in H1.
  clearbody w''. clearbody w'.
  assert (Entity.score later - 100 * Entity.kills later = c) as E.
  { destruct Gl as [Gl | Gl].
    - exact (H1 later Gl).
    - exact (@playerHas_beforeRecomputation socket_id _ (bonus_stable c) w'' H1 later Gl). }
  unfold c in E. lia.
Qed.

(** What the tick does to the score of a living entity. *)
Lemma updateScore_effect (w : World) (self : Ref) (e : Entity.t) :
  fst (deref self w) = Some e ->
  Entity.alive e = true ->
  exists e',
    fst (deref self (exec (updateScore env self) w)) = Some e' /\
    Entity.score e' = secondsSinceJoin (clock_stream env (clockCalls w)) e + Entity.kills e * 100.
Proof.
  intros G A. unfold updateScore, exec, bind. rewrite G, A.
  destruct self as [k|k]; cbn [deref fst snd] in *;
    cbv [mutate modify_world Date_now]; cbn [fst snd]; simpl;
    rewrite MapFacts.get_mutate_same, G; simpl; eexists; split; reflexivity.
Qed.

(** ** Disconnection (C9) *)

Lemma sentExtends_emit l to e : preserves (sentExtends l) (emit to e).
Proof.
  intros w [rest H]. exists (rest ++ [(to, e)])%list. simpl. rewrite H, app_assoc. reflexivity.
Qed.

Lemma sentExtends_quiet l (A : Type) (m : M A) :
  (forall w, sent (snd (m w)) = sent w) -> preserves (sentExtends l) m.
Proof. intros Hm w [rest H]. exists rest. rewrite Hm. exact H. Qed.

Lemma sentExtends_createBot l : preserves (sentExtends l) (createBot env).
Proof.
  intros w [rest H]. eexists. simpl. rewrite H, <- app_assoc. reflexivity.
Qed.

Lemma sentExtends_removeBot l botId : preserves (sentExtends l) (removeBot botId).
Proof.
  unfold removeBot. pres.
  - apply sentExtends_quiet. reflexivity.
  - apply sentExtends_quiet. reflexivity.
  - apply sentExtends_emit.
Qed.

Lemma sentExtends_manageBotPopulation l : preserves (sentExtends l) (manageBotPopulation env).
Proof.
  unfold manageBotPopulation. pres;
    auto using sentExtends_createBot, sentExtends_removeBot.
Qed.

(** C9.  The leave notice of a disconnecting player carries
    [Math.floor((Date.now() - joinTime) / 1000)] as its final score, whatever
    the player's kill count; it is the first thing the handler sends. *)
Theorem disconnect_finalScore (w : World) (socket_id : string) (player : Entity.t) :
  Map.get socket_id (players w) = Some player ->
  exists rest,
    sent (exec (on_disconnect env socket_id) w) =
    (sent w ++ (socket_broadcast_emit socket_id,
                Event.playerLeft socket_id
                  (secondsSinceJoin (clock_stream env (clockCalls w)) player)) :: rest)%list.
Proof.
  intros G. unfold on_disconnect. rewrite exec_bind. cbn [deref fst].
  change (exec (deref (inPlayers socket_id)) w) with w. rewrite G.
  do 4 rewrite exec_bind.
  match goal with
  | |- exists rest, sent (exec _ ?w1) = (?l ++ ?e :: rest)%list =>
      assert (sentExtends (l ++ [e]) w1) as H1
  end.
  { exists []. rewrite app_nil_r. reflexivity. }
  apply sentExtends_manageBotPopulation in H1. destruct H1 as [rest H1].
  exists rest. unfold exec in *. rewrite H1, <- app_assoc. reflexivity.
Qed.

(** ** Bots at the walls *)

Local Open Scope Q_scope.

(** "Bounce off walls".  With [heading] the smoothed heading of the bot and
    [(newX, newY)] its projected position: the heading is reflected to
    [PI - heading] when [newX] is near an x-edge, and then negated when
    [newY] is near a y-edge; a coordinate near an edge is clamped into
    [50, size - 50]; the target heading becomes the final heading when
    either edge was near.  In particular a bot whose projected x is below 50
    ends with [x = 50], and with heading [PI - heading] when [newY] is not
    near an edge, [- (PI - heading)] when it is. *)
Lemma moveBot_bounce (bot : Entity.t) :
  let heading := smoothed bot in
  let newX := fst (projected env bot) in
  let newY := snd (projected env bot) in
  let xEdge := nearEdge gameConfig.worldWidth newX in
  let yEdge := nearEdge gameConfig.worldHeight newY in
  let moved := moveBot env bot in
  let reflected := if xEdge then (Math.PI - heading)%num else heading in
  Entity.direction moved = (if yEdge then (- reflected)%num else reflected) /\
  Entity.targetDirection moved
  = (if xEdge || yEdge then Entity.direction moved else Entity.targetDirection bot) /\
  Entity.x moved
  = (if xEdge then Math.max 50 (Math.min (gameConfig.worldWidth - 50)%Q newX) else newX) /\
  Entity.y moved
  = (if yEdge then Math.max 50 (Math.min (gameConfig.worldHeight - 50)%Q newY) else newY) /\
  (xEdge = true -> (50 <= Entity.x moved <= (gameConfig.worldWidth - 50)%Q)%num) /\
  (yEdge = true -> (50 <= Entity.y moved <= (gameConfig.worldHeight - 50)%Q)%num) /\
  ((newX < 50)%num ->
   Entity.x moved = 50 /\
   Entity.direction moved
   = (if yEdge then (- (Math.PI - heading))%num else (Math.PI - heading)%num)).
Proof.
  intros heading newX newY xEdge yEdge moved reflected.
  assert (moved = Entity.set_y
                    (if yEdge then Math.max 50 (Math.min (gameConfig.worldHeight - 50)%Q newY) else newY)
                    (Entity.set_x
                       (if xEdge then Math.max 50 (Math.min (gameConfig.worldWidth - 50)%Q newX) else newX)
                       (Entity.set_targetDirection
                          (if yEdge then (- reflected)%num
                           else if xEdge then reflected else Entity.targetDirection bot)
                          (Entity.set_direction (if yEdge then (- reflected)%num else reflected) bot)))) as E.
  { unfold moved, moveBot, reflected, xEdge, yEdge, newX, newY, heading.
    destruct (projected env bot) as [nx ny]. cbn [fst snd].
    unfold bounceOffWalls, nearEdge.
    destruct (Math.ltb nx 50 || Math.ltb (gameConfig.worldWidth - 50)%Q nx);
      destruct (Math.ltb ny 50 || Math.ltb (gameConfig.worldHeight - 50)%Q ny); reflexivity. }
  rewrite E. cbn [Entity.direction Entity.targetDirection Entity.x Entity.y
                  Entity.set_y Entity.set_x Entity.set_targetDirection Entity.set_direction].
  split; [reflexivity|].
  split; [destruct xEdge, yEdge; reflexivity|].
  split; [reflexivity|].
  split; [reflexivity|].
  split.
  { intro X. rewrite X. apply nearEdge_clamped; [discriminate|].
    intro N. unfold xEdge, nearEdge in X. rewrite N in X. discriminate X. }
  split.
  { intro Y. rewrite Y. apply nearEdge_clamped; [discriminate|].
    intro N. unfold yEdge, nearEdge in Y. rewrite N in Y. discriminate Y. }
  intro L.
  assert (xEdge = true) as X.
  { unfold xEdge, nearEdge. apply Math_ltb_lt in L. rewrite L. reflexivity. }
  rewrite X. split.
  - destruct newX as [nx|]; [|destruct L]. simpl in L. simpl.
    unfold Rat.max, Rat.min.
    assert (Qle_bool 50 nx = false) as L1 by (apply Qle_bool_false; exact L).
    assert (Qle_bool (gameConfig.worldWidth - 50)%Q nx = false) as L2.
    { apply Qle_bool_false. apply Qlt_trans with 50; [exact L | reflexivity]. }
    rewrite L2, L1. reflexivity.
  - unfold reflected. rewrite X. reflexivity.
Qed.

Local Open Scope Z_scope.

(** * More about the server *)

(** ** The leaderboard *)

Lemma insertByScore_perm a l : Permutation (insertByScore a l) (a :: l).
Proof.
  induction l as [|b l IH]; simpl; [apply Permutation_refl|].
  destruct (Entity.score b <=? Entity.score a); [apply Permutation_refl|].
  apply perm_trans with (b :: a :: l); [apply perm_skip, IH | apply perm_swap].
Qed.

Lemma sortByScore_perm l : Permutation (sortByScore l) l.
Proof.
  induction l as [|a l IH]; simpl; [constructor|].
  apply perm_trans with (a :: sortByScore l); [apply insertByScore_perm | apply perm_skip, IH].
Qed.

Lemma insertByScore_sorted a l :
  StronglySorted byScore l -> StronglySorted byScore (insertByScore a l).
Proof.
  induction l as [|b l IH]; simpl; intro S.
  - constructor; constructor.
  - inversion S as [|? ? Sl Fb]; subst.
    destruct (Entity.score b <=? Entity.score a) eqn:E.
    + apply Z.leb_le in E. constructor; trivial.
      constructor; [exact E|].
      eapply Forall_impl; [|exact Fb]. unfold byScore. intros c H. lia.
    + apply Z.leb_gt in E. constructor; [auto|].
      apply (Permutation_Forall (Permutation_sym (insertByScore_perm a l))).
      constructor; [unfold byScore; lia | exact Fb].
Qed.

Lemma sortByScore_sorted l : StronglySorted byScore (sortByScore l).
Proof.
  induction l as [|a l IH]; simpl; [constructor | apply insertByScore_sorted, IH].
Qed.

Lemma In_firstn_In (A : Type) n (l : list A) x : In x (firstn n l) -> In x l.
Proof.
  intro I. rewrite <- (firstn_skipn n l). apply in_or_app. left. exact I.
Qed.

Lemma StronglySorted_firstn (A : Type) (R : A -> A -> Prop) n (l : list A) :
  StronglySorted R l -> StronglySorted R (firstn n l).
Proof.
  revert l. induction n as [|n IH]; intros l S; simpl; [constructor|].
  destruct l as [|a l]; [constructor|].
  inversion S as [|? ? Sl Fa]; subst. constructor; [auto|].
  rewrite Forall_forall in *. intros x I. apply Fa. eapply In_firstn_In. exact I.
Qed.

Lemma StronglySorted_split (A : Type) (R : A -> A -> Prop) (l1 l2 : list A) :
  StronglySorted R (l1 ++ l2) -> forall x y, In x l1 -> In y l2 -> R x y.
Proof.
  induction l1 as [|a l1 IH]; simpl; intros S x y Ix Iy; [contradiction|].
  inversion S as [|? ? Sl Fa]; subst. destruct Ix as [<- | Ix].
  - rewrite Forall_forall in Fa. apply Fa. apply in_or_app. right. exact Iy.
  - eapply IH; eauto.
Qed.

(** X1.  The leaderboard has a row for each of the first ten entities, or for
    all of them when they are fewer. *)
Theorem leaderboard_length (w : World) :
  List.length (getLeaderboard w) = Nat.min 10 (List.length (entities w)).
Proof.
  unfold getLeaderboard. cbv zeta. fold (entities w).
  rewrite length_map, length_firstn.
  rewrite (Permutation_length (sortByScore_perm (entities w))). reflexivity.
Qed.

(** X2.  The rows of the leaderboard come by descending score. *)
Theorem leaderboard_descending (w : World) :
  StronglySorted outranks (getLeaderboard w).
Proof.
  unfold getLeaderboard. cbv zeta. fold (entities w).
  assert (StronglySorted byScore (firstn 10 (sortByScore (entities w)))) as S
      by apply StronglySorted_firstn, sortByScore_sorted.
  induction S as [|a l S IH F]; simpl; constructor; trivial.
  rewrite Forall_forall in *. intros r I. apply in_map_iff in I.
  destruct I as (b & <- & I). exact (F b I).
Qed.

(** X3.  An entity that has no row on the leaderboard scores no more than any
    row that is on it. *)
Theorem leaderboard_top (w : World) (e : Entity.t) :
  In e (entities w) ->
  In (leaderboardRow e) (getLeaderboard w) \/
  (forall r, In r (getLeaderboard w) -> Entity.score e <= row_score r).
Proof.
  intro I. unfold getLeaderboard. cbv zeta. fold (entities w).
  set (l := sortByScore (entities w)).
  assert (In e (firstn 10 l ++ skipn 10 l)) as I'.
  { rewrite firstn_skipn. apply (Permutation_in _ (Permutation_sym (sortByScore_perm _)) I). }
  apply in_app_or in I'. destruct I' as [I' | I'].
  - left. apply in_map. exact I'.
  - right. intros r Ir. apply in_map_iff in Ir. destruct Ir as (b & <- & Ib).
    assert (StronglySorted byScore (firstn 10 l ++ skipn 10 l)) as S
        by (rewrite firstn_skipn; apply sortByScore_sorted).
    change (byScore b e). eapply StronglySorted_split; [exact S | exact Ib | exact I'].
Qed.

(** X4.  When there are at most ten players and bots, every one of them has its
    row on the leaderboard. *)
Theorem leaderboard_complete (w : World) (e : Entity.t) :
  (List.length (entities w) <= 10)%nat ->
  In e (entities w) ->
  In (leaderboardRow e) (getLeaderboard w).
Proof.
  intros L I. unfold getLeaderboard. cbv zeta. fold (entities w).
  apply in_map. rewrite firstn_all2.
  - apply (Permutation_in _ (Permutation_sym (sortByScore_perm _)) I).
  - rewrite (Permutation_length (sortByScore_perm (entities w))). exact L.
Qed.

(** ** Bots *)

Local Open Scope Q_scope.

(** [bot.speed || gameConfig.botSpeed] is a number, whatever the speed. *)
Lemma currentSpeed_isNumber (bot : Entity.t) : Number.isNumber (currentSpeed bot).
Proof.
  unfold currentSpeed, Number.or. destruct (Entity.speed bot) as [p|].
  - destruct (Qeq_bool p 0); eexists; reflexivity.
  - eexists; reflexivity.
Qed.

Lemma smoothed_isNumber (bot : Entity.t) : numeric bot -> Number.isNumber (smoothed bot).
Proof.
  intros (_ & _ & D & T). unfold smoothed, Number.add, Number.mul, Number.sub.
  repeat (apply lift2_isNumber; split); trivial. eexists; reflexivity.
Qed.

Lemma projected_isNumber (bot : Entity.t) :
  numeric bot ->
  Number.isNumber (fst (projected env bot)) /\ Number.isNumber (snd (projected env bot)).
Proof.
  intros N. pose proof (smoothed_isNumber N) as S. pose proof (currentSpeed_isNumber bot) as C.
  destruct N as (X & Y & _ & _).
  unfold projected, Number.add, Number.mul, cos, sin. cbn [fst snd].
  split; repeat (apply lift2_isNumber; split); trivial; apply lift1_isNumber; exact S.
Qed.

(** A step of a bot whose position and headings are numbers leaves them
    numbers. *)
Lemma moveBot_numeric (bot : Entity.t) : numeric bot -> numeric (moveBot env bot).
Proof.
  intro N. destruct (projected_isNumber N) as [[nx EX] [ny EY]].
  pose proof (smoothed_isNumber N) as [h H].
  destruct N as (_ & _ & _ & [t T]).
  unfold numeric, moveBot. rewrite H, T. destruct (projected env bot) as [px py].
  cbn [fst snd] in EX, EY. subst px py.
  unfold bounceOffWalls. cbn [Math.ltb Math.max Math.min Number.lift2].
  destruct (Rat.ltb nx 50 || Rat.ltb (gameConfig.worldWidth - 50) nx);
    destruct (Rat.ltb ny 50 || Rat.ltb (gameConfig.worldHeight - 50) ny);
    cbn [Entity.x Entity.y Entity.direction Entity.targetDirection Entity.set_y Entity.set_x
         Entity.set_targetDirection Entity.set_direction];
    repeat split; eexists; reflexivity.
Qed.

(** A bot that has a position after its step is inside the margin. *)
Lemma moveBot_inside_margin_cond (bot : Entity.t) :
  numeric (moveBot env bot) -> insideMargin (moveBot env bot).
Proof.
  unfold numeric, insideMargin, moveBot. destruct (projected env bot) as [px py].
  unfold bounceOffWalls.
  destruct px as [nx|], py as [ny|]; cbn [Math.ltb Math.max Math.min Number.lift2 orb];
    try (destruct (Rat.ltb nx 50 || Rat.ltb (gameConfig.worldWidth - 50) nx) eqn:EX);
    try (destruct (Rat.ltb ny 50 || Rat.ltb (gameConfig.worldHeight - 50) ny) eqn:EY);
    cbn [Entity.x Entity.y Entity.set_y Entity.set_x Entity.set_targetDirection
         Entity.set_direction Number.le];
    intros ([x X] & [y Y] & _); try discriminate;
    split;
    try (apply clamp_bounds; discriminate);
    match goal with
    | H : (_ || _)%bool = false |- _ =>
        apply orb_false_iff in H; destruct H as [H1 H2];
        apply ltb_ge in H1; apply ltb_ge in H2; split; assumption
    end.
Qed.

(** X5.  Wherever a bot stands and heads, and whatever its speed, "Move
    bot" and "Bounce off walls" leave it at least 50 units away from every
    wall.  A position and headings that are numbers, as they are in every
    world the server can reach (see [Numeric_run]), are numbers after the
    step; and a bot whose position and headings are numbers after the step
    is inside the margin. *)
Theorem moveBot_inside_margin (bot : Entity.t) :
  let moved := moveBot env bot in
  (numeric bot -> numeric moved) /\
  (numeric moved ->
   (50 <= Entity.x moved <= (gameConfig.worldWidth - 50)%Q)%num /\
   (50 <= Entity.y moved <= (gameConfig.worldHeight - 50)%Q)%num).
Proof.
  split; [exact (@moveBot_numeric bot) | exact (@moveBot_inside_margin_cond bot)].
Qed.

Lemma atLeast_lt bot d d' c :
  (d' < d)%num -> atLeast env d bot c -> atLeast env d' bot c.
Proof.
  intros L [H|H]; [left; exact H | right]. eapply lt_le_trans; eauto.
Qed.

Lemma atLeast_ltb_false bot d c :
  Number.isNumber d -> Math.ltb (distanceFrom env bot c) d = false -> atLeast env d bot c.
Proof.
  intros [q ->] H. apply Math_ltb_ge in H. destruct H as [H|[H|H]].
  - left. exact H.
  - discriminate.
  - right. exact H.
Qed.

Lemma nearestAmong_ext bot (seen seen' : Entity.t -> Prop) acc :
  (forall c, seen' c <-> seen c) -> nearestAmong env bot seen acc -> nearestAmong env bot seen' acc.
Proof.
  intros E. unfold nearestAmong. destruct acc as [[enemy d]|].
  - intros (H1 & H2 & H3 & H4). repeat split; trivial.
    + apply E. exact H1.
    + intros other S. apply H4, E, S.
  - intros H other S. apply H, E, S.
Qed.

Lemma nearer_step bot among_bots seen acc other :
  nearestAmong env bot seen acc ->
  nearestAmong env bot (fun c => seen c \/ (c = other /\ eligible among_bots bot c))
               (nearer env bot among_bots acc other).
Proof.
  intro H. unfold nearer.
  destruct ((among_bots && String.eqb (Entity.id other) (Entity.id bot))
            || negb (Entity.alive other))%bool eqn:Skip.
  - (* the entity is skipped *)
    apply nearestAmong_ext with (seen := seen); trivial.
    intro c. split; [|tauto]. intros [S | [-> [A N]]]; trivial. exfalso.
    apply orb_true_iff in Skip. destruct Skip as [Skip | Skip].
    + apply andb_true_iff in Skip. destruct Skip as [-> Skip].
      apply String.eqb_eq in Skip. exact (N eq_refl Skip).
    + rewrite A in Skip. discriminate.
  - apply orb_false_iff in Skip. destruct Skip as [Other Alive].
    apply negb_false_iff in Alive.
    assert (eligible among_bots bot other) as El.
    { split; trivial. intros -> E. apply String.eqb_eq in E.
      rewrite E in Other. discriminate. }
    cbv zeta. fold (distanceFrom env bot other).
    assert (Number.isNumber gameConfig.botDetectionRange) as NR by (eexists; reflexivity).
    destruct acc as [[enemy d]|]; cbn [nearestAmong] in H |- *.
    + destruct H as (H1 & H2 & H3 & H4).
      destruct (Math.ltb (distanceFrom env bot other) d) eqn:Nearer; cbn [andb].
      * destruct (Math.ltb (distanceFrom env bot other) gameConfig.botDetectionRange) eqn:Within.
        -- apply Math_ltb_lt in Nearer. apply Math_ltb_lt in Within.
           repeat split; trivial; [right; tauto|].
           intros c [S | [-> _]].
           ++ eapply atLeast_lt; [exact Nearer | auto].
           ++ right. apply le_refl. apply (lt_isNumber _ _ Nearer).
        -- repeat split; trivial; [left; trivial|].
           intros c [S | [-> _]]; auto.
           eapply atLeast_lt; [exact H3|]. apply atLeast_ltb_false; trivial.
      * repeat split; trivial; [left; trivial|].
        intros c [S | [-> _]]; auto.
        apply atLeast_ltb_false; trivial. apply (lt_isNumber _ _ H3).
    + cbn [andb].
      destruct (Math.ltb (distanceFrom env bot other) gameConfig.botDetectionRange) eqn:Within.
      * apply Math_ltb_lt in Within. repeat split; trivial; [right; tauto|].
        intros c [S | [-> _]].
        -- eapply atLeast_lt; [exact Within | auto].
        -- right. apply le_refl. apply (lt_isNumber _ _ Within).
      * intros c [S | [-> _]]; auto. apply atLeast_ltb_false; trivial.
Qed.

Lemma nearer_loop bot among_bots l seen acc :
  nearestAmong env bot seen acc ->
  nearestAmong env bot (fun c => seen c \/ (In c l /\ eligible among_bots bot c))
               (fold_left (nearer env bot among_bots) l acc).
Proof.
  revert seen acc. induction l as [|other l IH]; intros seen acc H; simpl.
  - apply nearestAmong_ext with (seen := seen); trivial. intro c. tauto.
  - apply nearer_step with (among_bots := among_bots) (other := other) in H. apply IH in H.
    revert H. apply nearestAmong_ext. intro c. split.
    + intros [S | [[<- | I] El]]; tauto.
    + intros [[S | [-> El]] | [I El]]; tauto.
Qed.

Lemma nearestEnemy_nearestAmong (bot : Entity.t) (w : World) :
  nearestAmong env bot (visibleTo bot w) (nearestEnemy env bot w).
Proof.
  unfold nearestEnemy.
  assert (nearestAmong env bot (fun _ => False) None) as H0 by (intros c []).
  apply nearer_loop with (among_bots := false) (l := Map.values (players w)) in H0.
  apply nearer_loop with (among_bots := true) (l := Map.values (bots w)) in H0.
  revert H0. apply nearestAmong_ext. intro c. unfold visibleTo, eligible. split.
  - intros [A [I | [I N]]].
    + left. right. split; trivial. split; trivial. discriminate.
    + right. split; trivial. split; trivial.
  - intros [[[] | [I [A _]]] | [I [A N]]]; split; trivial.
    + left. exact I.
    + right. split; trivial. apply N. reflexivity.
Qed.

(** X6.  Perception.  When a bot has found an enemy, that enemy is a living
    player or another living bot, it is closer than [botDetectionRange],
    and nothing the bot looks at is closer; when it has found none, nothing
    it looks at is within the range.  (An entity at a distance that is NaN
    is never found: it counts as out of range.) *)
Theorem nearestEnemy_nearest (bot : Entity.t) (w : World) :
  match nearestEnemy env bot w with
  | Some (enemy, nearestDistance) =>
      visibleTo bot w enemy /\
      nearestDistance = distanceFrom env bot enemy /\
      (nearestDistance < gameConfig.botDetectionRange)%num /\
      (forall other, visibleTo bot w other ->
                     distanceFrom env bot other = NaN \/
                     (nearestDistance <= distanceFrom env bot other)%num)
  | None =>
      forall other, visibleTo bot w other ->
                    distanceFrom env bot other = NaN \/
                    (gameConfig.botDetectionRange <= distanceFrom env bot other)%num
  end.
Proof. exact (nearestEnemy_nearestAmong bot w). Qed.


Local Open Scope Z_scope.

(** ** The population manager *)

Lemma manageBotPopulation_settled w :
  populationBounded w -> exec (manageBotPopulation env) w = w.
Proof.
  intros [Few Many]. cbv zeta in Few, Many. unfold manageBotPopulation.
  rewrite exec_bind. cbn [get_world fst]. change (exec get_world w) with w.
  rewrite exec_bind.
  set (total := Map.size (players w) + Map.size (bots w)) in *.
  assert (0 <= Map.size (bots w)) as B0 by (unfold Map.size; lia).
  assert ((total <? gameConfig.minBots) = false) as Lo.
  { apply Z.ltb_ge. unfold gameConfig.minBots, gameConfig.maxBots in *. lia. }
  rewrite Lo. change (exec skip w) with w.
  rewrite exec_bind. cbn [get_world fst]. change (exec get_world w) with w.
  assert (((0 <? Map.size (bots w)) && (gameConfig.maxBots <? total))%bool = false) as Rm.
  { apply andb_false_iff.
    destruct (Z.le_gt_cases (Map.size (players w)) gameConfig.maxBots) as [L | L].
    - right. apply Z.ltb_ge. apply Few in L. lia.
    - left. apply Z.ltb_ge. apply Many in L. lia. }
  rewrite Rm. reflexivity.
Qed.

(** X7.  Running the population manager a second time changes nothing. *)
Theorem manageBotPopulation_idempotent (history : list Input) :
  let w := run env history initialWorld in
  exec (manageBotPopulation env) (exec (manageBotPopulation env) w)
  = exec (manageBotPopulation env) w.
Proof.
  intro w. apply manageBotPopulation_settled, manageBotPopulation_bounded.
  apply Inv_run, Inv_initialWorld.
Qed.

Lemma removeBots_oldest n w :
  let w' := exec (forEach (firstn n (Map.keys (bots w))) removeBot) w in
  bots w' = skipn n (bots w) /\
  players w' = players w /\
  sent w' = (sent w ++ List.map (fun kb => (io_emit, Event.playerLeft (fst kb) (Entity.score (snd kb))))
                                (firstn n (bots w)))%list.
Proof.
  revert w. induction n as [|n IH]; intro w; cbv zeta.
  - simpl. rewrite app_nil_r. repeat split.
  - destruct (bots w) as [|[k b] m] eqn:E.
    + unfold Map.keys. cbn [List.map firstn forEach skipn].
      change (exec skip w) with w. rewrite app_nil_r. repeat split. exact E.
    + unfold Map.keys. cbn [List.map firstn fst forEach]. rewrite exec_bind.
      set (w1 := exec (removeBot k) w).
      assert (bots w1 = m /\ players w1 = players w /\
              sent w1 = (sent w ++ [(io_emit, Event.playerLeft k (Entity.score b))])%list)
        as (B1 & P1 & S1).
      { unfold w1, removeBot, exec, bind. cbn [deref fst snd]. rewrite E.
        cbn [Map.get]. rewrite String.eqb_refl. simpl. rewrite E. simpl.
        rewrite String.eqb_refl. repeat split. }
      specialize (IH w1). cbv zeta in IH. rewrite B1 in IH.
      destruct IH as (IB & IP & IS). fold (Map.keys m).
      rewrite IB, IP, IS, P1, S1. cbn [skipn List.map snd fst].
      rewrite <- app_assoc. repeat split.
Qed.

(** X8.  With more entities than [maxBots], the manager removes bots and no
    player: the oldest bots first, as many as exceed [maxBots] or all of
    them, with a leave notice for each. *)
Theorem manageBotPopulation_removes_oldest (w : World) :
  let totalPlayers := Map.size (players w) + Map.size (bots w) in
  let botsToRemove := Z.to_nat (Z.min (Map.size (bots w)) (totalPlayers - gameConfig.maxBots)) in
  let w' := exec (manageBotPopulation env) w in
  gameConfig.maxBots < totalPlayers ->
  0 < Map.size (bots w) ->
  players w' = players w /\
  bots w' = skipn botsToRemove (bots w) /\
  sent w' = (sent w ++ List.map (fun kb => (io_emit, Event.playerLeft (fst kb) (Entity.score (snd kb))))
                                (firstn botsToRemove (bots w)))%list.
Proof.
  intros total n w' T B. unfold w', manageBotPopulation.
  rewrite exec_bind. cbn [get_world fst]. change (exec get_world w) with w.
  rewrite exec_bind. fold total.
  assert ((total <? gameConfig.minBots) = false) as Lo.
  { apply Z.ltb_ge. unfold gameConfig.minBots, gameConfig.maxBots in *. lia. }
  rewrite Lo. change (exec skip w) with w.
  rewrite exec_bind. cbn [get_world fst]. change (exec get_world w) with w.
  apply Z.ltb_lt in T. apply Z.ltb_lt in B. rewrite T, B. cbn [andb]. cbv zeta.
  destruct (removeBots_oldest n w) as (E1 & E2 & E3). fold n.
  repeat split; assumption.
Qed.

Lemma spawn_appends n w :
  Inv w ->
  exists added,
    bots (exec (times n (createBot env ;; skip)) w) = (bots w ++ added)%list /\
    List.length added = n /\
    players (exec (times n (createBot env ;; skip)) w) = players w /\
    Forall (fun kb => Entity.id (snd kb) = fst kb /\ Entity.alive (snd kb) = true /\
                      Entity.health (snd kb) = gameConfig.maxHealth) added /\
    sent (exec (times n (createBot env ;; skip)) w)
    = (sent w ++ List.map (fun kb => (io_emit, Event.playerJoined (snd kb))) added)%list.
Proof.
  revert w. induction n as [|n IH]; intros w HI.
  - exists []. simpl. rewrite !app_nil_r. repeat split. constructor.
  - simpl times. rewrite exec_bind.
    change (exec (createBot env;; skip) w) with (exec (createBot env) w).
    set (w1 := exec (createBot env) w).
    assert (Inv w1) as HI1 by (apply Inv_createBot; exact HI).
    assert (Map.get ("bot_" ++ decimal (botIdCounter w))%string (bots w) = None) as G.
    { apply MapFacts.get_keys. intro I.
      pose proof (inv_botIds HI) as F. rewrite Forall_forall in F.
      exact (bot_key_fresh (F _ I) eq_refl). }
    assert (exists bot,
               bots w1 = (bots w ++ [(("bot_" ++ decimal (botIdCounter w))%string, bot)])%list /\
               Entity.id bot = ("bot_" ++ decimal (botIdCounter w))%string /\
               Entity.alive bot = true /\ Entity.health bot = gameConfig.maxHealth /\
               players w1 = players w /\
               sent w1 = (sent w ++ [(io_emit, Event.playerJoined bot)])%list)
      as (bot & B1 & I1 & A1 & H1 & P1 & S1).
    { eexists. unfold w1, exec. simpl.
      split; [apply MapFacts.set_fresh; exact G|]. repeat split. }
    clearbody w1.
    destruct (IH w1 HI1) as (added & B & L & P & F & St).
    exists ((("bot_" ++ decimal (botIdCounter w))%string, bot) :: added).
    rewrite B, B1, P, P1, St, S1, <- !app_assoc. simpl.
    repeat split; trivial.
    + congruence.
    + constructor; [repeat split; assumption | exact F].
Qed.

(** X9.  With fewer entities than [minBots], the manager adds exactly the bots
    that are missing, after the bots there are, each alive, at full health
    and announced to every session; it changes no player and removes
    nothing. *)
Theorem manageBotPopulation_fills (history : list Input) :
  let w := run env history initialWorld in
  let totalPlayers := Map.size (players w) + Map.size (bots w) in
  let w' := exec (manageBotPopulation env) w in
  totalPlayers < gameConfig.minBots ->
  exists added,
    bots w' = (bots w ++ added)%list /\
    Z.of_nat (List.length added) = gameConfig.minBots - totalPlayers /\
    players w' = players w /\
    Forall (fun kb => Entity.id (snd kb) = fst kb /\ Entity.alive (snd kb) = true /\
                      Entity.health (snd kb) = gameConfig.maxHealth) added /\
    sent w' = (sent w ++ List.map (fun kb => (io_emit, Event.playerJoined (snd kb))) added)%list.
Proof.
  intros w total w' T.
  assert (Inv w) as HI by (apply Inv_run, Inv_initialWorld).
  unfold w', manageBotPopulation.
  rewrite exec_bind. cbn [get_world fst]. change (exec get_world w) with w.
  rewrite exec_bind. fold total.
  destruct (spawn_appends (Z.to_nat (gameConfig.minBots - total)) HI)
    as (added & B & L & P & F & St).
  apply Z.ltb_lt in T. rewrite T.
  set (w1 := exec (times _ _) w) in *. clearbody w1.
  rewrite exec_bind. cbn [get_world fst]. change (exec get_world w1) with w1.
  assert ((gameConfig.maxBots <? total) = false) as Hi.
  { apply Z.ltb_ge. apply Z.ltb_lt in T. unfold gameConfig.maxBots, gameConfig.minBots in *. lia. }
  rewrite Hi, andb_false_r. change (exec skip w1) with w1.
  exists added. repeat split; trivial.
  rewrite L. apply Z.ltb_lt in T. lia.
Qed.

(** ** New bots *)

(** X10.  A new bot never replaces a bot: its id [`bot_${botIdCounter}`] is not
    in use, and it is stored after all the bots there are, alive, at full
    health and without score, and announced to every session. *)
Theorem createBot_fresh (history : list Input) :
  let w := run env history initialWorld in
  let botId := ("bot_" ++ decimal (botIdCounter w))%string in
  let w' := exec (createBot env) w in
  Map.get botId (bots w) = None /\
  exists bot,
    bots w' = (bots w ++ [(botId, bot)])%list /\
    Entity.id bot = botId /\
    Entity.alive bot = true /\
    Entity.health bot = gameConfig.maxHealth /\
    Entity.score bot = 0 /\
    Entity.isBot bot = true /\
    players w' = players w /\
    botIdCounter w' = S (botIdCounter w) /\
    sent w' = (sent w ++ [(io_emit, Event.playerJoined bot)])%list.
Proof.
  intros w botId w'.
  assert (Inv w) as HI by (apply Inv_run, Inv_initialWorld).
  assert (Map.get botId (bots w) = None) as G.
  { apply MapFacts.get_keys. intro I.
    pose proof (inv_botIds HI) as F. rewrite Forall_forall in F.
    exact (bot_key_fresh (F _ I) eq_refl). }
  split; [exact G|].
  eexists. unfold w', exec. simpl.
  split; [apply MapFacts.set_fresh; exact G|].
  repeat split.
Qed.

(** X11.  The name of a new bot is one of the ten bot names, whenever
    [Math.random()] is in [0, 1). *)
Theorem createBot_name (w : World) :
  (0 <= random_stream env (randomCalls w) < 1)%Q ->
  exists botName,
    In botName botNames /\
    Entity.name (fst (createBot env w)) = ("[BOT] " ++ botName)%string.
Proof.
  intros [R0 R1].
  set (r := random_stream env (randomCalls w)) in *.
  exists (element botNames (Math.floor (r * inject_Z (Z.of_nat (List.length botNames))))).
  split; [|reflexivity].
  assert (0 <= Math.floor (r * inject_Z (Z.of_nat (List.length botNames))) < 10) as [F0 F1].
  { unfold Math.floor. simpl List.length. split.
    - change 0 with (Qfloor 0). apply Qfloor_resp_le.
      apply Qmult_le_0_compat; [exact R0 | discriminate].
    - assert (r * inject_Z (Z.of_nat 10) < inject_Z 10)%Q as L.
      { change (inject_Z (Z.of_nat 10)) with (inject_Z 10).
        setoid_replace (inject_Z 10) with (1 * inject_Z 10)%Q at 2 by ring.
        apply Qmult_lt_compat_r; [reflexivity | exact R1]. }
      apply Qlt_not_le in L. apply Z.lt_nge. intro C. apply L.
      apply Qle_trans with (inject_Z (Qfloor (r * inject_Z (Z.of_nat 10)))).
      + rewrite <- Zle_Qle. exact C.
      + apply Qfloor_le. }
  set (i := Math.floor (r * inject_Z (Z.of_nat (List.length botNames)))) in *. clearbody i.
  unfold element. apply Z.ltb_ge in F0. rewrite F0. apply Z.ltb_ge in F0.
  apply nth_In. simpl List.length. lia.
Qed.

(** ** Shooting *)

(** X12.  A shot of a living player that comes less than [shootCooldown] after
    the time stamped in [lastShoot] is dropped: no bullet, no message, no
    player changed.  Any other shot of a living player stamps [lastShoot]
    and stores one bullet under [`bullet_${bulletIdCounter}`]: it starts at
    the shooter's position, flies [bulletSpeed] per tick along [angle]
    (its velocity is NaN when the angle received is not a finite number),
    and is announced to every session. *)
Theorem shoot_cooldown (w : World) (socket_id : string) (player : Entity.t) (angle : Received.t) :
  Map.get socket_id (players w) = Some player ->
  Entity.alive player = true ->
  let now := clock_stream env (clockCalls w) in
  let w' := exec (on_shoot env socket_id angle) w in
  if now - Entity.lastShoot player <? gameConfig.shootCooldown
  then players w' = players w /\ bullets w' = bullets w /\ sent w' = sent w
  else
    let bullet := {|
      Bullet.id := ("bullet_" ++ decimal (bulletIdCounter w))%string;
      Bullet.ownerId := Entity.id player;
      Bullet.ownerName := Entity.name player;
      Bullet.x := Entity.x player;
      Bullet.y := Entity.y player;
      Bullet.vx := (cos env (Received.angle angle) * gameConfig.bulletSpeed)%num;
      Bullet.vy := (sin env (Received.angle angle) * gameConfig.bulletSpeed)%num;
      Bullet.damage := gameConfig.bulletDamage;
      Bullet.color := Entity.color player;
      Bullet.createdAt := now
    |} in
    bullets w' = Map.set (Bullet.id bullet) bullet (bullets w) /\
    bulletIdCounter w' = S (bulletIdCounter w) /\
    players w' = Map.mutate socket_id (Entity.set_lastShoot now) (players w) /\
    sent w' = (sent w ++ [(io_emit, Event.bulletFired bullet)])%list.
Proof.
  intros G A now w'. unfold w', on_shoot, exec, bind. cbn [deref fst snd].
  rewrite G, A. cbn [negb Date_now fst snd]. fold now.
  destruct (now - Entity.lastShoot player <? gameConfig.shootCooldown).
  - repeat split.
  - cbv zeta. repeat split.
Qed.

(** ** Connection and disconnection *)

(** X13.  A connection stores a new player under the socket id: alive, at full
    health, with no score, kills or deaths.  It changes no other player, no
    bot and no bullet.  The newcomer is sent the list of all entities, which
    includes itself; the others are told that it joined. *)
Theorem connection_effect (w : World) (socket_id : string) :
  let w' := exec (on_connection env socket_id) w in
  exists newPlayer,
    Map.get socket_id (players w') = Some newPlayer /\
    (forall id, id <> socket_id -> Map.get id (players w') = Map.get id (players w)) /\
    Entity.id newPlayer = socket_id /\
    Entity.alive newPlayer = true /\
    Entity.health newPlayer = gameConfig.maxHealth /\
    (Entity.score newPlayer, Entity.kills newPlayer, Entity.deaths newPlayer) = (0, 0, 0) /\
    Entity.isBot newPlayer = false /\
    bots w' = bots w /\
    bullets w' = bullets w /\
    In newPlayer (entities w') /\
    sent w' = (sent w ++ [(socket_emit socket_id, Event.gameSetup socket_id newPlayer (entities w'));
                          (socket_broadcast_emit socket_id, Event.playerJoined newPlayer)])%list.
Proof.
  cbv zeta. eexists. unfold exec at 1 2. simpl players.
  split; [apply MapFacts.get_set_same|].
  split; [intros id N; apply MapFacts.get_set_other; congruence|].
  do 5 (split; [reflexivity|]).
  split; [reflexivity|]. split; [reflexivity|]. split.
  - unfold entities, exec. simpl players. apply in_or_app. left.
    eapply MapFacts.get_In. apply MapFacts.get_set_same.
  - unfold exec. simpl. rewrite <- app_assoc. reflexivity.
Qed.

Lemma removeBot_frame bs ts botId :
  preserves (fun w => bullets w = bs /\ timers w = ts) (removeBot botId).
Proof.
  unfold removeBot. pres; intros w H; exact H.
Qed.

Lemma manageBotPopulation_frame bs ts :
  preserves (fun w => bullets w = bs /\ timers w = ts) (manageBotPopulation env).
Proof.
  unfold manageBotPopulation. pres; try apply removeBot_frame; intros w H; exact H.
Qed.

(** X14.  A disconnection removes the player of that socket and no other; the
    bullets it fired stay in flight and its respawn timers stay pending.
    The disconnection of a socket that has no player changes nothing. *)
Theorem disconnect_removes_only_leaver (w : World) (socket_id : string) :
  let w' := exec (on_disconnect env socket_id) w in
  players w' = Map.delete socket_id (players w) /\
  bullets w' = bullets w /\
  timers w' = timers w /\
  (Map.get socket_id (players w) = None -> w' = w).
Proof.
  cbv zeta. unfold on_disconnect. rewrite exec_bind. cbn [deref fst].
  change (exec (deref (inPlayers socket_id)) w) with w.
  destruct (Map.get socket_id (players w)) as [player|] eqn:G.
  - do 4 rewrite exec_bind. rewrite players_manageBotPopulation.
    match goal with
    | |- _ /\ bullets (exec _ ?w1) = _ /\ timers (exec _ ?w1) = _ /\ _ =>
        pose proof (@manageBotPopulation_frame (bullets w) (timers w) w1) as F
    end.
    split.
    + unfold exec. simpl players. apply MapFacts.delete_mutate.
    + destruct F as [F1 F2]; [split; reflexivity|].
      split; [exact F1|]. split; [exact F2 | discriminate].
  - change (exec skip w) with w. rewrite (MapFacts.delete_absent _ _ G). repeat split.
Qed.

(** ** Respawn *)

(** X15.  A respawn puts a connected player back alive, at full health, at a new
    random position, with both cooldowns cleared; it keeps the name, the
    join time, the score, the kills and the deaths.  It emits one
    [playerRespawned] with the new position.  For an id that is not
    connected it does nothing. *)
Theorem respawnPlayer_effect_full (w : World) (playerId : string) :
  let w' := exec (respawnPlayer env playerId) w in
  match Map.get playerId (players w) with
  | None => w' = w
  | Some player =>
      let x := (random_stream env (randomCalls w) * gameConfig.worldWidth)%Q in
      let y := (random_stream env (S (randomCalls w)) * gameConfig.worldHeight)%Q in
      exists respawned,
        Map.get playerId (players w') = Some respawned /\
        (Entity.x respawned, Entity.y respawned) = (num x, num y) /\
        (Entity.alive respawned, Entity.health respawned) = (true, gameConfig.maxHealth) /\
        (Entity.lastPing respawned, Entity.lastShoot respawned) = (0, 0) /\
        (Entity.name respawned, Entity.joinTime respawned) = (Entity.name player, Entity.joinTime player) /\
        (Entity.score respawned, Entity.kills respawned, Entity.deaths respawned)
        = (Entity.score player, Entity.kills player, Entity.deaths player) /\
        (forall id, id <> playerId -> Map.get id (players w') = Map.get id (players w)) /\
        sent w' = (sent w ++ [(io_emit, Event.playerRespawned playerId x y gameConfig.maxHealth)])%list
  end.
Proof.
  cbv zeta. unfold respawnPlayer, exec, bind. cbn [deref fst snd].
  destruct (Map.get playerId (players w)) as [player|] eqn:G; [|reflexivity].
  cbv [assign bind mutate modify_world emit Math_random ret]. cbn [fst snd]. simpl players.
  rewrite MapFacts.get_mutate_same, G. simpl.
  eexists. split; [reflexivity|]. simpl.
  do 5 (split; [reflexivity|]). split; [|reflexivity].
  intros id N. apply MapFacts.get_mutate_other. congruence.
Qed.

(** ** The tick *)

(** *** The clock only advances *)

Ltac clock_leaf :=
  let w := fresh in
  let H := fresh in
  intros w H; unfold clockFrom in *; first [ exact H | apply le_S; exact H ].

Hint Extern 4 (preserves (clockFrom _) _) => clock_leaf : pres.

Lemma clockFrom_mutate c0 r f : preserves (clockFrom c0) (mutate r f).
Proof. destruct r; clock_leaf. Qed.

Lemma clockFrom_assign c0 r f obj : preserves (clockFrom c0) (assign r f obj).
Proof. destruct r; clock_leaf. Qed.

Hint Resolve clockFrom_mutate clockFrom_assign : pres.

Lemma clockFrom_removeBot c0 botId : preserves (clockFrom c0) (removeBot botId).
Proof. unfold removeBot. pres. Qed.

Lemma clockFrom_manageBotPopulation c0 : preserves (clockFrom c0) (manageBotPopulation env).
Proof. unfold manageBotPopulation. pres. apply clockFrom_removeBot. Qed.

Lemma clockFrom_pursue c0 now self enemy nearestDistance bot :
  preserves (clockFrom c0) (pursue env now self enemy nearestDistance bot).
Proof. unfold pursue. pres. Qed.

Lemma clockFrom_wander c0 self bot : preserves (clockFrom c0) (wander env self bot).
Proof. unfold wander. pres. Qed.

Lemma clockFrom_updateBot c0 now botId : preserves (clockFrom c0) (updateBot env now botId).
Proof.
  unfold updateBot. pres; try apply clockFrom_pursue; try apply clockFrom_wander.
Qed.

Lemma clockFrom_updateBots c0 : preserves (clockFrom c0) (updateBots env).
Proof. unfold updateBots. pres. apply clockFrom_updateBot. Qed.

Lemma clockFrom_giveKillCredit c0 id : preserves (clockFrom c0) (giveKillCredit id).
Proof. unfold giveKillCredit. pres. Qed.

Lemma clockFrom_targetDied c0 bullet self target :
  preserves (clockFrom c0) (targetDied env bullet self target).
Proof. unfold targetDied. pres. apply clockFrom_giveKillCredit. Qed.

Lemma clockFrom_checkCollision c0 bulletId bullet self :
  preserves (clockFrom c0) (checkCollision env bulletId bullet self).
Proof. unfold checkCollision. pres. apply clockFrom_targetDied. Qed.

Lemma clockFrom_updateBullet c0 now bulletId :
  preserves (clockFrom c0) (updateBullet env now bulletId).
Proof. unfold updateBullet. pres. apply clockFrom_checkCollision. Qed.

Lemma clockFrom_updateBullets c0 : preserves (clockFrom c0) (updateBullets env).
Proof. unfold updateBullets. pres. apply clockFrom_updateBullet. Qed.

Lemma clockFrom_updateScore c0 self : preserves (clockFrom c0) (updateScore env self).
Proof. unfold updateScore. pres. Qed.

Lemma clockFrom_updateScores c0 l : preserves (clockFrom c0) (forEach l (updateScore env)).
Proof. pres. apply clockFrom_updateScore. Qed.

(** *** Scores *)

Lemma Ref_eq_dec (r r' : Ref) : {r = r'} + {r <> r'}.
Proof. decide equality; apply string_dec. Qed.

Lemma deref_mutate_other r r' f w :
  r' <> r -> fst (deref r (snd (mutate r' f w))) = fst (deref r w).
Proof.
  intro N. destruct r as [k|k], r' as [k'|k']; simpl; trivial;
    apply MapFacts.get_mutate_other; congruence.
Qed.

Lemma deref_mutate_same r f w :
  fst (deref r (snd (mutate r f w))) = option_map f (fst (deref r w)).
Proof. destruct r as [k|k]; simpl; apply MapFacts.get_mutate_same. Qed.

(** [updateScore] gives the entity it is called for a fresh score, and
    leaves the score of every other entity as it is. *)
Lemma updateScore_recomputed c0 r r' w :
  clockFrom c0 w ->
  r' = r \/ recomputedSince env c0 r w ->
  recomputedSince env c0 r (exec (updateScore env r') w).
Proof.
  intros C H. split; [apply clockFrom_updateScore; exact C|].
  unfold clockFrom in C. unfold updateScore, exec, bind. cbv beta zeta.
  change (snd (deref r' w)) with w.
  destruct (fst (deref r' w)) as [player|] eqn:D.
  - destruct (Entity.alive player) eqn:A.
    + cbv [Date_now]. cbn [fst snd]. intros e G A'.
      destruct (Ref_eq_dec r' r) as [-> | N].
      * rewrite deref_mutate_same in G.
        assert (fst (deref r (with_clockCalls (S (clockCalls w)) w)) = Some player) as G'
            by (destruct r; exact D).
        rewrite G' in G. injection G as <-.
        exists (clockCalls w). split; [destruct r; simpl; lia|]. reflexivity.
      * destruct H as [E | [_ H]]; [congruence|].
        rewrite deref_mutate_other in G by exact N.
        assert (fst (deref r w) = Some e) as G' by (destruct r; exact G).
        destruct (H e G' A') as (n & Hn & S).
        exists n. split; [destruct r'; simpl; lia | exact S].
    + cbn [snd skip ret]. destruct H as [-> | [_ H]]; [|exact H].
      intros e G A'. rewrite D in G. congruence.
  - cbn [snd skip ret]. destruct H as [-> | [_ H]]; [|exact H].
    intros e G. rewrite D in G. discriminate G.
Qed.

Lemma updateScores_recomputed c0 r l w :
  clockFrom c0 w ->
  In r l \/ recomputedSince env c0 r w ->
  recomputedSince env c0 r (exec (forEach l (updateScore env)) w).
Proof.
  revert w. induction l as [|r' l IH]; intros w C H.
  - destruct H as [[] | H]. exact H.
  - simpl forEach. rewrite exec_bind.
    assert (clockFrom c0 (exec (updateScore env r') w)) as C'
        by (apply clockFrom_updateScore; exact C).
    apply IH; trivial.
    destruct (Ref_eq_dec r' r) as [E | N].
    + right. apply updateScore_recomputed; auto.
    + destruct H as [[E | I] | H]; [congruence | left; exact I |].
      right. apply updateScore_recomputed; auto.
Qed.

Lemma keys_updateScores l w :
  Map.keys (players (exec (forEach l (updateScore env)) w)) = Map.keys (players w) /\
  Map.keys (bots (exec (forEach l (updateScore env)) w)) = Map.keys (bots w).
Proof.
  revert w. induction l as [|r l IH]; intro w; [split; reflexivity|].
  simpl forEach. rewrite exec_bind. destruct (IH (exec (updateScore env r) w)) as [E1 E2].
  rewrite E1, E2. unfold updateScore, exec, bind. cbv beta zeta.
  change (snd (deref r w)) with w.
  destruct (fst (deref r w)) as [player|];
    [destruct (Entity.alive player)|]; try (split; reflexivity).
  destruct r; simpl; rewrite MapFacts.keys_mutate; split; reflexivity.
Qed.

Lemma get_Some_key (V : Type) k (v : V) m : Map.get k m = Some v -> In k (Map.keys m).
Proof.
  intro G. destruct (in_dec string_dec k (Map.keys m)) as [I | N]; trivial.
  apply MapFacts.get_keys in N. congruence.
Qed.

(** X16.  Every tick recomputes the score of every living player and bot: after
    the tick it is [Math.floor((now - joinTime) / 1000) + kills * 100] for a
    reading [now] of the clock taken during the tick. *)
Theorem tick_recomputes_scores (w : World) (r : Ref) (e : Entity.t) :
  let w' := exec (tick env) w in
  fst (deref r w') = Some e ->
  Entity.alive e = true ->
  exists n, (clockCalls w <= n < clockCalls w')%nat /\ scoredAt env n e.
Proof.
  intro w'. unfold w', tick. do 3 rewrite exec_bind.
  set (w3 := exec (manageBotPopulation env) (exec (updateBullets env) (exec (updateBots env) w))).
  assert (clockFrom (clockCalls w) w3) as C3.
  { apply clockFrom_manageBotPopulation, clockFrom_updateBullets, clockFrom_updateBots.
    unfold clockFrom. lia. }
  rewrite exec_bind. cbn [get_world fst]. change (exec get_world w3) with w3.
  rewrite exec_bind.
  set (w4 := exec (forEach (List.map inPlayers (Map.keys (players w3))) (updateScore env)) w3).
  rewrite exec_bind. cbn [get_world fst]. change (exec get_world w4) with w4.
  rewrite exec_bind.
  set (w5 := exec (forEach (List.map inBots (Map.keys (bots w4))) (updateScore env)) w4).
  assert (recomputedSince env (clockCalls w) r w5) as [C5 H5].
  { destruct (keys_updateScores (List.map inPlayers (Map.keys (players w3))) w3) as [K1 K2].
    fold w4 in K1, K2.
    assert (clockFrom (clockCalls w) w4) as C4.
    { apply clockFrom_updateScores. exact C3. }
    destruct r as [k | k].
    - apply updateScores_recomputed; [exact C4|]. right.
      destruct (in_dec string_dec k (Map.keys (players w3))) as [I | N].
      + apply updateScores_recomputed; [exact C3|]. left. apply in_map. exact I.
      + split; [exact C4|]. intros e' G. exfalso.
        change (Map.get k (players w4) = Some e') in G.
        apply get_Some_key in G. rewrite K1 in G. exact (N G).
    - destruct (in_dec string_dec k (Map.keys (bots w4))) as [I | N].
      + apply updateScores_recomputed; [exact C4|]. left. apply in_map. exact I.
      + destruct (keys_updateScores (List.map inBots (Map.keys (bots w4))) w4) as [_ K4].
        fold w5 in K4. split.
        * apply clockFrom_updateScores. exact C4.
        * intros e' G. exfalso.
          change (Map.get k (bots w5) = Some e') in G.
          apply get_Some_key in G. rewrite K4 in G. exact (N G). }
  clearbody w5. clear w4 w3 C3.
  rewrite exec_bind. cbn [get_world fst]. change (exec get_world w5) with w5. cbv zeta.
  intros G A.
  assert (exists n, (clockCalls w <= n < clockCalls w5)%nat /\ scoredAt env n e) as (n & Hn & S).
  { apply H5; [|exact A].
    destruct (0 <? Z.of_nat (List.length (Map.values (players w5) ++ Map.values (bots w5))));
      destruct r; exact G. }
  exists n. split; [|exact S].
  destruct (0 <? Z.of_nat (List.length (Map.values (players w5) ++ Map.values (bots w5))));
    unfold exec; simpl; lia.
Qed.

(** X17.  A kill credit and the recomputation of the score commute: recomputing
    the score of a living entity after [kills++; score += 100] leaves it as
    it is after recomputing first and crediting then. *)
Theorem kill_credit_commutes (w : World) (r : Ref) (e : Entity.t) :
  fst (deref r w) = Some e ->
  Entity.alive e = true ->
  fst (deref r (exec (updateScore env r) (snd (mutate r credited w))))
  = fst (deref r (snd (mutate r credited (exec (updateScore env r) w)))).
Proof.
  intros G A.
  assert (forall u p, fst (deref r u) = Some p -> Entity.alive p = true ->
                      fst (deref r (exec (updateScore env r) u))
                      = Some (Entity.set_score
                                (secondsSinceJoin (clock_stream env (clockCalls u)) p
                                 + Entity.kills p * 100) p)) as Recompute.
  { intros u p Gu Au. unfold updateScore, exec, bind. cbv beta zeta.
    change (snd (deref r u)) with u. rewrite Gu, Au.
    cbv [Date_now]. cbn [fst snd]. rewrite deref_mutate_same.
    assert (fst (deref r (with_clockCalls (S (clockCalls u)) u)) = Some p) as Gu'
        by (destruct r; exact Gu).
    rewrite Gu'. reflexivity. }
  rewrite deref_mutate_same, (Recompute w e G A).
  assert (clockCalls (snd (mutate r credited w)) = clockCalls w) as C by (destruct r; reflexivity).
  rewrite (Recompute (snd (mutate r credited w)) (credited e)), C.
  - cbn [option_map]. f_equal. unfold credited, secondsSinceJoin.
    cbv [Entity.set_score Entity.set_kills].
    cbn [Entity.id Entity.name Entity.x Entity.y Entity.color Entity.lastPing Entity.alive
         Entity.joinTime Entity.score Entity.kills Entity.deaths Entity.health Entity.maxHealth
         Entity.lastShoot Entity.isBot Entity.direction Entity.targetDirection Entity.speed].
    f_equal. lia.
  - rewrite deref_mutate_same, G. reflexivity.
  - exact A.
Qed.

(** X18.  Every tick ends with a [gameState] for every session that lists the
    entities, the bullets and the leaderboard as the tick leaves them: once
    the server has started there is always somebody to list. *)
Theorem tick_broadcasts_state (history : list Input) :
  let w := run env history initialWorld in
  let w' := exec (tick env) w in
  exists earlier timestamp,
    sent w' = (earlier ++ [(io_emit, Event.gameState (entities w') (Map.values (bullets w'))
                                                     (getLeaderboard w') timestamp)])%list.
Proof.
  intros w w'.
  assert (Inv w) as HI by (apply Inv_run, Inv_initialWorld).
  unfold w', tick. do 3 rewrite exec_bind.
  set (w2 := exec (updateBullets env) (exec (updateBots env) w)).
  assert (Inv w2) as H2 by (apply Inv_updateBullets, Inv_updateBots, HI).
  set (w3 := exec (manageBotPopulation env) w2).
  assert (populationBounded w3) as H3 by (apply manageBotPopulation_bounded, H2).
  rewrite exec_bind. cbn [get_world fst]. change (exec get_world w3) with w3.
  rewrite exec_bind.
  set (w4 := exec (forEach (List.map inPlayers (Map.keys (players w3))) (updateScore env)) w3).
  rewrite exec_bind. cbn [get_world fst]. change (exec get_world w4) with w4.
  rewrite exec_bind.
  set (w5 := exec (forEach (List.map inBots (Map.keys (bots w4))) (updateScore env)) w4).
  assert (census w5 = census w3) as C.
  { assert (hasCensus (census w3) w4) as C4.
    { unfold w4. assert (preserves (hasCensus (census w3))
                           (forEach (List.map inPlayers (Map.keys (players w3))) (updateScore env))) as Hm
          by (pres; apply hasCensus_updateScore).
      apply Hm. reflexivity. }
    unfold w5. assert (preserves (hasCensus (census w3))
                         (forEach (List.map inBots (Map.keys (bots w4))) (updateScore env))) as Hm
        by (pres; apply hasCensus_updateScore).
    apply Hm. exact C4. }
  assert (populationBounded w5) as [Few Many]
      by (revert H3; apply populationBounded_census; symmetry; exact C).
  cbv zeta in Few, Many. clear C H3 H2. clearbody w5. clear w4 w3 w2.
  rewrite exec_bind. cbn [get_world fst]. change (exec get_world w5) with w5. cbv zeta.
  assert ((0 <? Z.of_nat (List.length (Map.values (players w5) ++ Map.values (bots w5)))) = true)
    as Somebody.
  { apply Z.ltb_lt. rewrite length_app. unfold Map.values. rewrite !length_map.
    unfold Map.size, gameConfig.minBots, gameConfig.maxBots in *. lia. }
  rewrite Somebody. exists (sent w5), (clock_stream env (clockCalls w5)). reflexivity.
Qed.

(** ** Ids *)

Lemma Ids_initialWorld : Ids initialWorld.
Proof. constructor; simpl; try constructor; discriminate. Qed.

Lemma Ids_frame (A : Type) (m : M A) :
  (forall w, bots (snd (m w)) = bots w /\ bullets (snd (m w)) = bullets w /\
             bulletIdCounter (snd (m w)) = bulletIdCounter w) ->
  preserves Ids m.
Proof.
  intros Hm w [H1 H2 H3 H4 H5]. destruct (Hm w) as (E1 & E2 & E3).
  constructor; rewrite ?E1, ?E2, ?E3; trivial.
Qed.

Lemma get_mutate_inv (V : Type) k k' (f : V -> V) m v :
  Map.get k (Map.mutate k' f m) = Some v ->
  exists v0, Map.get k m = Some v0 /\ (v = v0 \/ (k = k' /\ v = f v0)).
Proof.
  destruct (string_dec k' k) as [-> | N].
  - rewrite MapFacts.get_mutate_same. destruct (Map.get k m) as [v0|]; [|discriminate].
    simpl. intro E. injection E as <-. exists v0. auto.
  - rewrite MapFacts.get_mutate_other by exact N. intro G. exists v. auto.
Qed.

Lemma get_delete_inv (V : Type) k k' (m : Map.t V) v :
  NoDup (Map.keys m) -> Map.get k (Map.delete k' m) = Some v -> k <> k' /\ Map.get k m = Some v.
Proof.
  intros N G. destruct (string_dec k' k) as [-> | D].
  - rewrite MapFacts.get_delete_same in G by exact N. discriminate.
  - rewrite MapFacts.get_delete_other in G by exact D. split; [congruence | exact G].
Qed.

Lemma get_set_inv (V : Type) k k' (m : Map.t V) v v' :
  Map.get k (Map.set k' v' m) = Some v -> (k = k' /\ v = v') \/ Map.get k m = Some v.
Proof.
  destruct (string_dec k' k) as [-> | D].
  - rewrite MapFacts.get_set_same. intro E. injection E as <-. auto.
  - rewrite MapFacts.get_set_other by exact D. auto.
Qed.

Lemma Ids_mutate r f :
  (forall e, Entity.id (f e) = Entity.id e) -> preserves Ids (mutate r f).
Proof.
  intros Hf w [H1 H2 H3 H4 H5]. destruct r as [k | k]; constructor; simpl; trivial.
  - rewrite MapFacts.keys_mutate. exact H1.
  - intros k' b G. apply get_mutate_inv in G. destruct G as (b0 & G & [-> | [_ ->]]).
    + eauto.
    + rewrite Hf. eauto.
Qed.

Lemma Ids_assign r f obj :
  (forall e, Entity.id (f e) = Entity.id e) -> preserves Ids (assign r f obj).
Proof.
  intros Hf. unfold assign. apply preserves_bind; [apply Ids_mutate; exact Hf|].
  intro. apply preserves_ret.
Qed.

Lemma Ids_bots_delete k : preserves Ids (modify_world (with_bots (Map.delete k))).
Proof.
  intros w [H1 H2 H3 H4 H5]. constructor; simpl; trivial.
  - apply MapFacts.NoDup_keys_delete. exact H1.
  - intros k' b G. apply get_delete_inv in G; trivial. destruct G as [_ G]. eauto.
Qed.

Lemma Ids_bullets_delete k : preserves Ids (modify_world (with_bullets (Map.delete k))).
Proof.
  intros w [H1 H2 H3 H4 H5]. constructor; simpl; trivial.
  - apply MapFacts.NoDup_keys_delete. exact H2.
  - intros k' b G. apply get_delete_inv in G; trivial. destruct G as [_ G]. eauto.
  - apply MapFacts.Forall_keys_delete. exact H5.
Qed.

Lemma Ids_bullets_mutate k f :
  (forall b, Bullet.id (f b) = Bullet.id b) ->
  preserves Ids (modify_world (with_bullets (Map.mutate k f))).
Proof.
  intros Hf w [H1 H2 H3 H4 H5]. constructor; simpl; trivial.
  - rewrite MapFacts.keys_mutate. exact H2.
  - intros k' b G. apply get_mutate_inv in G. destruct G as (b0 & G & [-> | [_ ->]]).
    + eauto.
    + rewrite Hf. eauto.
  - rewrite MapFacts.keys_mutate. exact H5.
Qed.

Lemma Ids_createBot : preserves Ids (createBot env).
Proof.
  intros w [H1 H2 H3 H4 H5]. constructor; simpl; trivial.
  - apply MapFacts.NoDup_keys_set. exact H1.
  - intros k b G. apply get_set_inv in G. destruct G as [[-> ->] | G]; [reflexivity | eauto].
Qed.

Lemma bullet_key_fresh c k : bullet_key c k -> k <> ("bullet_" ++ decimal c)%string.
Proof.
  intros (n & Hn & ->) E. simpl in E. injection E as E. apply decimal_inj in E. lia.
Qed.

Lemma Ids_createBullet owner angle now : preserves Ids (createBullet env owner angle now).
Proof.
  intros w [H1 H2 H3 H4 H5]. constructor; simpl; trivial.
  - apply MapFacts.NoDup_keys_set. exact H2.
  - intros k b G. apply get_set_inv in G. destruct G as [[-> ->] | G]; [reflexivity | eauto].
  - apply MapFacts.Forall_keys_set.
    + exists (bulletIdCounter w). split; [lia | reflexivity].
    + eapply Forall_impl; [|exact H5]. intros k (n & Hn & ->). exists n. split; [lia | reflexivity].
Qed.

Lemma moveBot_id bot : Entity.id (moveBot env bot) = Entity.id bot.
Proof.
  unfold moveBot. destruct (projected env bot) as [nx ny].
  destruct (bounceOffWalls _ _ _ _) as [[[d t] x] y]. reflexivity.
Qed.

Ltac ids_frame := apply Ids_frame; intro; repeat split; reflexivity.

Hint Extern 5 (preserves Ids _) => ids_frame : pres.
Hint Extern 2 (preserves Ids (mutate _ _)) =>
  (apply Ids_mutate; first [exact moveBot_id | intro; reflexivity]) : pres.
Hint Extern 2 (preserves Ids (assign _ _ _)) =>
  (apply Ids_assign; first [exact moveBot_id | intro; reflexivity]) : pres.
Hint Extern 2 (preserves Ids (modify_world (with_bullets (Map.mutate _ _)))) =>
  (apply Ids_bullets_mutate; intro; reflexivity) : pres.
Hint Resolve Ids_bots_delete Ids_bullets_delete Ids_createBot Ids_createBullet : pres.

Lemma Ids_removeBot botId : preserves Ids (removeBot botId).
Proof. unfold removeBot. pres. Qed.

Lemma Ids_manageBotPopulation : preserves Ids (manageBotPopulation env).
Proof. unfold manageBotPopulation. pres. apply Ids_removeBot. Qed.

Lemma Ids_respawnPlayer playerId : preserves Ids (respawnPlayer env playerId).
Proof. unfold respawnPlayer. pres. Qed.

Lemma Ids_wander self bot : preserves Ids (wander env self bot).
Proof. unfold wander. pres. Qed.

Lemma Ids_pursue now self enemy nearestDistance bot :
  preserves Ids (pursue env now self enemy nearestDistance bot).
Proof. unfold pursue. pres. Qed.

Lemma Ids_updateBot now botId : preserves Ids (updateBot env now botId).
Proof. unfold updateBot. pres; try apply Ids_pursue; try apply Ids_wander. Qed.

Lemma Ids_updateBots : preserves Ids (updateBots env).
Proof. unfold updateBots. pres. apply Ids_updateBot. Qed.

Lemma Ids_giveKillCredit id : preserves Ids (giveKillCredit id).
Proof. unfold giveKillCredit. pres. Qed.

Lemma Ids_targetDied bullet self target : preserves Ids (targetDied env bullet self target).
Proof. unfold targetDied. pres. apply Ids_giveKillCredit. Qed.

Lemma Ids_checkCollision bulletId bullet self :
  preserves Ids (checkCollision env bulletId bullet self).
Proof. unfold checkCollision. pres. apply Ids_targetDied. Qed.

Lemma Ids_updateBullet now bulletId : preserves Ids (updateBullet env now bulletId).
Proof. unfold updateBullet. pres. apply Ids_checkCollision. Qed.

Lemma Ids_updateBullets : preserves Ids (updateBullets env).
Proof. unfold updateBullets. pres. apply Ids_updateBullet. Qed.

Lemma Ids_updateScore self : preserves Ids (updateScore env self).
Proof. unfold updateScore. pres. Qed.

Lemma Ids_tick : preserves Ids (tick env).
Proof.
  unfold tick. pres;
    auto using Ids_updateBots, Ids_updateBullets, Ids_manageBotPopulation, Ids_updateScore.
Qed.

Lemma Ids_handle i : preserves Ids (handle env i).
Proof.
  destruct i; simpl.
  - apply Ids_manageBotPopulation.
  - unfold on_connection. pres.
  - unfold on_playerMove. pres.
  - unfold on_emitPing. pres.
  - unfold on_shoot. pres.
  - unfold on_playerEliminated. pres. apply Ids_giveKillCredit.
  - unfold on_disconnect. pres. apply Ids_manageBotPopulation.
  - unfold on_setPlayerName. pres.
  - unfold on_chatMessage. pres.
  - apply Ids_tick.
  - unfold fireTimer, runCallback. pres; apply Ids_respawnPlayer.
Qed.

Lemma Ids_run history w : Ids w -> Ids (run env history w).
Proof.
  unfold run. revert w. induction history as [|i history IH]; simpl; intros w H; trivial.
  apply IH. apply Ids_handle. exact H.
Qed.

(** X19.  In every state the server reaches, each player, bot and bullet is
    stored under its own [id], players are not bots and bots are, and the
    ids the two counters will hand out next are not in use. *)
Theorem ids_are_keys (history : list Input) :
  let w := run env history initialWorld in
  (forall k p, Map.get k (players w) = Some p -> Entity.id p = k /\ Entity.isBot p = false) /\
  (forall k b, Map.get k (bots w) = Some b -> Entity.id b = k /\ Entity.isBot b = true) /\
  (forall k b, Map.get k (bullets w) = Some b -> Bullet.id b = k) /\
  Map.get ("bot_" ++ decimal (botIdCounter w))%string (bots w) = None /\
  Map.get ("bullet_" ++ decimal (bulletIdCounter w))%string (bullets w) = None.
Proof.
  intro w.
  assert (Inv w) as HI by (apply Inv_run, Inv_initialWorld).
  assert (Pend None w) as HP by (apply Pend_run, Pend_initialWorld).
  assert (Ids w) as HD by (apply Ids_run, Ids_initialWorld).
  split; [| split; [| split; [| split]]].
  - intros k p G. split; [exact (pend_ids HP _ G)|].
    destruct (MapFacts.get_Forall _ _ (inv_players HI) G) as [B _]. exact B.
  - intros k b G. split; [exact (ids_bots HD _ G)|].
    destruct (MapFacts.get_Forall _ _ (inv_bots HI) G) as [B _]. exact B.
  - intros k b G. exact (ids_bullets HD _ G).
  - apply MapFacts.get_keys. intro I.
    pose proof (inv_botIds HI) as F. rewrite Forall_forall in F.
    exact (bot_key_fresh (F _ I) eq_refl).
  - apply MapFacts.get_keys. intro I.
    pose proof (ids_bullets_fresh HD) as F. rewrite Forall_forall in F.
    exact (bullet_key_fresh (F _ I) eq_refl).
Qed.

(** ** Bullets and hits *)

(** X20.  A bullet passes its owner, the dead, and whoever is 15 units or more
    away, or at a distance that is NaN: the collision test changes nothing
    for them. *)
Theorem bullet_passes (w : World) (bulletId : string) (bullet : Bullet.t) (self : Ref) :
  match fst (deref self w) with
  | None => True
  | Some target =>
      Entity.id target = Bullet.ownerId bullet \/
      Entity.alive target = false \/
      distanceToBullet env bullet target = NaN \/
      (15%Q <= distanceToBullet env bullet target)%num
  end ->
  exec (checkCollision env bulletId bullet self) w = w.
Proof.
  intro H. unfold checkCollision, exec, bind. cbv beta zeta.
  change (snd (deref self w)) with w.
  destruct (fst (deref self w)) as [target|]; [|reflexivity].
  fold (distanceToBullet env bullet target).
  destruct H as [H | [H | H]].
  - rewrite H, String.eqb_refl. reflexivity.
  - rewrite H, orb_true_r. reflexivity.
  - assert (Math.ltb (distanceToBullet env bullet target) 15%Q = false) as F.
    { apply Math_ltb_ge. destruct H as [H | H]; [left; exact H | right; right; exact H]. }
    rewrite F. destruct (String.eqb _ _ || negb _)%bool; reflexivity.
Qed.

Lemma checkCollision_hit w bulletId bullet self target :
  fst (deref self w) = Some target ->
  Entity.id target <> Bullet.ownerId bullet ->
  Entity.alive target = true ->
  (distanceToBullet env bullet target < 15%Q)%num ->
  let hit := applyDamage bullet target in
  let w1 :=
    with_sent (fun l => l ++ [(io_emit, Event.bulletRemoved bulletId)])%list
      (with_bullets (Map.delete bulletId)
         (with_sent (fun l => l ++ [(io_emit, Event.playerHit (Entity.id target) (Bullet.damage bullet)
                                                         (Entity.health hit) (Bullet.ownerId bullet))])%list
            (snd (mutate self (applyDamage bullet) w)))) in
  exec (checkCollision env bulletId bullet self) w =
  if Entity.health hit <=? 0 then exec (targetDied env bullet self hit) w1 else w1.
Proof.
  intros D N A L hit w1. unfold checkCollision, exec, bind. cbv beta zeta.
  change (snd (deref self w)) with w. rewrite D.
  fold (distanceToBullet env bullet target).
  apply String.eqb_neq in N. rewrite N, A. cbn [negb orb].
  apply Math_ltb_lt in L. rewrite L.
  cbv [assign bind]. cbn [fst snd ret emit modify_world].
  fold hit. destruct (Entity.health hit <=? 0); reflexivity.
Qed.

(** X21.  A hit that leaves the target with health above 0 takes exactly
    [bullet.damage] from its health and changes nothing else about any
    entity; the bullet is removed; [playerHit] and [bulletRemoved] are
    emitted, in this order, to every session; no timer is set. *)
Theorem hit_wounds (w : World) (bulletId : string) (bullet : Bullet.t) (self : Ref)
        (target : Entity.t) :
  fst (deref self w) = Some target ->
  Entity.id target <> Bullet.ownerId bullet ->
  Entity.alive target = true ->
  (distanceToBullet env bullet target < 15%Q)%num ->
  0 < Entity.health target - Bullet.damage bullet ->
  let w' := exec (checkCollision env bulletId bullet self) w in
  fst (deref self w')
  = Some (Entity.set_health (Entity.health target - Bullet.damage bullet) target) /\
  (forall r, r <> self -> fst (deref r w') = fst (deref r w)) /\
  bullets w' = Map.delete bulletId (bullets w) /\
  timers w' = timers w /\
  sent w' = (sent w ++ [(io_emit, Event.playerHit (Entity.id target) (Bullet.damage bullet)
                                    (Entity.health target - Bullet.damage bullet)
                                    (Bullet.ownerId bullet));
                        (io_emit, Event.bulletRemoved bulletId)])%list.
Proof.
  intros D N A L H w'. unfold w'.
  rewrite (checkCollision_hit w bulletId bullet self D N A L). cbv zeta.
  assert ((Entity.health (applyDamage bullet target) <=? 0) = false) as Alive
      by (apply Z.leb_gt; exact H).
  rewrite Alive. split; [|split; [|split; [|split]]].
  - transitivity (fst (deref self (snd (mutate self (applyDamage bullet) w))));
      [destruct self; reflexivity|].
    rewrite deref_mutate_same, D. reflexivity.
  - intros r R.
    transitivity (fst (deref r (snd (mutate self (applyDamage bullet) w))));
      [destruct r; reflexivity|].
    apply deref_mutate_other. congruence.
  - destruct self; reflexivity.
  - destruct self; reflexivity.
  - destruct self; simpl; rewrite <- app_assoc; reflexivity.
Qed.

Lemma lookup_mutate id r f w : fst (lookup id (snd (mutate r f w))) = fst (lookup id w).
Proof.
  destruct r as [k | k]; unfold lookup; simpl.
  - destruct (string_dec k id) as [-> | N].
    + rewrite MapFacts.get_mutate_same. destruct (Map.get id (players w)); reflexivity.
    + rewrite MapFacts.get_mutate_other by exact N. reflexivity.
  - destruct (Map.get id (players w)); trivial.
    destruct (string_dec k id) as [-> | N].
    + rewrite MapFacts.get_mutate_same. destruct (Map.get id (bots w)); reflexivity.
    + rewrite MapFacts.get_mutate_other by exact N. reflexivity.
Qed.

(** The world after "Check if target died", step by step. *)
Lemma targetDied_steps bullet self hit w1 :
  let w2 := snd (mutate self markDead w1) in
  let w3 := match fst (lookup (Bullet.ownerId bullet) w2) with
            | Some shooter => snd (mutate shooter credited w2)
            | None => w2
            end in
  let victim := match fst (deref self w3) with Some t => t | None => hit end in
  let w4 := with_sent (fun l => l ++ [(io_emit, Event.playerDied (Entity.id victim)
                                                  (Bullet.ownerId bullet) (Bullet.ownerName bullet)
                                                  (Entity.score victim) (Entity.kills victim)
                                                  (Entity.deaths victim))])%list w3 in
  exec (targetDied env bullet self hit) w1 =
  if negb (Entity.isBot victim)
  then with_timers (fun l => l ++ [setTimeout (respawn_target (Entity.id victim))
                                              gameConfig.respawnTime])%list w4
  else snd (mutate self (reviveBot (random_stream env (randomCalls w4))
                                   (random_stream env (S (randomCalls w4))))
                   (with_randomCalls (S (S (randomCalls w4))) w4)).
Proof.
  cbv zeta. unfold targetDied, giveKillCredit, exec, bind. cbv beta zeta.
  change (fun s : Entity.t => Entity.set_score (Entity.score s + 100)
                                (Entity.set_kills (Entity.kills s + 1) s)) with credited.
  change (snd (lookup (Bullet.ownerId bullet) (snd (mutate self markDead w1))))
    with (snd (mutate self markDead w1)).
  destruct (fst (lookup (Bullet.ownerId bullet) (snd (mutate self markDead w1)))) as [shooter|];
    cbv [bind]; cbn [fst snd ret];
    [ set (w3 := snd (mutate shooter credited (snd (mutate self markDead w1))))
    | set (w3 := snd (mutate self markDead w1)) ];
    change (snd (deref self w3)) with w3;
    destruct (negb (Entity.isBot match fst (deref self w3) with Some t => t | None => hit end));
    reflexivity.
Qed.

Lemma credited_vitals e :
  Entity.id (credited e) = Entity.id e /\ Entity.isBot (credited e) = Entity.isBot e /\
  Entity.alive (credited e) = Entity.alive e /\ Entity.health (credited e) = Entity.health e /\
  Entity.deaths (credited e) = Entity.deaths e.
Proof. repeat split. Qed.

(** The state of the target and of the shooter when [playerDied] is
    emitted. *)
Lemma targetDied_before_respawn bulletId bullet self target w :
  fst (deref self w) = Some target ->
  let hit := applyDamage bullet target in
  let w1 :=
    with_sent (fun l => l ++ [(io_emit, Event.bulletRemoved bulletId)])%list
      (with_bullets (Map.delete bulletId)
         (with_sent (fun l => l ++ [(io_emit, Event.playerHit (Entity.id target) (Bullet.damage bullet)
                                                         (Entity.health hit) (Bullet.ownerId bullet))])%list
            (snd (mutate self (applyDamage bullet) w)))) in
  let w2 := snd (mutate self markDead w1) in
  let w3 := match fst (lookup (Bullet.ownerId bullet) w2) with
            | Some shooter => snd (mutate shooter credited w2)
            | None => w2
            end in
  (exists victim,
      fst (deref self w3) = Some victim /\
      Entity.id victim = Entity.id target /\
      Entity.isBot victim = Entity.isBot target /\
      Entity.alive victim = false /\
      Entity.health victim = 0 /\
      Entity.deaths victim = Entity.deaths target + 1) /\
  (forall shooter e,
      fst (lookup (Bullet.ownerId bullet) w) = Some shooter -> shooter <> self ->
      fst (deref shooter w) = Some e -> fst (deref shooter w3) = Some (credited e)) /\
  (forall r, r <> self -> fst (lookup (Bullet.ownerId bullet) w) <> Some r ->
             fst (deref r w3) = fst (deref r w)) /\
  bullets w3 = Map.delete bulletId (bullets w) /\
  timers w3 = timers w /\
  randomCalls w3 = randomCalls w /\
  sent w3 = (sent w ++ [(io_emit, Event.playerHit (Entity.id target) (Bullet.damage bullet)
                                    (Entity.health hit) (Bullet.ownerId bullet));
                        (io_emit, Event.bulletRemoved bulletId)])%list.
Proof.
  intros D hit w1 w2 w3.
  assert (forall r, fst (deref r w1) = fst (deref r (snd (mutate self (applyDamage bullet) w))))
    as D1 by (intro r; destruct r; reflexivity).
  assert (fst (deref self w2) = Some (markDead hit)) as D2.
  { unfold w2. rewrite deref_mutate_same, D1, deref_mutate_same, D. reflexivity. }
  assert (forall r, r <> self -> fst (deref r w2) = fst (deref r w)) as O2.
  { intros r N. unfold w2. rewrite deref_mutate_other by congruence.
    rewrite D1. apply deref_mutate_other. congruence. }
  assert (fst (lookup (Bullet.ownerId bullet) w2) = fst (lookup (Bullet.ownerId bullet) w)) as L2.
  { unfold w2. rewrite lookup_mutate.
    transitivity (fst (lookup (Bullet.ownerId bullet) (snd (mutate self (applyDamage bullet) w))));
      [reflexivity | apply lookup_mutate]. }
  assert (bullets w2 = Map.delete bulletId (bullets w) /\ timers w2 = timers w /\
          randomCalls w2 = randomCalls w /\
          sent w2 = (sent w ++ [(io_emit, Event.playerHit (Entity.id target) (Bullet.damage bullet)
                                            (Entity.health hit) (Bullet.ownerId bullet));
                                (io_emit, Event.bulletRemoved bulletId)])%list)
    as (B2 & T2 & R2 & S2).
  { unfold w2, w1. destruct self; simpl; rewrite <- app_assoc; repeat split. }
  unfold w3. rewrite L2.
  destruct (fst (lookup (Bullet.ownerId bullet) w)) as [shooter|] eqn:L.
  - split; [|split; [|split]].
    + destruct (Ref_eq_dec shooter self) as [-> | N].
      * exists (credited (markDead hit)). rewrite deref_mutate_same, D2. repeat split.
      * exists (markDead hit). rewrite deref_mutate_other by exact N. rewrite D2. repeat split.
    + intros s e E N G. injection E as <-. rewrite deref_mutate_same, O2 by exact N.
      rewrite G. reflexivity.
    + intros r N1 N2. rewrite deref_mutate_other by congruence. apply O2. exact N1.
    + destruct shooter; simpl; repeat split; assumption.
  - split; [|split; [|split]].
    + exists (markDead hit). rewrite D2. repeat split.
    + intros s e E. discriminate E.
    + intros r N1 _. apply O2. exact N1.
    + repeat split; assumption.
Qed.

(** X22.  A hit that takes the health of a player to 0 or below: the player is
    left dead with health 0 and one more death; the shooter, when it is
    still in the game, gets one more kill and 100 more points; nobody else
    changes; the bullet is removed; [playerHit], [bulletRemoved] and
    [playerDied] are emitted in this order; and a respawn of the player is
    scheduled after [respawnTime]. *)
Theorem lethal_hit_on_player (w : World) (bulletId : string) (bullet : Bullet.t) (self : Ref)
        (target : Entity.t) :
  fst (deref self w) = Some target ->
  Entity.id target <> Bullet.ownerId bullet ->
  Entity.alive target = true ->
  (distanceToBullet env bullet target < 15%Q)%num ->
  Entity.health target - Bullet.damage bullet <= 0 ->
  Entity.isBot target = false ->
  let w' := exec (checkCollision env bulletId bullet self) w in
  (exists victim,
      fst (deref self w') = Some victim /\
      Entity.id victim = Entity.id target /\
      Entity.alive victim = false /\
      Entity.health victim = 0 /\
      Entity.deaths victim = Entity.deaths target + 1 /\
      sent w' = (sent w ++ [(io_emit, Event.playerHit (Entity.id target) (Bullet.damage bullet)
                                        (Entity.health target - Bullet.damage bullet)
                                        (Bullet.ownerId bullet));
                            (io_emit, Event.bulletRemoved bulletId);
                            (io_emit, Event.playerDied (Entity.id target) (Bullet.ownerId bullet)
                                        (Bullet.ownerName bullet) (Entity.score victim)
                                        (Entity.kills victim) (Entity.deaths victim))])%list) /\
  (forall shooter e,
      fst (lookup (Bullet.ownerId bullet) w) = Some shooter -> shooter <> self ->
      fst (deref shooter w) = Some e -> fst (deref shooter w') = Some (credited e)) /\
  (forall r, r <> self -> fst (lookup (Bullet.ownerId bullet) w) <> Some r ->
             fst (deref r w') = fst (deref r w)) /\
  bullets w' = Map.delete bulletId (bullets w) /\
  timers w' = (timers w ++ [setTimeout (respawn_target (Entity.id target))
                                       gameConfig.respawnTime])%list.
Proof.
  intros D N A L H P w'. unfold w'.
  rewrite (checkCollision_hit w bulletId bullet self D N A L). cbv zeta.
  assert ((Entity.health (applyDamage bullet target) <=? 0) = true) as Dead
      by (apply Z.leb_le; exact H).
  rewrite Dead, targetDied_steps. cbv zeta.
  pose proof (targetDied_before_respawn bulletId bullet self w D) as F. cbv zeta in F.
  match type of F with
  | (exists victim, fst (deref self ?x) = _ /\ _) /\ _ => set (w3 := x) in *
  end.
  destruct F as ((victim & V & Vi & Vb & Va & Vh & Vd) & Sh & Ot & B & T & R & St).
  clearbody w3.
  rewrite V, Vb, P. cbn [negb].
  split; [|split; [|split; [|split]]].
  - exists victim. split; [exact V|]. repeat (split; [assumption|]).
    cbn [sent with_timers with_sent]. rewrite St, Vi, <- app_assoc. reflexivity.
  - intros shooter e E1 E2 E3. exact (Sh shooter e E1 E2 E3).
  - intros r N1 N2. exact (Ot r N1 N2).
  - exact B.
  - cbn [timers with_timers with_sent]. rewrite T, Vi. reflexivity.
Qed.

(** X23.  A hit that takes the health of a bot to 0 or below: the bot gets one
    more death and is at once alive again, at full health, at a new random
    position; no timer is set.  Shooter, bullet and messages are as for a
    player. *)
Theorem lethal_hit_on_bot (w : World) (bulletId : string) (bullet : Bullet.t) (self : Ref)
        (target : Entity.t) :
  fst (deref self w) = Some target ->
  Entity.id target <> Bullet.ownerId bullet ->
  Entity.alive target = true ->
  (distanceToBullet env bullet target < 15%Q)%num ->
  Entity.health target - Bullet.damage bullet <= 0 ->
  Entity.isBot target = true ->
  let w' := exec (checkCollision env bulletId bullet self) w in
  (exists revived,
      fst (deref self w') = Some revived /\
      Entity.id revived = Entity.id target /\
      Entity.alive revived = true /\
      Entity.health revived = gameConfig.maxHealth /\
      Entity.deaths revived = Entity.deaths target + 1 /\
      Entity.x revived = num (random_stream env (randomCalls w) * gameConfig.worldWidth)%Q /\
      Entity.y revived = num (random_stream env (S (randomCalls w)) * gameConfig.worldHeight)%Q /\
      sent w' = (sent w ++ [(io_emit, Event.playerHit (Entity.id target) (Bullet.damage bullet)
                                        (Entity.health target - Bullet.damage bullet)
                                        (Bullet.ownerId bullet));
                            (io_emit, Event.bulletRemoved bulletId);
                            (io_emit, Event.playerDied (Entity.id target) (Bullet.ownerId bullet)
                                        (Bullet.ownerName bullet) (Entity.score revived)
                                        (Entity.kills revived) (Entity.deaths revived))])%list) /\
  (forall shooter e,
      fst (lookup (Bullet.ownerId bullet) w) = Some shooter -> shooter <> self ->
      fst (deref shooter w) = Some e -> fst (deref shooter w') = Some (credited e)) /\
  (forall r, r <> self -> fst (lookup (Bullet.ownerId bullet) w) <> Some r ->
             fst (deref r w') = fst (deref r w)) /\
  bullets w' = Map.delete bulletId (bullets w) /\
  timers w' = timers w.
Proof.
  intros D N A L H P w'. unfold w'.
  rewrite (checkCollision_hit w bulletId bullet self D N A L). cbv zeta.
  assert ((Entity.health (applyDamage bullet target) <=? 0) = true) as Dead
      by (apply Z.leb_le; exact H).
  rewrite Dead, targetDied_steps. cbv zeta.
  pose proof (targetDied_before_respawn bulletId bullet self w D) as F. cbv zeta in F.
  match type of F with
  | (exists victim, fst (deref self ?x) = _ /\ _) /\ _ => set (w3 := x) in *
  end.
  destruct F as ((victim & V & Vi & Vb & Va & Vh & Vd) & Sh & Ot & B & T & R & St).
  clearbody w3.
  rewrite V, Vb, P. cbn [negb]. cbn [randomCalls with_sent]. rewrite R.
  set (rx := random_stream env (randomCalls w)).
  set (ry := random_stream env (S (randomCalls w))).
  match goal with
  | |- context [snd (mutate self (reviveBot rx ry) ?x)] => set (w4 := x)
  end.
  assert (forall r, fst (deref r w4) = fst (deref r w3)) as D4
      by (intro r; destruct r; reflexivity).
  split; [|split; [|split; [|split]]].
  - exists (reviveBot rx ry victim). rewrite deref_mutate_same, D4, V.
    split; [reflexivity|]. repeat (split; [assumption || reflexivity|]).
    assert (sent (snd (mutate self (reviveBot rx ry) w4)) = sent w4) as S4
        by (destruct self; reflexivity).
    rewrite S4. unfold w4. cbn [sent with_randomCalls with_sent].
    rewrite St, Vi, <- app_assoc. reflexivity.
  - intros shooter e E1 E2 E3.
    rewrite deref_mutate_other, D4 by congruence. exact (Sh shooter e E1 E2 E3).
  - intros r N1 N2. rewrite deref_mutate_other, D4 by congruence. exact (Ot r N1 N2).
  - rewrite <- B. destruct self; reflexivity.
  - rewrite <- T. destruct self; reflexivity.
Qed.

(** ** One pass over the bullets *)

Lemma notOutside_ltb (size : Q) (v : number) :
  Math.ltb v 0%Q = false /\ Math.ltb size v = false <-> notOutside size v.
Proof.
  unfold notOutside. destruct v as [q|]; simpl.
  - rewrite !ltb_ge. split; [right; assumption|]. intros [H|H]; [discriminate | exact H].
  - split; [left; reflexivity | split; reflexivity].
Qed.

Lemma expired_inFlight now b : expired now b = false <-> inFlight now b.
Proof.
  unfold expired, inFlight. rewrite !orb_false_iff, Z.ltb_ge, <- !notOutside_ltb. tauto.
Qed.

Lemma updateBullet_unfold now bulletId w :
  exec (updateBullet env now bulletId) w =
  match Map.get bulletId (bullets w) with
  | None => w
  | Some bullet =>
      let w1 := with_bullets (Map.mutate bulletId advanced) w in
      if expired now (advanced bullet)
      then with_sent (fun l => l ++ [(io_emit, Event.bulletRemoved bulletId)])%list
             (with_bullets (Map.delete bulletId) w1)
      else exec (forEach (List.map inPlayers (Map.keys (players w1))
                          ++ List.map inBots (Map.keys (bots w1)))%list
                         (checkCollision env bulletId (advanced bullet))) w1
  end.
Proof.
  unfold updateBullet, exec, bind. cbn [get_world fst snd].
  destruct (Map.get bulletId (bullets w)) as [bullet|]; [|reflexivity].
  cbv zeta. fold (advanced bullet). unfold expired.
  cbn [modify_world fst snd].
  destruct (_ || _ || _ || _ || _)%bool; reflexivity.
Qed.

(** X24.  A bullet that is too old, or has left the world, is removed: one
    [bulletRemoved] is emitted and nothing else happens; it hits nobody,
    even an entity that stands where it is. *)
Theorem bullet_expires (w : World) (now : Z) (bulletId : string) (bullet : Bullet.t) :
  Map.get bulletId (bullets w) = Some bullet ->
  expired now (advanced bullet) = true ->
  let w' := exec (updateBullet env now bulletId) w in
  bullets w' = Map.delete bulletId (bullets w) /\
  players w' = players w /\
  bots w' = bots w /\
  timers w' = timers w /\
  sent w' = (sent w ++ [(io_emit, Event.bulletRemoved bulletId)])%list.
Proof.
  intros G E w'. unfold w'. rewrite updateBullet_unfold, G. cbv zeta. rewrite E.
  simpl. rewrite MapFacts.delete_mutate. repeat split.
Qed.

Ltac among_leaf := let H := fresh in intros ? H; exact H.

Hint Extern 5 (preserves (bulletsAmong _ _) _) => among_leaf : pres.
Hint Extern 2 (preserves (bulletsAmong _ _) (mutate ?r _)) => (destruct r; among_leaf) : pres.
Hint Extern 2 (preserves (bulletsAmong _ _) (assign ?r _ _)) => (destruct r; among_leaf) : pres.

Lemma bulletsAmong_delete m k :
  NoDup (Map.keys m) ->
  preserves (bulletsAmong m k) (modify_world (with_bullets (Map.delete k))).
Proof.
  intros N w [H | H]; right; simpl; rewrite H; trivial.
  apply MapFacts.delete_absent, MapFacts.get_delete_same. exact N.
Qed.

Lemma bulletsAmong_giveKillCredit m k id : preserves (bulletsAmong m k) (giveKillCredit id).
Proof. unfold giveKillCredit. pres. Qed.

Lemma bulletsAmong_targetDied m k bullet self target :
  preserves (bulletsAmong m k) (targetDied env bullet self target).
Proof. unfold targetDied. pres. apply bulletsAmong_giveKillCredit. Qed.

Lemma bulletsAmong_checkCollision m k bullet self :
  NoDup (Map.keys m) ->
  preserves (bulletsAmong m k) (checkCollision env k bullet self).
Proof.
  intro N. unfold checkCollision. pres.
  - apply bulletsAmong_delete. exact N.
  - apply bulletsAmong_targetDied.
Qed.

(** What one visit of [updateBullets] does to the bullets. *)
Lemma updateBullet_bullets now k w :
  NoDup (Map.keys (bullets w)) ->
  match Map.get k (bullets w) with
  | None => bullets (exec (updateBullet env now k) w) = bullets w
  | Some b =>
      (bullets (exec (updateBullet env now k) w) = Map.mutate k advanced (bullets w) /\
       inFlight now (advanced b)) \/
      bullets (exec (updateBullet env now k) w) = Map.delete k (bullets w)
  end.
Proof.
  intro N. rewrite updateBullet_unfold.
  destruct (Map.get k (bullets w)) as [b|] eqn:G; [|reflexivity].
  cbv zeta. destruct (expired now (advanced b)) eqn:E.
  - right. simpl. apply MapFacts.delete_mutate.
  - apply expired_inFlight in E.
    match goal with
    | |- context [exec (forEach ?l ?f) ?w1] =>
        assert (preserves (bulletsAmong (Map.mutate k advanced (bullets w)) k) (forEach l f)) as P;
        [ | destruct (P w1) as [H | H] ]
    end.
    + apply preserves_forEach. intro self. apply bulletsAmong_checkCollision.
      rewrite MapFacts.keys_mutate. exact N.
    + left. reflexivity.
    + left. split; [exact H | exact E].
    + right. unfold exec. rewrite H. apply MapFacts.delete_mutate.
Qed.

Lemma updateBullet_visited now w0 k todo w :
  Ids w -> ~ In k todo ->
  bulletsVisited now w0 (k :: todo) w ->
  bulletsVisited now w0 todo (exec (updateBullet env now k) w).
Proof.
  intros HI Nk V k' b' G'.
  pose proof (updateBullet_bullets now k w (ids_bullets_nodup HI)) as U.
  destruct (string_dec k' k) as [-> | D].
  - (* the bullet that was visited *)
    destruct (Map.get k (bullets w)) as [b|] eqn:G.
    + destruct U as [[U F] | U]; rewrite U in G'.
      * rewrite MapFacts.get_mutate_same, G in G'. injection G' as <-.
        right. split; [exact Nk|]. exists b. split; [|split; trivial].
        destruct (V k b G) as [[_ G0] | [N0 _]]; [exact G0|].
        exfalso. apply N0. left. reflexivity.
      * rewrite MapFacts.get_delete_same in G' by exact (ids_bullets_nodup HI). discriminate.
    + rewrite U, G in G'. discriminate.
  - (* another bullet *)
    assert (Map.get k' (bullets w) = Some b') as G.
    { destruct (Map.get k (bullets w)) as [b|].
      - destruct U as [[U F] | U]; rewrite U in G'.
        + rewrite MapFacts.get_mutate_other in G' by congruence. exact G'.
        + rewrite MapFacts.get_delete_other in G' by congruence. exact G'.
      - rewrite U in G'. exact G'. }
    destruct (V k' b' G) as [[[E | I] G0] | [N0 R]].
    + congruence.
    + left. split; assumption.
    + right. split; [|exact R]. intro I. apply N0. right. exact I.
Qed.

Lemma updateBullets_visited now w0 todo w :
  Ids w -> NoDup todo ->
  bulletsVisited now w0 todo w ->
  bulletsVisited now w0 [] (exec (forEach todo (updateBullet env now)) w).
Proof.
  revert w. induction todo as [|k todo IH]; intros w HI N V; [exact V|].
  simpl forEach. rewrite exec_bind. inversion N as [|? ? Nk Nt]; subst.
  apply IH; trivial.
  - apply Ids_updateBullet. exact HI.
  - apply updateBullet_visited; assumption.
Qed.


(** ** The positions and headings of bots are numbers *)

Lemma yields_bind (I : World -> Prop) (A B : Type) (R : A -> Prop) (R' : B -> Prop)
      (m : M A) (k : A -> M B) :
  yields I R m -> (forall a, R a -> yields I R' (k a)) -> yields I R' (bind m k).
Proof.
  intros Hm Hk w H. destruct (Hm w H) as [H1 H2]. unfold bind. cbv zeta. apply Hk; assumption.
Qed.

Lemma yields_any (I : World -> Prop) (A : Type) (m : M A) :
  preserves I m -> yields I (fun _ => True) m.
Proof. intros Hm w H. split; [apply Hm, H | exact Logic.I]. Qed.

Lemma yields_ret (I : World -> Prop) (A : Type) (R : A -> Prop) (a : A) :
  R a -> yields I R (ret a).
Proof. intros Ha w H. split; assumption. Qed.

Lemma preserves_bind_yields (I : World -> Prop) (A B : Type) (R : A -> Prop)
      (m : M A) (k : A -> M B) :
  yields I R m -> (forall a, R a -> preserves I (k a)) -> preserves I (bind m k).
Proof.
  intros Hm Hk w H. destruct (Hm w H) as [H1 H2]. unfold bind. cbv zeta. apply Hk; assumption.
Qed.

Lemma Numeric_initialWorld : Numeric initialWorld.
Proof. constructor. Qed.

Lemma Numeric_frame (A : Type) (m : M A) :
  (forall w, bots (snd (m w)) = bots w) -> preserves Numeric m.
Proof. intros H w N. unfold Numeric. rewrite H. exact N. Qed.

Ltac numeric_frame := apply Numeric_frame; intro; reflexivity.

Lemma Numeric_mutate r f :
  (forall e, numeric e -> numeric (f e)) -> preserves Numeric (mutate r f).
Proof.
  intros Hf w N. destruct r as [k|k]; [exact N|].
  unfold Numeric in *. simpl. apply MapFacts.Forall_mutate; trivial.
Qed.

Lemma Numeric_assign r f obj :
  (forall e, numeric e -> numeric (f e)) -> preserves Numeric (assign r f obj).
Proof.
  intro Hf. unfold assign. apply preserves_bind; [apply Numeric_mutate; exact Hf|].
  intro. apply preserves_ret.
Qed.

Lemma yields_assign r f obj :
  (forall e, numeric e -> numeric (f e)) -> numeric obj ->
  yields Numeric numeric (assign r f obj).
Proof.
  intros Hf No w N. split; [exact (@Numeric_assign r f obj Hf w N) | apply Hf, No].
Qed.

Lemma isNumber_num (q : Q) : Number.isNumber q.
Proof. exists q. reflexivity. Qed.

Lemma numeric_set_targetDirection v e :
  Number.isNumber v -> numeric e -> numeric (Entity.set_targetDirection v e).
Proof. intros Hv (X & Y & D & T). repeat split; assumption. Qed.

Lemma numeric_reviveBot rx ry e : numeric e -> numeric (reviveBot rx ry e).
Proof. intros (X & Y & D & T). repeat split; trivial; apply isNumber_num. Qed.

Ltac numeric_tac :=
  let e := fresh in
  let H := fresh in
  intros e H;
  first [ exact H
        | apply moveBot_numeric; exact H
        | apply numeric_reviveBot; exact H
        | apply numeric_set_targetDirection; [apply isNumber_num | exact H] ].

Hint Extern 5 (preserves Numeric _) => numeric_frame : pres.
Hint Extern 2 (preserves Numeric (mutate _ _)) => (apply Numeric_mutate; numeric_tac) : pres.
Hint Extern 2 (preserves Numeric (assign _ _ _)) => (apply Numeric_assign; numeric_tac) : pres.

Lemma Numeric_createBot : preserves Numeric (createBot env).
Proof.
  intros w N. unfold Numeric in *. simpl. apply MapFacts.Forall_set; trivial.
  repeat split; apply isNumber_num.
Qed.

Lemma Numeric_removeBot botId : preserves Numeric (removeBot botId).
Proof.
  unfold removeBot. pres.
  intros w N. unfold Numeric in *. simpl. apply MapFacts.Forall_delete. exact N.
Qed.

Lemma Numeric_manageBotPopulation : preserves Numeric (manageBotPopulation env).
Proof.
  unfold manageBotPopulation. pres; auto using Numeric_createBot, Numeric_removeBot.
Qed.

(** An enemy that was found has a position, so the angle to it is a number. *)
Lemma found_isNumber bot other d :
  (distanceFrom env bot other < d)%num ->
  Number.isNumber (atan2 env (Entity.y other - Entity.y bot) (Entity.x other - Entity.x bot)).
Proof.
  intros L. apply lt_isNumber in L. destruct L as [L _].
  unfold distanceFrom, sqrt in L. cbv zeta in L. apply lift1_isNumber in L.
  unfold Number.add, Number.mul in L.
  apply lift2_isNumber in L. destruct L as [L1 L2].
  apply lift2_isNumber in L1. apply lift2_isNumber in L2.
  unfold atan2. apply lift2_isNumber. split; [apply L2 | apply L1].
Qed.

Lemma Numeric_wander self bot : numeric bot -> yields Numeric numeric (wander env self bot).
Proof.
  intro NB. unfold wander.
  apply yields_bind with (R := numeric); [apply yields_assign; trivial; numeric_tac | intros bot1 N1].
  apply yields_bind with (R := fun _ => True); [apply yields_any; numeric_frame | intros r _].
  destruct (Math.ltb r gameConfig.botDirectionChangeChance).
  - apply yields_bind with (R := fun _ => True); [apply yields_any; numeric_frame | intros r' _].
    apply yields_assign; trivial; numeric_tac.
  - apply yields_ret. exact N1.
Qed.

Lemma Numeric_pursue now self enemy nearestDistance bot :
  numeric bot ->
  Number.isNumber (atan2 env (Entity.y enemy - Entity.y bot) (Entity.x enemy - Entity.x bot)) ->
  yields Numeric numeric (pursue env now self enemy nearestDistance bot).
Proof.
  intros NB NA. unfold pursue. cbv zeta.
  apply yields_bind with (R := fun _ => True); [apply yields_any; numeric_frame | intros r _].
  apply yields_bind with (R := numeric).
  - destruct (Math.ltb r gameConfig.botAggressiveness);
      [| destruct (Math.ltb nearestDistance _);
         [| apply yields_bind with (R := fun _ => True);
            [apply yields_any; numeric_frame | intros r' _] ] ];
      (apply yields_assign; trivial; intros e (X & Y & D & T);
       repeat split; try assumption;
       cbn [Entity.targetDirection Entity.set_speed Entity.set_targetDirection]);
      trivial; apply lift2_isNumber; (split; [exact NA | apply isNumber_num]).
  - intros bot1 N1. destruct (_ && _)%bool.
    + apply yields_bind with (R := numeric);
        [apply yields_assign; trivial; numeric_tac | intros bot2 N2].
      apply yields_bind with (R := fun _ => True); [apply yields_any; numeric_frame | intros r'' _].
      apply yields_bind with (R := fun _ => True); [apply yields_any; numeric_frame | intros _ _].
      apply yields_ret. exact N2.
    + apply yields_ret. exact N1.
Qed.

Lemma Numeric_updateBot now k : preserves Numeric (updateBot env now k).
Proof.
  intros w HN. unfold updateBot. unfold bind at 1. cbv beta zeta. cbn [deref fst snd].
  destruct (Map.get k (bots w)) as [bot|] eqn:G; [|exact HN].
  assert (numeric bot) as NB by exact (MapFacts.get_Forall _ _ HN G).
  destruct (Entity.alive bot); cbn [negb]; [|exact HN].
  clear G. revert w HN.
  match goal with
  | |- forall w, Numeric w -> Numeric (snd (?m w)) => change (preserves Numeric m)
  end.
  apply preserves_bind; [numeric_frame | intro t].
  apply preserves_bind_yields with (R := numeric);
    [apply yields_assign; trivial; numeric_tac | intros bot1 N1].
  apply preserves_bind; [apply preserves_get_world | intro w1]. cbv zeta.
  apply preserves_bind_yields with (R := numeric).
  - pose proof (nearestEnemy_nearestAmong bot1 w1) as NA.
    destruct (nearestEnemy env bot1 w1) as [[enemy d]|].
    + destruct NA as (_ & E & L & _).
      destruct (Math.ltb d gameConfig.botDetectionRange).
      * apply Numeric_pursue; trivial. rewrite E in L. exact (found_isNumber _ _ _ L).
      * apply Numeric_wander; trivial.
    + apply Numeric_wander; trivial.
  - intros bot2 N2. pres.
Qed.

Lemma Numeric_updateBots : preserves Numeric (updateBots env).
Proof. unfold updateBots. pres. apply Numeric_updateBot. Qed.

Lemma Numeric_giveKillCredit id : preserves Numeric (giveKillCredit id).
Proof. unfold giveKillCredit. pres. Qed.

Lemma Numeric_targetDied bullet self target :
  preserves Numeric (targetDied env bullet self target).
Proof. unfold targetDied. pres. apply Numeric_giveKillCredit. Qed.

Lemma Numeric_checkCollision bulletId bullet self :
  preserves Numeric (checkCollision env bulletId bullet self).
Proof. unfold checkCollision. pres. apply Numeric_targetDied. Qed.

Lemma Numeric_updateBullet now bulletId : preserves Numeric (updateBullet env now bulletId).
Proof. unfold updateBullet. pres. apply Numeric_checkCollision. Qed.

Lemma Numeric_updateBullets : preserves Numeric (updateBullets env).
Proof. unfold updateBullets. pres. apply Numeric_updateBullet. Qed.

Lemma Numeric_updateScore self : preserves Numeric (updateScore env self).
Proof. unfold updateScore. pres. Qed.

Lemma Numeric_tick : preserves Numeric (tick env).
Proof.
  unfold tick. pres;
    auto using Numeric_updateBots, Numeric_updateBullets, Numeric_manageBotPopulation,
               Numeric_updateScore.
Qed.

Lemma Numeric_respawnPlayer playerId : preserves Numeric (respawnPlayer env playerId).
Proof. unfold respawnPlayer. pres; numeric_frame. Qed.

Lemma Numeric_handle i : preserves Numeric (handle env i).
Proof.
  destruct i; simpl handle.
  - apply Numeric_manageBotPopulation.
  - numeric_frame.
  - unfold on_playerMove. pres; numeric_frame.
  - unfold on_emitPing. pres; numeric_frame.
  - unfold on_shoot. pres; numeric_frame.
  - unfold on_playerEliminated. pres; try numeric_frame. apply Numeric_giveKillCredit.
  - unfold on_disconnect. pres; try numeric_frame. apply Numeric_manageBotPopulation.
  - unfold on_setPlayerName. pres; numeric_frame.
  - unfold on_chatMessage. pres.
  - apply Numeric_tick.
  - unfold fireTimer. pres. unfold runCallback. pres; apply Numeric_respawnPlayer.
Qed.

(** In every world the server can reach, the position and the headings of
    every bot are numbers. *)
Lemma Numeric_run history w : Numeric w -> Numeric (run env history w).
Proof.
  unfold run. revert w. induction history as [|i history IH]; simpl; intros w H; trivial.
  apply IH. apply Numeric_handle. exact H.
Qed.

(** ** One pass over the bots *)

Lemma botAt_mutate_other k v k' f :
  k' <> k -> preserves (botAt k v) (mutate (inBots k') f).
Proof.
  intros N w H. unfold botAt in *. simpl. rewrite MapFacts.get_mutate_other; assumption.
Qed.

Lemma botAt_assign_other k v k' f obj :
  k' <> k -> preserves (botAt k v) (assign (inBots k') f obj).
Proof.
  intros N. unfold assign. apply preserves_bind; [apply botAt_mutate_other; exact N|].
  intro. apply preserves_ret.
Qed.

Hint Extern 5 (preserves (botAt _ _) _) => among_leaf : pres.
Hint Extern 2 (preserves (botAt _ _) (mutate (inBots _) _)) =>
  (apply botAt_mutate_other; assumption) : pres.
Hint Extern 2 (preserves (botAt _ _) (assign (inBots _) _ _)) =>
  (apply botAt_assign_other; assumption) : pres.

Lemma botAt_pursue k v k' now enemy nearestDistance bot :
  k' <> k -> preserves (botAt k v) (pursue env now (inBots k') enemy nearestDistance bot).
Proof. intro N. unfold pursue. pres. Qed.

Lemma botAt_wander k v k' bot :
  k' <> k -> preserves (botAt k v) (wander env (inBots k') bot).
Proof. intro N. unfold wander. pres. Qed.

Lemma botAt_updateBot k v k' now :
  k' <> k -> preserves (botAt k v) (updateBot env now k').
Proof.
  intro N. unfold updateBot. pres;
    try (apply botAt_pursue; exact N); try (apply botAt_wander; exact N).
Qed.

Lemma botKeys_mutate ks r f : preserves (botKeys ks) (mutate r f).
Proof.
  intros w H. unfold botKeys in *. destruct r; simpl; trivial.
  rewrite MapFacts.keys_mutate. exact H.
Qed.

Lemma botKeys_assign ks r f obj : preserves (botKeys ks) (assign r f obj).
Proof.
  unfold assign. apply preserves_bind; [apply botKeys_mutate|]. intro. apply preserves_ret.
Qed.

Hint Extern 5 (preserves (botKeys _) _) => among_leaf : pres.
Hint Resolve botKeys_mutate botKeys_assign : pres.

Lemma botKeys_updateBot ks now k : preserves (botKeys ks) (updateBot env now k).
Proof.
  unfold updateBot. pres.
  - unfold pursue. pres.
  - unfold wander. pres.
  - unfold wander. pres.
Qed.

Lemma botInside_mutate k f :
  (forall e, (numeric e -> insideMargin e) -> numeric (f e) -> insideMargin (f e)) ->
  preserves (botInside k) (mutate (inBots k) f).
Proof.
  intros Hf w H b G. simpl in G. rewrite MapFacts.get_mutate_same in G.
  destruct (Map.get k (bots w)) as [b0|] eqn:G0; [|discriminate].
  injection G as <-. apply Hf, H. exact G0.
Qed.

Lemma botInside_assign k f obj :
  (forall e, (numeric e -> insideMargin e) -> numeric (f e) -> insideMargin (f e)) ->
  preserves (botInside k) (assign (inBots k) f obj).
Proof.
  intro Hf. unfold assign. apply preserves_bind; [apply botInside_mutate; exact Hf|].
  intro. apply preserves_ret.
Qed.

Hint Extern 5 (preserves (botInside _) _) => among_leaf : pres.
Hint Extern 2 (preserves (botInside _) (assign (inBots _) _ _)) =>
  (apply botInside_assign; among_leaf) : pres.

Lemma leads_after (Q : World -> Prop) (A B : Type) (m : M A) (k : A -> M B) :
  (forall a, leads (fun _ => True) Q (k a)) -> leads (fun _ => True) Q (bind m k).
Proof. intros H w _. unfold bind. cbv zeta. apply H. exact I. Qed.

(** A living bot that has been updated is inside the margin. *)
Lemma updateBot_inside now k w :
  forall b, Map.get k (bots (exec (updateBot env now k) w)) = Some b ->
            Entity.alive b = true -> numeric b -> insideMargin b.
Proof.
  intros b. unfold updateBot, exec. unfold bind at 1. cbv beta zeta. cbn [deref fst snd].
  destruct (Map.get k (bots w)) as [bot|] eqn:G.
  - destruct (Entity.alive bot) eqn:A; cbn [negb].
    + intros Gb _. revert b Gb.
      match goal with
      | |- forall b, Map.get k (bots (snd (?m w))) = Some b -> _ =>
          change (botInside k (snd (m w)));
          assert (leads (fun _ => True) (botInside k) m) as L; [ | apply L; exact I ]
      end.
      do 4 (apply leads_after; intro).
      apply leads_bind with (R := botInside k).
      * intros u _ b Gb. simpl in Gb. rewrite MapFacts.get_mutate_same in Gb.
        destruct (Map.get k (bots u)); [|discriminate]. injection Gb as <-.
        apply moveBot_inside_margin_cond.
      * intro. apply leads_preserves. pres.
    + cbn [skip ret snd]. intros Gb Ab. rewrite G in Gb. congruence.
  - cbn [skip ret snd]. intro Gb. rewrite G in Gb. discriminate.
Qed.

Lemma updateBots_inside now ks k w :
  In k ks \/ (forall b, Map.get k (bots w) = Some b -> Entity.alive b = true ->
                        numeric b -> insideMargin b) ->
  forall b, Map.get k (bots (exec (forEach ks (updateBot env now)) w)) = Some b ->
            Entity.alive b = true -> numeric b -> insideMargin b.
Proof.
  revert w. induction ks as [|k' ks IH]; intros w H.
  - destruct H as [[] | H]. exact H.
  - simpl forEach. rewrite exec_bind. apply IH.
    destruct (string_dec k' k) as [-> | N].
    + right. apply updateBot_inside.
    + destruct H as [[E | I0] | H]; [congruence | left; exact I0 | right].
      intros b Gb. apply H.
      destruct (Map.get k (bots w)) as [b0|] eqn:G0.
      * rewrite <- Gb. symmetry.
        exact (@botAt_updateBot k (Some b0) k' now N w G0).
      * rewrite <- Gb. symmetry.
        exact (@botAt_updateBot k None k' now N w G0).
Qed.

(** X26.  After a pass of [updateBots], every living bot is at least 50 units
    away from every wall, wherever it was before.  The position and the
    headings of every bot are numbers after the pass when they were before
    it, as they are in every world the server can reach (see
    [Numeric_run]); and a living bot whose position and headings are
    numbers after the pass is inside the margin. *)
Theorem updateBots_inside_margin (w : World) (botId : string) (bot : Entity.t) :
  Map.get botId (bots (exec (updateBots env) w)) = Some bot ->
  Entity.alive bot = true ->
  (numeric bot -> insideMargin bot) /\ (Numeric w -> numeric bot).
Proof.
  intros G A. split.
  2:{ intro HN. apply Numeric_updateBots in HN. exact (MapFacts.get_Forall _ _ HN G). }
  intro NB. revert G A NB.
  unfold updateBots. rewrite exec_bind. cbn [Date_now fst].
  set (now := clock_stream env (clockCalls w)).
  rewrite exec_bind. cbn [get_world fst].
  set (w1 := exec (Date_now env) w). change (exec get_world w1) with w1.
  intros G A NB. eapply updateBots_inside; [ | exact G | exact A | exact NB ].
  left.
  assert (botKeys (Map.keys (bots w1)) (exec (forEach (Map.keys (bots w1)) (updateBot env now)) w1))
    as K.
  { assert (preserves (botKeys (Map.keys (bots w1)))
                      (forEach (Map.keys (bots w1)) (updateBot env now))) as P
        by (apply preserves_forEach; intro; apply botKeys_updateBot).
    apply P. reflexivity. }
  unfold botKeys in K. rewrite <- K. eapply get_Some_key. exact G.
Qed.

(** ** Bots at the walls, through the tick (C8) *)

Lemma exec_forEach_app (A : Type) (l1 l2 : list A) (f : A -> M unit) w :
  exec (forEach (l1 ++ l2) f) w = exec (forEach l2 f) (exec (forEach l1 f) w).
Proof.
  revert w. induction l1 as [|a l1 IH]; intro w; [reflexivity|].
  simpl app. simpl forEach. rewrite !exec_bind. apply IH.
Qed.

Lemma botIs_mutate k (P Q : Entity.t -> Prop) f :
  (forall b, P b -> Q (f b)) -> leads (botIs k P) (botIs k Q) (mutate (inBots k) f).
Proof.
  intros Hf w (b & G & H). exists (f b). split; [|apply Hf, H].
  simpl. rewrite MapFacts.get_mutate_same, G. reflexivity.
Qed.

Lemma botIs_assign k (P Q : Entity.t -> Prop) f obj :
  (forall b, P b -> Q (f b)) -> leads (botIs k P) (botIs k Q) (assign (inBots k) f obj).
Proof.
  intro Hf. unfold assign. apply leads_bind with (R := botIs k Q).
  - apply botIs_mutate. exact Hf.
  - intro. apply leads_preserves, preserves_ret.
Qed.

Lemma botIs_mutate_keep k (P : Entity.t -> Prop) r f :
  (r = inBots k -> forall b, P b -> P (f b)) -> preserves (botIs k P) (mutate r f).
Proof.
  intros Hf w (b & G & H). destruct r as [k'|k']; [exists b; split; assumption|].
  destruct (string_dec k' k) as [->|N].
  - apply (@botIs_mutate k P P f (Hf eq_refl)). exists b. split; assumption.
  - exists b. split; [|exact H]. simpl. rewrite MapFacts.get_mutate_other by exact N. exact G.
Qed.

Lemma botIs_assign_keep k (P : Entity.t -> Prop) r f obj :
  (r = inBots k -> forall b, P b -> P (f b)) -> preserves (botIs k P) (assign r f obj).
Proof.
  intro Hf. unfold assign. apply preserves_bind; [apply botIs_mutate_keep; exact Hf|].
  intro. apply preserves_ret.
Qed.

(** An assignment to another entity, or one that leaves [P]. *)
Ltac keep_leaf :=
  let E := fresh in
  let b := fresh in
  let H := fresh in
  intro E; first [ congruence | intros b H; exact H ].

Hint Extern 5 (preserves (botIs _ _) _) => among_leaf : pres.
Hint Extern 6 (preserves (botIs _ _) (mutate _ _)) =>
  (apply botIs_mutate_keep; keep_leaf) : pres.
Hint Extern 6 (preserves (botIs _ _) (assign _ _ _)) =>
  (apply botIs_assign_keep; keep_leaf) : pres.

Lemma moveBot_deaths bot : Entity.deaths (moveBot env bot) = Entity.deaths bot.
Proof.
  unfold moveBot. destruct (projected env bot) as [newX newY].
  destruct (bounceOffWalls _ _ _ _) as [[[d t] nx] ny]. reflexivity.
Qed.

(** A bot that wanders keeps its stand, and its speed is [botSpeed]. *)
Lemma wander_decides k bot obj :
  leads (botIs k (standsAs bot)) (botIs k (fun b => standsAs bot b /\ chosenSpeed b))
        (wander env (inBots k) obj).
Proof.
  unfold wander.
  apply leads_bind with (R := botIs k (fun b => standsAs bot b /\ chosenSpeed b)).
  - apply botIs_assign. intros b H. split; [exact H | left; reflexivity].
  - intro. apply leads_preserves. pres.
Qed.

(** A bot that pursues keeps its stand, and chooses its speed. *)
Lemma pursue_decides k bot now enemy nearestDistance obj :
  leads (botIs k (standsAs bot)) (botIs k (fun b => standsAs bot b /\ chosenSpeed b))
        (pursue env now (inBots k) enemy nearestDistance obj).
Proof.
  unfold pursue. cbv zeta.
  apply leads_bind with (R := botIs k (standsAs bot)); [apply leads_preserves; pres | intro r].
  apply leads_bind with (R := botIs k (fun b => standsAs bot b /\ chosenSpeed b)).
  - destruct (Math.ltb r gameConfig.botAggressiveness);
      [| destruct (Math.ltb nearestDistance _);
         [| apply leads_bind with (R := botIs k (standsAs bot));
            [apply leads_preserves; pres | intro r'] ] ];
      apply botIs_assign; intros b H; (split; [exact H|]);
      first [left; reflexivity | right; reflexivity].
  - intro. apply leads_preserves. pres.
Qed.

(** The update of a living bot: it moves as [moveBot] moves the bot it has
    become by its decision. *)
Lemma updateBot_moves now k bot w :
  Map.get k (bots w) = Some bot ->
  Entity.alive bot = true ->
  botIs k (movedFrom env bot) (exec (updateBot env now k) w).
Proof.
  intros G A. unfold updateBot, exec. unfold bind at 1. cbv beta zeta. cbn [deref fst snd].
  rewrite G, A. cbn [negb].
  assert (botIs k (standsAs bot) w) as H by (exists bot; split; [exact G | repeat split]).
  revert H. generalize w. clear G w.
  match goal with
  | |- forall w, _ -> botIs k ?Q (snd (?m w)) => change (leads (botIs k (standsAs bot)) (botIs k Q) m)
  end.
  apply leads_bind with (R := botIs k (standsAs bot)); [apply leads_preserves; pres | intro t].
  apply leads_bind with (R := botIs k (standsAs bot)); [apply leads_preserves; pres | intro bot1].
  apply leads_bind with (R := botIs k (standsAs bot)); [apply leads_preserves; pres | intro w1].
  cbv zeta.
  apply leads_bind with (R := botIs k (fun b => standsAs bot b /\ chosenSpeed b)).
  - destruct (nearestEnemy env bot1 w1) as [[enemy d]|];
      [destruct (Math.ltb d gameConfig.botDetectionRange)|];
      first [apply pursue_decides | apply wander_decides].
  - intro bot2.
    apply leads_bind with (R := botIs k (movedFrom env bot)).
    + apply botIs_assign. intros b [H1 H2]. exists b.
      split; [exact H1|]. split; [exact H2|]. split; [reflexivity|].
      rewrite moveBot_deaths. apply H1.
    + intro bot3. apply leads_preserves. pres.
Qed.

Lemma botIs_updateBot_other k P k' now :
  k' <> k -> preserves (botIs k P) (updateBot env now k').
Proof.
  intros N w (b & G & H). exists b. split; [|exact H].
  exact (@botAt_updateBot k (Some b) k' now N w G).
Qed.

(** The pass over the bots, for one of them. *)
Lemma updateBots_moves k bot w :
  NoDup (Map.keys (bots w)) ->
  Map.get k (bots w) = Some bot ->
  Entity.alive bot = true ->
  botIs k (movedFrom env bot) (exec (updateBots env) w).
Proof.
  intros ND G A. unfold updateBots. rewrite exec_bind. cbn [Date_now fst].
  set (now := clock_stream env (clockCalls w)).
  rewrite exec_bind. cbn [get_world fst].
  set (w1 := exec (Date_now env) w). change (exec get_world w1) with w1.
  change (bots w1) with (bots w).
  assert (Map.get k (bots w1) = Some bot) as G1 by exact G. clearbody w1.
  destruct (in_split _ _ (get_Some_key _ _ G)) as (l1 & l2 & E).
  rewrite E in ND |- *. apply NoDup_remove_2 in ND.
  rewrite exec_forEach_app. simpl forEach. rewrite exec_bind.
  assert (forall l P w0, (forall k', In k' l -> k' <> k) -> botIs k P w0 ->
                         botIs k P (exec (forEach l (updateBot env now)) w0)) as Others.
  { intros l P. induction l as [|k' l IH]; intros w0 Hl H0; [exact H0|].
    simpl forEach. rewrite exec_bind. apply IH.
    - intros k'' I. apply Hl. right. exact I.
    - apply botIs_updateBot_other; [apply Hl; left; reflexivity | exact H0]. }
  apply Others.
  { intros k' I ->. apply ND. apply in_or_app. right. exact I. }
  assert (botIs k (fun b => b = bot) (exec (forEach l1 (updateBot env now)) w1)) as (b & Gb & ->).
  { apply Others.
    - intros k' I ->. apply ND. apply in_or_app. left. exact I.
    - exists bot. split; [exact G1 | reflexivity]. }
  apply updateBot_moves; assumption.
Qed.

(** *** The rest of the tick *)

Section Kept.
Variable k : string.
Variable c : number * number * number * number.
Variable deaths : Z.

Lemma botIs_giveKillCredit (P : Entity.t -> Prop) id :
  (forall b, P b -> P (credited b)) -> preserves (botIs k P) (giveKillCredit id).
Proof.
  intro K. unfold giveKillCredit. pres.
  apply botIs_mutate_keep. intros _ b H. apply K. exact H.
Qed.

Lemma botIs_targetDied bullet self target :
  preserves (botIs k (keptOrKilled c deaths)) (targetDied env bullet self target).
Proof.
  destruct (Ref_eq_dec self (inBots k)) as [->|N].
  - unfold targetDied.
    apply leads_bind with (R := botIs k (fun b => deaths < Entity.deaths b)).
    { apply botIs_mutate. intros b [H _]. unfold markDead.
      cbn [Entity.deaths Entity.set_health Entity.set_deaths]. lia. }
    intros _.
    apply leads_bind with (R := botIs k (fun b => deaths < Entity.deaths b)).
    { apply leads_preserves. apply botIs_giveKillCredit. intros b H. exact H. }
    intros _.
    apply leads_bind with (R := botIs k (fun b => deaths < Entity.deaths b));
      [apply leads_preserves; pres | intro current].
    cbv zeta.
    apply leads_bind with (R := botIs k (fun b => deaths < Entity.deaths b));
      [apply leads_preserves; pres | intros _].
    assert (forall b, deaths < Entity.deaths b -> keptOrKilled c deaths b) as Weak
        by (intros b H; split; [lia | right; exact H]).
    destruct (negb _).
    + intros w (b & G & H). exists b. split; [exact G | apply Weak, H].
    + apply leads_bind with (R := botIs k (fun b => deaths < Entity.deaths b));
        [apply leads_preserves; pres | intros rx].
      apply leads_bind with (R := botIs k (fun b => deaths < Entity.deaths b));
        [apply leads_preserves; pres | intros ry].
      apply botIs_mutate. intros b H. apply Weak. exact H.
  - unfold targetDied. pres. apply botIs_giveKillCredit. intros b H. exact H.
Qed.

Lemma botIs_checkCollision bulletId bullet self :
  preserves (botIs k (keptOrKilled c deaths)) (checkCollision env bulletId bullet self).
Proof. unfold checkCollision. pres. apply botIs_targetDied. Qed.

Lemma botIs_updateBullet now bulletId :
  preserves (botIs k (keptOrKilled c deaths)) (updateBullet env now bulletId).
Proof. unfold updateBullet. pres. apply botIs_checkCollision. Qed.

Lemma botIs_updateBullets :
  preserves (botIs k (keptOrKilled c deaths)) (updateBullets env).
Proof. unfold updateBullets. pres. apply botIs_updateBullet. Qed.

Lemma settled_createBot P : preserves (settled k P) (createBot env).
Proof.
  intros w (ND & K & H). split; [|split].
  - simpl. apply MapFacts.NoDup_keys_set. exact ND.
  - simpl. apply bot_key_mono with (c := botIdCounter w); [lia | exact K].
  - intros b G. apply H. simpl in G.
    rewrite MapFacts.get_set_other in G; [exact G|].
    intro E. exact (bot_key_fresh K (eq_sym E)).
Qed.

Lemma settled_removeBot P botId : preserves (settled k P) (removeBot botId).
Proof.
  intros w (ND & K & H). unfold removeBot, bind. cbn [deref fst snd].
  destruct (Map.get botId (bots w)) as [bot|]; [|repeat split; assumption].
  split; [|split].
  - simpl. apply MapFacts.NoDup_keys_delete. exact ND.
  - exact K.
  - intros b G. apply H. simpl in G.
    destruct (string_dec botId k) as [->|N].
    + rewrite MapFacts.get_delete_same in G by exact ND. discriminate.
    + rewrite MapFacts.get_delete_other in G by exact N. exact G.
Qed.

Lemma settled_manageBotPopulation P : preserves (settled k P) (manageBotPopulation env).
Proof.
  unfold manageBotPopulation. pres;
    auto using settled_createBot, settled_removeBot; intros w H; exact H.
Qed.

Lemma botHas_updateScore self :
  preserves (botHas k (keptOrKilled c deaths)) (updateScore env self).
Proof.
  unfold updateScore. pres; try (intros w H; exact H).
  intros w H b G. destruct self as [k'|k']; [exact (H b G)|].
  simpl in G. destruct (string_dec k' k) as [->|N].
  - rewrite MapFacts.get_mutate_same in G.
    destruct (Map.get k (bots w)) as [b0|] eqn:G0; [|discriminate].
    injection G as <-. exact (H b0 G0).
  - rewrite MapFacts.get_mutate_other in G by exact N. exact (H b G).
Qed.

End Kept.

(** The tick, for one of the bots: it moves as [moveBot] moves the bot it
    has become by its decision, and keeps that course to the end of the
    tick unless it is shot dead (and revived elsewhere) or removed. *)
Lemma tick_moves k bot w :
  Inv w -> Ids w ->
  Map.get k (bots w) = Some bot ->
  exists decided,
    standsAs bot decided /\ chosenSpeed decided /\
    (exists bot', Map.get k (bots (exec (updateBots env) w)) = Some bot' /\
                  course bot' = course (moveBot env decided)) /\
    (forall bot', Map.get k (bots (exec (tick env) w)) = Some bot' ->
                  course bot' = course (moveBot env decided) \/
                  Entity.deaths bot < Entity.deaths bot').
Proof.
  intros HI HD G.
  assert (Entity.alive bot = true) as A.
  { destruct (MapFacts.get_Forall _ _ (inv_bots HI) G) as (_ & _ & A & _). exact A. }
  destruct (@updateBots_moves k bot w (ids_bots_nodup HD) G A)
    as (moved & Gm & decided & St & Sp & Co & De).
  exists decided. split; [exact St|]. split; [exact Sp|].
  split; [exists moved; split; assumption|].
  set (c := course (moveBot env decided)) in *.
  unfold tick. rewrite exec_bind.
  assert (Inv (exec (updateBots env) w)) as HI1 by (apply Inv_updateBots, HI).
  assert (Ids (exec (updateBots env) w)) as HD1 by (apply Ids_updateBots, HD).
  assert (botIs k (keptOrKilled c (Entity.deaths bot)) (exec (updateBots env) w)) as H1.
  { exists moved. split; [exact Gm|]. split; [lia | left; exact Co]. }
  clear Gm. revert HI1 HD1 H1. generalize (exec (updateBots env) w). intros w1 HI1 HD1 H1.
  rewrite exec_bind.
  apply Inv_updateBullets in HI1. apply Ids_updateBullets in HD1.
  apply botIs_updateBullets in H1.
  change (snd (updateBullets env w1)) with (exec (updateBullets env) w1) in *.
  revert HI1 HD1 H1. generalize (exec (updateBullets env) w1). intros w2 HI2 HD2 H2.
  assert (settled k (keptOrKilled c (Entity.deaths bot)) w2) as S2.
  { destruct H2 as (b & Gb & Hb). split; [exact (ids_bots_nodup HD2)|]. split.
    - pose proof (inv_botIds HI2) as F. rewrite Forall_forall in F.
      apply F. eapply get_Some_key. exact Gb.
    - intros b' Gb'. congruence. }
  clear HI2 HD2 H2. rewrite exec_bind.
  apply settled_manageBotPopulation in S2.
  change (snd (manageBotPopulation env w2)) with (exec (manageBotPopulation env) w2) in S2.
  revert S2. generalize (exec (manageBotPopulation env) w2). intros w3 (_ & _ & H3).
  assert (preserves (botHas k (keptOrKilled c (Entity.deaths bot))) (recomputation env)) as P.
  { unfold recomputation. pres; try apply botHas_updateScore; intros w0 H0; exact H0. }
  intros bot' G'. destruct (P w3 H3 bot' G') as [_ [C | D]]; [left | right]; assumption.
Qed.

(** C8, as amended.  In every world the server reaches, every bot takes
    this course in a tick.  It first decides: that leaves it where it
    stands and heads, and gives it a speed, [botSpeed] or [botSpeed * 1.5].
    With [heading] the smoothed heading of the bot it has so become and
    [(newX, newY)] its projected position: the heading is reflected to
    [PI - heading] when [newX] is within 50 units of an x-edge, and then
    negated when [newY] is within 50 units of a y-edge; a coordinate near
    an edge is clamped into [50, size - 50]; the target heading becomes the
    final heading when either edge was near.  In particular a bot whose
    projected x is below 50 gets [x = 50], and heading [PI - heading] when
    [newY] is not near an edge, [- (PI - heading)] when it is.  This is the
    position and these are the headings the bot has after the pass of
    [updateBots], and still has at the end of the tick, unless it has been
    shot dead in the tick (it is then revived elsewhere, with one death
    more) or removed by the population manager. *)
Theorem wall_bounce (history : list Input) (botId : string) (bot : Entity.t) :
  let w := run env history initialWorld in
  Map.get botId (bots w) = Some bot ->
  exists decided,
    standsAs bot decided /\ chosenSpeed decided /\
    let heading := smoothed decided in
    let newX := fst (projected env decided) in
    let newY := snd (projected env decided) in
    let xEdge := nearEdge gameConfig.worldWidth newX in
    let yEdge := nearEdge gameConfig.worldHeight newY in
    let moved := moveBot env decided in
    let reflected := if xEdge then (Math.PI - heading)%num else heading in
    (Entity.direction moved = (if yEdge then (- reflected)%num else reflected) /\
     Entity.targetDirection moved
     = (if xEdge || yEdge then Entity.direction moved else Entity.targetDirection decided) /\
     Entity.x moved
     = (if xEdge then Math.max 50%Q (Math.min (gameConfig.worldWidth - 50)%Q newX) else newX) /\
     Entity.y moved
     = (if yEdge then Math.max 50%Q (Math.min (gameConfig.worldHeight - 50)%Q newY) else newY) /\
     (xEdge = true -> (50%Q <= Entity.x moved <= (gameConfig.worldWidth - 50)%Q)%num) /\
     (yEdge = true -> (50%Q <= Entity.y moved <= (gameConfig.worldHeight - 50)%Q)%num) /\
     ((newX < 50%Q)%num ->
      Entity.x moved = 50%Q /\
      Entity.direction moved
      = (if yEdge then (- (Math.PI - heading))%num else (Math.PI - heading)%num))) /\
    (exists bot',
        Map.get botId (bots (exec (updateBots env) w)) = Some bot' /\
        course bot' = course moved) /\
    (forall bot',
        Map.get botId (bots (exec (tick env) w)) = Some bot' ->
        course bot' = course moved \/ Entity.deaths bot < Entity.deaths bot').
Proof.
  intros w G.
  assert (Inv w) as HI by (apply Inv_run, Inv_initialWorld).
  assert (Ids w) as HD by (apply Ids_run, Ids_initialWorld).
  destruct (@tick_moves botId bot w HI HD G) as (decided & St & Sp & U & T).
  exists decided. split; [exact St|]. split; [exact Sp|].
  pose proof (moveBot_bounce decided) as B. cbv zeta in B |- *.
  split; [exact B|]. split; [exact U | exact T].
Qed.

(** ** Client intents *)

Lemma on_playerEliminated_steps socket_id eliminatorId player w :
  Map.get socket_id (players w) = Some player ->
  let self := inPlayers socket_id in
  let w2 := snd (mutate self eliminated w) in
  let w3 := match fst (lookup eliminatorId w2) with
            | Some eliminator => snd (mutate eliminator credited w2)
            | None => w2
            end in
  let victim := match fst (deref self w3) with Some p => p | None => player end in
  exec (on_playerEliminated socket_id eliminatorId) w =
  with_timers (fun l => l ++ [setTimeout (respawn_if_connected socket_id) gameConfig.respawnTime])%list
    (with_sent (fun l => l ++ [(io_emit, Event.playerDied socket_id eliminatorId
                                            (eliminatorName eliminatorId w3)
                                            (Entity.score victim) (Entity.kills victim)
                                            (Entity.deaths victim))])%list w3).
Proof.
  intros G self w2 w3 victim.
  unfold on_playerEliminated, giveKillCredit, exec, bind. cbv beta zeta.
  cbn [deref fst snd]. rewrite G.
  change (fun s : Entity.t => Entity.set_score (Entity.score s + 100)
                                (Entity.set_kills (Entity.kills s + 1) s)) with credited.
  change (fun p : Entity.t => Entity.set_deaths (Entity.deaths p + 1) (Entity.set_alive false p))
    with eliminated.
  fold self. fold w2. unfold victim, eliminatorName, w3.
  change (snd (lookup eliminatorId w2)) with w2.
  destruct (fst (lookup eliminatorId w2)) as [eliminator|] eqn:L.
  - cbv [bind]. cbn [fst snd ret].
    assert (fst (lookup eliminatorId (snd (mutate eliminator credited w2))) = Some eliminator) as L'
        by (rewrite lookup_mutate; exact L).
    rewrite L'.
    change (snd (deref eliminator (snd (mutate eliminator credited w2))))
      with (snd (mutate eliminator credited w2)).
    destruct (fst (deref eliminator (snd (mutate eliminator credited w2)))); reflexivity.
  - cbn [fst snd ret]. rewrite L. reflexivity.
Qed.

(** X27.  An elimination reported by a client, whether the player was alive or
    not: the player is marked dead and gets one more death, its health
    stays as it is; the eliminator named by the client, when it is a player
    or a bot other than the sender, gets one more kill and 100 more points;
    nobody else changes; [playerDied] goes to every session; and a respawn
    is scheduled after [respawnTime]. *)
Theorem playerEliminated_effect (w : World) (socket_id eliminatorId : string) (player : Entity.t) :
  Map.get socket_id (players w) = Some player ->
  let self := inPlayers socket_id in
  let w' := exec (on_playerEliminated socket_id eliminatorId) w in
  (exists victim,
      Map.get socket_id (players w') = Some victim /\
      Entity.alive victim = false /\
      Entity.health victim = Entity.health player /\
      Entity.deaths victim = Entity.deaths player + 1 /\
      sent w' = (sent w ++ [(io_emit, Event.playerDied socket_id eliminatorId
                                        (eliminatorName eliminatorId w)
                                        (Entity.score victim) (Entity.kills victim)
                                        (Entity.deaths victim))])%list) /\
  (forall eliminator e,
      fst (lookup eliminatorId w) = Some eliminator -> eliminator <> self ->
      fst (deref eliminator w) = Some e -> fst (deref eliminator w') = Some (credited e)) /\
  (forall r, r <> self -> fst (lookup eliminatorId w) <> Some r ->
             fst (deref r w') = fst (deref r w)) /\
  bullets w' = bullets w /\
  timers w' = (timers w ++ [setTimeout (respawn_if_connected socket_id)
                                       gameConfig.respawnTime])%list.
Proof.
  intros G self w'. unfold w'. rewrite (on_playerEliminated_steps socket_id eliminatorId w G).
  cbv zeta. fold self.
  set (w2 := snd (mutate self eliminated w)).
  assert (fst (deref self w2) = Some (eliminated player)) as D2.
  { unfold w2. rewrite deref_mutate_same. unfold self. cbn [deref fst]. rewrite G. reflexivity. }
  assert (forall r, r <> self -> fst (deref r w2) = fst (deref r w)) as O2.
  { intros r N. unfold w2. apply deref_mutate_other. congruence. }
  assert (fst (lookup eliminatorId w2) = fst (lookup eliminatorId w)) as L2
      by apply lookup_mutate.
  rewrite L2.
  assert (forall w3, (forall e0, fst (lookup eliminatorId w) = Some e0 ->
                                 option_map Entity.name (fst (deref e0 w3))
                                 = option_map Entity.name (fst (deref e0 w))) ->
                     fst (lookup eliminatorId w3) = fst (lookup eliminatorId w) ->
                     eliminatorName eliminatorId w3 = eliminatorName eliminatorId w) as Name.
  { intros w3 Hn Hl. unfold eliminatorName. rewrite Hl.
    destruct (fst (lookup eliminatorId w)) as [e0|]; trivial.
    specialize (Hn e0 eq_refl).
    destruct (fst (deref e0 w3)), (fst (deref e0 w)); simpl in Hn; congruence. }
  assert (option_map Entity.name (fst (deref self w2)) = option_map Entity.name (fst (deref self w)))
    as N2 by (rewrite D2; unfold self; cbn [deref fst]; rewrite G; reflexivity).
  destruct (fst (lookup eliminatorId w)) as [eliminator|] eqn:L.
  - set (w3 := snd (mutate eliminator credited w2)).
    assert (eliminatorName eliminatorId w3 = eliminatorName eliminatorId w) as E3.
    { apply Name.
      - intros e0 E0. injection E0 as <-. unfold w3.
        rewrite deref_mutate_same.
        destruct (Ref_eq_dec eliminator self) as [-> | N'].
        + rewrite <- N2. destruct (fst (deref self w2)); reflexivity.
        + rewrite O2 by exact N'. destruct (fst (deref eliminator w)); reflexivity.
      - unfold w3. rewrite lookup_mutate, L2. reflexivity. }
    rewrite E3.
    assert (bullets w3 = bullets w /\ timers w3 = timers w /\ sent w3 = sent w) as (B & T & St)
        by (unfold w3, w2, self; destruct eliminator; repeat split).
    split; [|split; [|split; [|split]]].
    + destruct (Ref_eq_dec eliminator self) as [E | N'].
      * exists (credited (eliminated player)).
        assert (fst (deref self w3) = Some (credited (eliminated player))) as D3
            by (unfold w3; rewrite E, deref_mutate_same, D2; reflexivity).
        rewrite D3. split; [exact D3|]. cbn [sent with_timers with_sent]. rewrite St.
        repeat split.
      * exists (eliminated player).
        assert (fst (deref self w3) = Some (eliminated player)) as D3
            by (unfold w3; rewrite deref_mutate_other by exact N'; exact D2).
        rewrite D3. split; [exact D3|]. cbn [sent with_timers with_sent]. rewrite St.
        repeat split.
    + intros s e E N' Ge. injection E as <-.
      change (fst (deref eliminator w3) = Some (credited e)).
      unfold w3. rewrite deref_mutate_same, O2 by exact N'. rewrite Ge. reflexivity.
    + intros r N1 N2'.
      change (fst (deref r w3) = fst (deref r w)).
      unfold w3. rewrite deref_mutate_other by congruence. apply O2. exact N1.
    + exact B.
    + cbn [timers with_timers with_sent]. rewrite T. reflexivity.
  - assert (eliminatorName eliminatorId w2 = eliminatorName eliminatorId w) as E3.
    { apply Name; [|exact L2]. intros e0 E0. discriminate E0. }
    rewrite E3.
    split; [|split; [|split; [|split]]].
    + exists (eliminated player). rewrite D2. split; [exact D2|]. repeat split.
    + intros s e E. discriminate E.
    + intros r N1 _. change (fst (deref r w2) = fst (deref r w)). apply O2. exact N1.
    + reflexivity.
    + reflexivity.
Qed.

(** X28.  [setPlayerName] stores the name it is given, or "Anonymous" when that
    is empty, whether the player is alive or not, and tells every session;
    it changes nothing else about the player and nobody else. *)
Theorem setPlayerName_effect (w : World) (socket_id name : string) (player : Entity.t) :
  Map.get socket_id (players w) = Some player ->
  let stored := if String.eqb name "" then "Anonymous"%string else name in
  let w' := exec (on_setPlayerName socket_id name) w in
  Map.get socket_id (players w') = Some (Entity.set_name stored player) /\
  (forall id, id <> socket_id -> Map.get id (players w') = Map.get id (players w)) /\
  bots w' = bots w /\
  sent w' = (sent w ++ [(io_emit, Event.playerNameUpdated socket_id stored)])%list.
Proof.
  intros G stored w'. unfold w', on_setPlayerName, exec, bind. cbn [deref fst snd]. rewrite G.
  cbv [assign bind mutate modify_world emit ret]. cbn [fst snd]. simpl players.
  rewrite MapFacts.get_mutate_same, G. split; [reflexivity|].
  split; [|split; reflexivity].
  intros id N. apply MapFacts.get_mutate_other. congruence.
Qed.

(** X29.  A move of a living player is told to the other sessions, not to the
    sender, with the position as stored after clamping (NaN for a
    coordinate received as NaN); it changes no other player, no bot and no
    bullet. *)
Theorem move_broadcast (w : World) (socket_id : string) (player : Entity.t) (x y : Received.t) :
  Map.get socket_id (players w) = Some player ->
  Entity.alive player = true ->
  let w' := exec (on_playerMove socket_id x y) w in
  let x' := Math.clamp 0%Q gameConfig.worldWidth x in
  let y' := Math.clamp 0%Q gameConfig.worldHeight y in
  Map.get socket_id (players w') = Some (Entity.set_y y' (Entity.set_x x' player)) /\
  (forall id, id <> socket_id -> Map.get id (players w') = Map.get id (players w)) /\
  bots w' = bots w /\
  bullets w' = bullets w /\
  sent w' = (sent w ++ [(socket_broadcast_emit socket_id, Event.playerMoved socket_id x' y')])%list.
Proof.
  intros G A w' x' y'. unfold w', on_playerMove, exec, bind. cbn [deref fst snd].
  rewrite G, A. cbn [negb].
  cbv [assign bind mutate modify_world emit ret]. cbn [fst snd]. simpl players.
  rewrite MapFacts.get_mutate_same, G. split; [reflexivity|].
  split; [|repeat split].
  intros id N. apply MapFacts.get_mutate_other. congruence.
Qed.

(** ** Respawn timers *)

(** X30.  A respawn timer that fires after its player has left does nothing,
    whichever of the two callbacks it carries. *)
Theorem respawn_of_departed (w : World) (c : Callback) (id : string) :
  c = respawn_target id \/ c = respawn_if_connected id ->
  Map.get id (players w) = None ->
  exec (runCallback env c) w = w.
Proof.
  intros [-> | ->] G; unfold runCallback, respawnPlayer, exec, bind; cbn [get_world deref fst snd].
  - rewrite G. reflexivity.
  - unfold Map.has. rewrite G. reflexivity.
Qed.

End ServerFacts.

(** * The claims on concrete histories

    The server run in [Sample.env]: instances of the theorems above, and the
    inputs on which a claim does not hold. *)

Local Open Scope string_scope.

(** ** Health and life (C2) *)

(** C2, counterexample to "alive is false iff health == 0": after a
    client-reported elimination the player is dead with health 100. *)
Lemma eliminated_with_full_health :
  exists player,
    Map.get "A" (players (run Sample.env selfReport initialWorld)) = Some player /\
    Entity.alive player = false /\
    Entity.health player = 100 /\
    ~ (Entity.alive player = false <-> Entity.health player = 0).
Proof.
  eexists. split; [vm_compute; reflexivity|]. simpl.
  repeat split; trivial. intros [H _]. specialize (H eq_refl). discriminate H.
Qed.

(** Witness for [vitals_invariant]: the respawn of the player of
    [selfReport]. *)
Lemma vitals_invariant_witness :
  exists respawned,
    Map.get "A" (players (exec (respawnPlayer Sample.env "A")
                               (run Sample.env selfReport initialWorld))) = Some respawned /\
    Entity.health respawned = Entity.maxHealth respawned /\
    Entity.alive respawned = true.
Proof.
  destruct (vitals_invariant Sample.env selfReport) as (_ & _ & _ & H).
  eapply H. vm_compute. reflexivity.
Defined.

(** ** Population (C4) *)

(** C4, counterexample: with eleven humans the head count after a tick is
    11, above [maxBots], and it stays there tick after tick. *)
Lemma crowded_world :
  let after1 := run Sample.env (crowd ++ [interval]) initialWorld in
  let after3 := run Sample.env (crowd ++ [interval; interval; interval]) initialWorld in
  headCount after1 = 11 /\ headCount after3 = 11 /\
  ~ (gameConfig.minBots <= headCount after1 <= gameConfig.maxBots) /\
  ~ (gameConfig.minBots <= headCount after3 <= gameConfig.maxBots).
Proof.
  cbv zeta.
  assert (headCount (run Sample.env (crowd ++ [interval]) initialWorld) = 11) as E1
      by (vm_compute; reflexivity).
  assert (headCount (run Sample.env (crowd ++ [interval; interval; interval]) initialWorld) = 11)
    as E3 by (vm_compute; reflexivity).
  rewrite E1, E3. unfold gameConfig.minBots, gameConfig.maxBots.
  repeat split; trivial; lia.
Qed.

(** Witness for [population_after_manager]: "p1" leaves the crowd, and the
    ten humans that remain are the whole population. *)
Lemma population_after_manager_witness :
  populationBounded (exec (on_disconnect Sample.env "p1") (run Sample.env crowd initialWorld)).
Proof.
  destruct (population_after_manager Sample.env crowd) as (_ & _ & H).
  apply H. vm_compute. reflexivity.
Defined.

(** ** Intents from absent or dead senders (C3) *)

(** Witness for [intents_guarded]: the move of a dead player. *)
Lemma intents_guarded_witness :
  exec (handle Sample.env (playerMove "A" 5 5)) (run Sample.env selfReport initialWorld)
  = run Sample.env selfReport initialWorld.
Proof.
  apply (@intents_guarded Sample.env (run Sample.env selfReport initialWorld)
                          (playerMove "A" 5 5) "A").
  - reflexivity.
  - right. split; [reflexivity|]. eexists. split; [vm_compute; reflexivity | reflexivity].
Defined.

(** C3, counterexample: the player of [selfReport] is dead, and still its
    chat message and its new name are emitted to every session, and its
    second elimination report counts a second death. *)
Lemma dead_sender_is_heard :
  let w := run Sample.env selfReport initialWorld in
  option_map Entity.alive (Map.get "A" (players w)) = Some false /\
  skipn (List.length (sent w)) (sent (exec (handle Sample.env (chatMessage "A" "gg")) w))
  = [(io_emit, Event.chatMessage "A" (0.7 * 360)%Q "gg" 1700000000007)] /\
  skipn (List.length (sent w)) (sent (exec (handle Sample.env (setPlayerName "A" "Ghost")) w))
  = [(io_emit, Event.playerNameUpdated "A" "Ghost")] /\
  option_map Entity.deaths (Map.get "A" (players w)) = Some 1 /\
  option_map Entity.deaths
    (Map.get "A" (players (exec (handle Sample.env (playerEliminated "A" "B")) w))) = Some 2.
Proof.
  cbv zeta. repeat split; vm_compute; reflexivity.
Qed.

(** ** Movement, ping and disconnection (C6, C7, C9, C10) *)



(** Witness for [emitPing_cooldown]: the second ping of [pinged] is answered
    with [remaining = 1000 - 14]; after a move and a tick [lastPing] still
    holds the time of the first ping. *)
Lemma emitPing_cooldown_witness :
  let w := run Sample.env pinged initialWorld in
  let w' := exec (on_emitPing Sample.env "A") w in
  (sent w' = (sent w ++ [(socket_emit "A", Event.pingCooldown 986)])%list /\
   players w' = players w) /\
  (forall later,
      Map.get "A" (players (run Sample.env [playerMove "A" 1 1; interval] w')) = Some later ->
      Entity.lastPing later = 1700000000007).
Proof.
  assert (exists player,
             Map.get "A" (players (run Sample.env pinged initialWorld)) = Some player /\
             Entity.alive player = true) as (player & G & A).
  { eexists. split; [vm_compute; reflexivity | reflexivity]. }
  pose proof (@emitPing_cooldown Sample.env _ "A" player G A) as H.
  cbv zeta in *.
  assert (Entity.lastPing player = 1700000000007) as L.
  { assert (option_map Entity.lastPing (Some player) = Some 1700000000007) as L'
        by (rewrite <- G; vm_compute; reflexivity).
    injection L' as L'. exact L'. }
  rewrite L in H.
  change (clock_stream Sample.env (clockCalls (run Sample.env pinged initialWorld)))
    with 1700000000021 in H.
  destruct H as [H1 H2]. split; [exact H1|].
  intros later Gl. apply (H2 [playerMove "A" 1%Q 1%Q; interval] later); [|exact Gl].
  cbn [undisturbed disturbs]. tauto.
Defined.

(** C7, counterexample: in [twoTimers] the second respawn timer fires on
    the living player "A", 7 ms after its first ping, and resets
    [lastPing] to 0; the second ping comes 14 ms after the first and is
    emitted to every session as well.  No cooldown notice is sent. *)
Lemma respawn_clears_cooldown :
  let stamp (history : list Input) :=
    option_map (fun p => (Entity.alive p, Entity.lastPing p))
               (Map.get "A" (players (run Sample.env history initialWorld))) in
  let w := run Sample.env twoTimers initialWorld in
  stamp (firstn 5 twoTimers) = Some (true, 1700000000007) /\
  stamp (firstn 6 twoTimers) = Some (true, 0) /\
  pingTimes "A" w = [1700000000007; 1700000000021] /\
  cooldownNotices w = [] /\
  1700000000021 - 1700000000007 < gameConfig.pingCooldown.
Proof.
  cbv zeta. repeat split; vm_compute; reflexivity.
Qed.

(** Witness for [disconnect_finalScore]: "A", with one kill and a score of
    100, leaves with a final score of 0. *)
Lemma disconnect_finalScore_witness :
  let w := run Sample.env killer initialWorld in
  option_map (fun p => (Entity.kills p, Entity.score p)) (Map.get "A" (players w))
  = Some (1, 100) /\
  exists rest,
    sent (exec (on_disconnect Sample.env "A") w)
    = (sent w ++ (socket_broadcast_emit "A", Event.playerLeft "A" 0) :: rest)%list.
Proof.
  cbv zeta. split; [vm_compute; reflexivity|].
  assert (exists player,
             Map.get "A" (players (run Sample.env killer initialWorld)) = Some player /\
             Entity.joinTime player = 1700000000000) as (player & G & J).
  { eexists. split; [vm_compute; reflexivity | reflexivity]. }
  destruct (@disconnect_finalScore Sample.env _ "A" player G) as [rest H].
  exists rest. rewrite H. unfold secondsSinceJoin. rewrite J. reflexivity.
Defined.

(** Witness for [emitPing_drops_kill_bonus]: "A", with one kill and a score
    of 100, pings and is left with a score of 0; when it is then credited
    another kill its score is [0 + 100 * (kills - 1)]. *)
Lemma emitPing_drops_kill_bonus_witness :
  let w := run Sample.env killer initialWorld in
  let w' := exec (on_emitPing Sample.env "A") w in
  (exists pinged,
      Map.get "A" (players w') = Some pinged /\
      Entity.score pinged = 0 /\
      Entity.kills pinged = 1) /\
  (forall later,
      Map.get "A" (players (run Sample.env [playerEliminated "B" "A"] w')) = Some later ->
      Entity.score later = 0 + 100 * (Entity.kills later - 1)).
Proof.
  cbv zeta.
  assert (exists player,
             Map.get "A" (players (run Sample.env killer initialWorld)) = Some player /\
             Entity.alive player = true /\
             Entity.lastPing player = 0 /\
             Entity.joinTime player = 1700000000000 /\
             Entity.kills player = 1) as (player & G & A & L & J & K).
  { eexists. split; [vm_compute; reflexivity | repeat split]. }
  destruct (@emitPing_drops_kill_bonus Sample.env _ "A" player G A)
    as ((p & Gp & S & Kp) & H2 & _).
  { rewrite L. reflexivity. }
  assert (secondsSinceJoin
            (clock_stream Sample.env (Datatypes.S (clockCalls (run Sample.env killer initialWorld))))
            player = 0) as F.
  { unfold secondsSinceJoin. rewrite J. reflexivity. }
  split.
  - exists p. split; [exact Gp|]. split.
    + rewrite S. exact F.
    + rewrite Kp. exact K.
  - intros later Gl.
    specialize (H2 [playerEliminated "B" "A"] later). cbv zeta in H2.
    rewrite F, K in H2. apply H2.
    + constructor; [|constructor]. intros [].
    + left. exact Gl.
Defined.

(** C10, counterexample: in [creditedAfterPing] the player "A" pings with
    one kill and is credited a second kill before any tick: its score is
    100, not the floor of its seconds in the game, which is 0. *)
Lemma bonus_after_ping :
  let w := run Sample.env creditedAfterPing initialWorld in
  option_map (fun p => (Entity.alive p, Entity.kills p, Entity.score p,
                        secondsSinceJoin (clock_stream Sample.env (clockCalls w)) p))
             (Map.get "A" (players w))
  = Some (true, 2, 100, 0).
Proof.
  cbv zeta. vm_compute. reflexivity.
Qed.

(** ** One bullet, two targets (C1) *)

(** C1 fails on the code.  In a single pass of [updateBullets] the one
    bullet of [overlap] damages both "B" and "C", and its removal is
    emitted twice: the callback of [allTargets.forEach] goes on to the next
    target after a hit. *)
Theorem one_bullet_hits_two_targets :
  let w := run Sample.env overlap initialWorld in
  let w' := exec (updateBullets Sample.env) w in
  Map.keys (bullets w) = ["bullet_0"] /\
  List.map (fun p => (Entity.id p, Entity.health p)) (Map.values (players w))
  = [("A", 100); ("B", 100); ("C", 100)] /\
  List.map (fun p => (Entity.id p, Entity.health p)) (Map.values (players w'))
  = [("A", 100); ("B", 90); ("C", 90)] /\
  skipn (List.length (sent w)) (sent w')
  = [(io_emit, Event.playerHit "B" 10 90 "A");
     (io_emit, Event.bulletRemoved "bullet_0");
     (io_emit, Event.playerHit "C" 10 90 "A");
     (io_emit, Event.bulletRemoved "bullet_0")].
Proof.
  cbv zeta. repeat split; vm_compute; reflexivity.
Qed.

(** ** The score between ticks (C5) *)

(** C5 fails on the code.  After the tick of [scored] the living player "A"
    has [score = floor(secondsSinceJoin) + kills * 100 = 0 + 100]; its ping
    then overwrites the score with [floor(secondsSinceJoin) = 0], with the
    kill still counted; the next tick puts the 100 back. *)
Theorem ping_breaks_derived_score :
  let summary (w : World) :=
    option_map (fun p => (Entity.alive p, Entity.kills p, Entity.score p))
               (Map.get "A" (players w)) in
  let ticked := run Sample.env scored initialWorld in
  let pinged := exec (on_emitPing Sample.env "A") ticked in
  let reticked := exec (tick Sample.env) pinged in
  summary ticked = Some (true, 1, 100) /\
  summary pinged = Some (true, 1, 0) /\
  summary reticked = Some (true, 1, 100).
Proof.
  cbv zeta. repeat split; vm_compute; reflexivity.
Qed.

(** ** Bots at the walls (C8) *)

(** Witness for [wall_bounce]: the first bot of [hunted], through one tick. *)
Lemma wall_bounce_witness :
  let w := run Sample.env hunted initialWorld in
  exists bot decided,
    Map.get "bot_0" (bots w) = Some bot /\
    standsAs bot decided /\
    (forall bot',
        Map.get "bot_0" (bots (exec (tick Sample.env) w)) = Some bot' ->
        course bot' = course (moveBot Sample.env decided) \/
        Entity.deaths bot < Entity.deaths bot').
Proof.
  cbv zeta.
  assert (exists bot, Map.get "bot_0" (bots (run Sample.env hunted initialWorld)) = Some bot)
    as (bot & G) by (eexists; vm_compute; reflexivity).
  destruct (@wall_bounce Sample.env hunted "bot_0" bot G) as (decided & St & _ & H).
  cbv zeta in H. destruct H as (_ & _ & T).
  exists bot, decided. split; [exact G|]. split; [exact St | exact T].
Defined.

(** C8, counterexample: the projected position of [cornerBot] is below 50
    on both axes; it ends with [x = 50] and with heading [1 - PI], which is
    not [PI - heading = PI - 1]. *)
Lemma corner_bounce :
  let moved := moveBot Sample.env cornerBot in
  (smoothed cornerBot == 1%Q)%num /\
  (fst (projected Sample.env cornerBot) < 50%Q)%num /\
  (snd (projected Sample.env cornerBot) < 50%Q)%num /\
  Entity.x moved = 50%Q /\
  (Entity.direction moved == (1 - Math.PI)%Q)%num /\
  ~ (Entity.direction moved == Math.PI - smoothed cornerBot)%num.
Proof.
  cbv zeta. do 5 (split; [vm_compute; reflexivity|]).
  intro H. vm_compute in H. discriminate H.
Qed.

(** * The further properties on concrete histories *)

(** ** The population manager and new bots *)

(** Instance of [manageBotPopulation_removes_oldest]: with seven players
    and five bots the manager removes "bot_0" and "bot_1". *)
Lemma manageBotPopulation_removes_oldest_witness :
  let w := run Sample.env busy initialWorld in
  let w' := exec (manageBotPopulation Sample.env) w in
  Map.keys (bots w) = ["bot_0"; "bot_1"; "bot_2"; "bot_3"; "bot_4"] /\
  players w' = players w /\
  bots w' = skipn 2 (bots w) /\
  sent w' = (sent w ++ List.map (fun kb => (io_emit, Event.playerLeft (fst kb) (Entity.score (snd kb))))
                                (firstn 2 (bots w)))%list.
Proof.
  cbv zeta. split; [vm_compute; reflexivity|].
  pose proof (@manageBotPopulation_removes_oldest Sample.env (run Sample.env busy initialWorld)) as H.
  cbv zeta in H.
  assert (Z.to_nat (Z.min (Map.size (bots (run Sample.env busy initialWorld)))
                          (Map.size (players (run Sample.env busy initialWorld))
                           + Map.size (bots (run Sample.env busy initialWorld))
                           - gameConfig.maxBots)) = 2%nat) as E by (vm_compute; reflexivity).
  rewrite E in H. apply H; vm_compute; reflexivity.
Defined.

(** Instance of [createBot_name]: the first bot of the sample run is
    called after the fourth name. *)
Lemma createBot_name_witness :
  exists botName,
    In botName botNames /\
    Entity.name (fst (createBot Sample.env initialWorld)) = "[BOT] " ++ botName.
Proof.
  apply createBot_name. split; [discriminate | reflexivity].
Defined.

(** ** The leaderboard, shooting and the tick *)

(** Instance of [leaderboard_top]: in [ranked] the leaderboard lists "p11",
    with a score of 100, before "p1" to "p9"; the player "p10" has no row,
    and its score is at most that of every row. *)
Lemma leaderboard_top_witness :
  let w := run Sample.env ranked initialWorld in
  List.map row_id (getLeaderboard w)
  = ["p11"; "p1"; "p2"; "p3"; "p4"; "p5"; "p6"; "p7"; "p8"; "p9"]%string /\
  exists e,
    Map.get "p10"%string (players w) = Some e /\
    ~ In (leaderboardRow e) (getLeaderboard w) /\
    (forall r, In r (getLeaderboard w) -> Entity.score e <= row_score r).
Proof.
  cbv zeta.
  assert (List.map row_id (getLeaderboard (run Sample.env ranked initialWorld))
          = ["p11"; "p1"; "p2"; "p3"; "p4"; "p5"; "p6"; "p7"; "p8"; "p9"]%string) as Rows
      by (vm_compute; reflexivity).
  split; [exact Rows|].
  assert (exists e,
             Map.get "p10"%string (players (run Sample.env ranked initialWorld)) = Some e /\
             Entity.id e = "p10"%string) as (e & G & Id)
      by (eexists; split; [vm_compute; reflexivity | reflexivity]).
  assert (~ In (leaderboardRow e) (getLeaderboard (run Sample.env ranked initialWorld))) as N.
  { intro L. apply in_map with (f := row_id) in L. rewrite Rows in L.
    cbn [row_id leaderboardRow] in L. rewrite Id in L.
    repeat (destruct L as [L | L]; [discriminate L|]). destruct L. }
  exists e. split; [exact G|]. split; [exact N|].
  assert (In e (entities (run Sample.env ranked initialWorld))) as I.
  { unfold entities. apply in_or_app. left. eapply MapFacts.get_In. exact G. }
  destruct (@leaderboard_top (run Sample.env ranked initialWorld) e I) as [L | R].
  - exfalso. exact (N L).
  - exact R.
Defined.

(** Instance of [shoot_cooldown]: the first shot of a player is fired. *)
Lemma shoot_cooldown_witness :
  let w := run Sample.env alone initialWorld in
  let w' := exec (on_shoot Sample.env "A" 0) w in
  exists bullet,
    bullets w' = Map.set (Bullet.id bullet) bullet (bullets w) /\
    bulletIdCounter w' = S (bulletIdCounter w) /\
    sent w' = (sent w ++ [(io_emit, Event.bulletFired bullet)])%list.
Proof.
  cbv zeta.
  assert (exists player,
             Map.get "A" (players (run Sample.env alone initialWorld)) = Some player /\
             Entity.alive player = true /\
             Entity.lastShoot player = 0) as (player & G & A & L).
  { eexists. split; [vm_compute; reflexivity | split; reflexivity]. }
  pose proof (@shoot_cooldown Sample.env _ "A" player 0%Q G A) as H.
  cbv zeta in H. rewrite L in H.
  change (clock_stream Sample.env (clockCalls (run Sample.env alone initialWorld)))
    with 1700000000007 in H.
  change (1700000000007 - 0 <? gameConfig.shootCooldown)%Z with false in H.
  cbv iota in H.
  destruct H as (B & C & _ & S).
  eexists. split; [exact B|]. split; [exact C | exact S].
Defined.

(** Instance of [tick_recomputes_scores]: player "A" of [killer]. *)
Lemma tick_recomputes_scores_witness :
  let w := run Sample.env killer initialWorld in
  let w' := exec (tick Sample.env) w in
  exists e n,
    fst (deref (inPlayers "A") w') = Some e /\
    (clockCalls w <= n < clockCalls w')%nat /\
    scoredAt Sample.env n e.
Proof.
  cbv zeta.
  assert (exists e,
             fst (deref (inPlayers "A") (exec (tick Sample.env) (run Sample.env killer initialWorld)))
             = Some e /\ Entity.alive e = true) as (e & G & A).
  { eexists. split; [vm_compute; reflexivity | reflexivity]. }
  destruct (@tick_recomputes_scores Sample.env _ (inPlayers "A") e G A) as (n & Hn & S).
  exists e, n. split; [exact G|]. split; [exact Hn | exact S].
Defined.

(** ** Bullets and hits *)

(** Instance of [bullet_passes]: the bullet of "A" passes "A". *)
Lemma bullet_passes_witness :
  let w := run Sample.env overlap initialWorld in
  exec (checkCollision Sample.env "bullet_0" (aimedAt cornerBot 10) (inPlayers "A")) w = w.
Proof.
  cbv zeta. apply bullet_passes. vm_compute. left. reflexivity.
Defined.

(** Instance of [hit_wounds]: "B" of [overlap], hit by a bullet of damage
    10, is left with health 90. *)
Lemma hit_wounds_witness :
  let w := run Sample.env overlap initialWorld in
  exists target,
    Map.get "B" (players w) = Some target /\
    let w' := exec (checkCollision Sample.env "bullet_0" (aimedAt target 10) (inPlayers "B")) w in
    option_map Entity.health (fst (deref (inPlayers "B") w')) = Some 90 /\
    timers w' = timers w.
Proof.
  cbv zeta. eexists. split; [vm_compute; reflexivity|].
  match goal with
  | |- context [aimedAt ?t 10] =>
      destruct (@hit_wounds Sample.env (run Sample.env overlap initialWorld) "bullet_0"
                            (aimedAt t 10) (inPlayers "B") t) as (H1 & _ & _ & H4 & _)
  end; try (vm_compute; reflexivity).
  - discriminate.
  - split; [rewrite H1; reflexivity | exact H4].
Defined.

(** Instance of [lethal_hit_on_player]: "B" of [overlap], hit by a bullet
    of damage 100, is dead and has a respawn scheduled. *)
Lemma lethal_hit_on_player_witness :
  let w := run Sample.env overlap initialWorld in
  exists target,
    Map.get "B" (players w) = Some target /\
    let w' := exec (checkCollision Sample.env "bullet_0" (aimedAt target 100) (inPlayers "B")) w in
    timers w' = (timers w ++ [setTimeout (respawn_target "B") 3000])%list /\
    exists victim,
      fst (deref (inPlayers "B") w') = Some victim /\
      Entity.alive victim = false /\ Entity.health victim = 0.
Proof.
  cbv zeta. eexists. split; [vm_compute; reflexivity|].
  match goal with
  | |- context [aimedAt ?t 100] =>
      destruct (@lethal_hit_on_player Sample.env (run Sample.env overlap initialWorld) "bullet_0"
                                      (aimedAt t 100) (inPlayers "B") t)
        as ((victim & V & _ & Va & Vh & _) & _ & _ & _ & T)
  end; try (vm_compute; reflexivity).
  - discriminate.
  - discriminate.
  - split; [exact T|]. exists victim. repeat split; assumption.
Defined.

(** Instance of [lethal_hit_on_bot]: the first bot of [hunted], hit by a
    bullet of damage 100, is alive at full health, with one death. *)
Lemma lethal_hit_on_bot_witness :
  let w := run Sample.env hunted initialWorld in
  exists target,
    Map.get "bot_0" (bots w) = Some target /\
    let w' := exec (checkCollision Sample.env "bullet_0" (aimedAt target 100) (inBots "bot_0")) w in
    timers w' = timers w /\
    exists revived,
      fst (deref (inBots "bot_0") w') = Some revived /\
      Entity.alive revived = true /\ Entity.health revived = 100 /\ Entity.deaths revived = 1.
Proof.
  cbv zeta. eexists. split; [vm_compute; reflexivity|].
  match goal with
  | |- context [aimedAt ?t 100] =>
      destruct (@lethal_hit_on_bot Sample.env (run Sample.env hunted initialWorld) "bullet_0"
                                   (aimedAt t 100) (inBots "bot_0") t)
        as ((revived & V & _ & Va & Vh & Vd & _) & _ & _ & _ & T)
  end; try (vm_compute; reflexivity).
  - discriminate.
  - discriminate.
  - split; [exact T|]. exists revived. repeat split; assumption.
Defined.

(** Instance of [bullet_expires]: the bullet of [overlap], ten seconds
    later. *)
Lemma bullet_expires_witness :
  let w := run Sample.env overlap initialWorld in
  let w' := exec (updateBullet Sample.env 1700000010000 "bullet_0") w in
  bullets w' = Map.delete "bullet_0" (bullets w) /\
  players w' = players w /\
  bots w' = bots w /\
  timers w' = timers w /\
  sent w' = (sent w ++ [(io_emit, Event.bulletRemoved "bullet_0")])%list.
Proof.
  cbv zeta.
  assert (exists bullet,
             Map.get "bullet_0" (bullets (run Sample.env overlap initialWorld)) = Some bullet /\
             expired 1700000010000 (advanced bullet) = true) as (bullet & G & E)
      by (eexists; split; [vm_compute; reflexivity | vm_compute; reflexivity]).
  exact (@bullet_expires Sample.env _ 1700000010000 "bullet_0" bullet G E).
Defined.


(** ** Bots, intents and timers *)

(** Instance of [moveBot_inside_margin]: [cornerBot], which heads for the
    corner at (0, 0) from (10, 10). *)
Lemma moveBot_inside_margin_witness :
  let moved := moveBot Sample.env cornerBot in
  (50%Q <= Entity.x moved <= (gameConfig.worldWidth - 50)%Q)%num /\
  (50%Q <= Entity.y moved <= (gameConfig.worldHeight - 50)%Q)%num.
Proof.
  assert (numeric cornerBot) as N by (repeat split; eexists; reflexivity).
  destruct (@moveBot_inside_margin Sample.env cornerBot) as [H1 H2].
  exact (H2 (H1 N)).
Defined.

(** Instance of [updateBots_inside_margin]: the first bot of [hunted]. *)
Lemma updateBots_inside_margin_witness :
  exists bot,
    Map.get "bot_0" (bots (exec (updateBots Sample.env) (run Sample.env hunted initialWorld)))
    = Some bot /\
    insideMargin bot /\ numeric bot.
Proof.
  assert (exists bot,
             Map.get "bot_0" (bots (exec (updateBots Sample.env) (run Sample.env hunted initialWorld)))
             = Some bot /\ Entity.alive bot = true) as (bot & G & A)
      by (eexists; split; [vm_compute; reflexivity | reflexivity]).
  assert (Numeric (run Sample.env hunted initialWorld)) as N
      by (apply Numeric_run, Numeric_initialWorld).
  exists bot. split; [exact G|].
  destruct (@updateBots_inside_margin Sample.env _ "bot_0" bot G A) as [H1 H2].
  split; [exact (H1 (H2 N)) | exact (H2 N)].
Defined.

(** Instance of [playerEliminated_effect]: "A" reports an eliminator the
    server does not know. *)
Lemma playerEliminated_effect_witness :
  let w := run Sample.env alone initialWorld in
  let w' := exec (on_playerEliminated "A" "nobody") w in
  bullets w' = bullets w /\
  timers w' = (timers w ++ [setTimeout (respawn_if_connected "A") gameConfig.respawnTime])%list.
Proof.
  cbv zeta.
  assert (exists player, Map.get "A" (players (run Sample.env alone initialWorld)) = Some player)
    as (player & G) by (eexists; vm_compute; reflexivity).
  destruct (@playerEliminated_effect (run Sample.env alone initialWorld) "A" "nobody" player G)
    as (_ & _ & _ & B & T).
  split; [exact B | exact T].
Defined.

(** Instance of [setPlayerName_effect]: the empty name. *)
Lemma setPlayerName_effect_witness :
  let w := run Sample.env alone initialWorld in
  let w' := exec (on_setPlayerName "A" "") w in
  sent w' = (sent w ++ [(io_emit, Event.playerNameUpdated "A" "Anonymous")])%list.
Proof.
  cbv zeta.
  assert (exists player, Map.get "A" (players (run Sample.env alone initialWorld)) = Some player)
    as (player & G) by (eexists; vm_compute; reflexivity).
  destruct (@setPlayerName_effect (run Sample.env alone initialWorld) "A" "" player G)
    as (_ & _ & _ & S).
  exact S.
Defined.

(** Instance of [move_broadcast]: a move far outside the world. *)
Lemma move_broadcast_witness :
  let w := run Sample.env alone initialWorld in
  let w' := exec (on_playerMove "A" (-7) 99999) w in
  sent w' = (sent w ++ [(socket_broadcast_emit "A",
                         Event.playerMoved "A" 0%Q gameConfig.worldHeight)])%list.
Proof.
  cbv zeta.
  assert (exists player,
             Map.get "A" (players (run Sample.env alone initialWorld)) = Some player /\
             Entity.alive player = true) as (player & G & A)
      by (eexists; split; [vm_compute; reflexivity | reflexivity]).
  destruct (@move_broadcast (run Sample.env alone initialWorld) "A" player (-7)%Q 99999%Q G A)
    as (_ & _ & _ & _ & S).
  exact S.
Defined.

(** Instance of [respawn_of_departed]: a timer for "A" on a server without
    players. *)
Lemma respawn_of_departed_witness :
  exec (runCallback Sample.env (respawn_if_connected "A")) initialWorld = initialWorld.
Proof.
  apply respawn_of_departed with (id := "A"); [right; reflexivity | reflexivity].
Defined.

(** Instance of [manageBotPopulation_fills]: the start of the server. *)
Lemma manageBotPopulation_fills_witness :
  let w' := exec (manageBotPopulation Sample.env) initialWorld in
  exists added,
    bots w' = added /\ Z.of_nat (List.length added) = 5.
Proof.
  cbv zeta.
  destruct (@manageBotPopulation_fills Sample.env []) as (added & B & L & _); [reflexivity|].
  exists added. split; [exact B | exact L].
Defined.

(** Instance of [kill_credit_commutes]: player "A" of [killer]. *)
Lemma kill_credit_commutes_witness :
  let w := run Sample.env killer initialWorld in
  let r := inPlayers "A" in
  fst (deref r (exec (updateScore Sample.env r) (snd (mutate r credited w))))
  = fst (deref r (snd (mutate r credited (exec (updateScore Sample.env r) w)))).
Proof.
  cbv zeta.
  assert (exists e,
             fst (deref (inPlayers "A") (run Sample.env killer initialWorld)) = Some e /\
             Entity.alive e = true) as (e & G & A)
      by (eexists; split; [vm_compute; reflexivity | reflexivity]).
  exact (@kill_credit_commutes Sample.env _ (inPlayers "A") e G A).
Defined.

(** Instance of [leaderboard_complete]: the first player of [scored]. *)
Lemma leaderboard_complete_witness :
  let w := run Sample.env scored initialWorld in
  exists e, In e (entities w) /\ In (leaderboardRow e) (getLeaderboard w).
Proof.
  cbv zeta.
  assert (exists e, In e (entities (run Sample.env scored initialWorld))) as (e & I).
  { assert (forall (e : Entity.t) l, (match l with x :: _ => x = e | [] => False end) -> In e l)
      as Head by (intros e [|x l] H; [contradiction | left; exact H]).
    eexists. apply Head. vm_compute. reflexivity. }
  exists e. split; [exact I|].
  apply leaderboard_complete; [|exact I].
  assert (Nat.leb (List.length (entities (run Sample.env scored initialWorld))) 10 = true) as L
      by (vm_compute; reflexivity).
  apply Nat.leb_le. exact L.
Defined.
